(** * kakuro-kuso: a shallow embedding of the Kakuro solver

    The development follows [kakuro-kuso.py].  Python integers are [Z];
    a Python [set] of integers is a [gset Z]; the [lookup] dictionary is a
    [gmap] keyed by (sum, count); the grid's flat [data] tuple is a list of
    entries, and a Cell object is referred to by its position in that
    tuple (the loader builds one fresh object per position).  A Python
    exception is an [outcome] other than [Ok]; the methods that mutate
    cells live in a state monad over the grid that keeps the store reached
    when an exception is raised. *)

From stdpp Require Import gmap list numbers.

Local Open Scope Z_scope.

(** ** Exceptions and the two monads *)

Inductive exn : Set :=
  | AssertionError
  | StopIteration
  | AttributeError
  | ValueError
  | ZeroDivisionError.

Inductive outcome (A : Type) : Type :=
  | Ok (a : A)
  | Raise (e : exn).
Arguments Ok {A} a.
Arguments Raise {A} e.

Global Instance outcome_ret : MRet outcome := λ A a, Ok a.
Global Instance outcome_bind : MBind outcome := λ A B k m,
  match m with
  | Ok a => k a
  | Raise e => Raise e
  end.

(** [assert b] of Python, in the read-only monad. *)
Definition assert (b : bool) : outcome unit :=
  if b then Ok () else Raise AssertionError.

(** ** Arithmetic helpers

    [triangular] divides with [/], which makes a float in Python; the
    dividend [n*(n+1)] is even, so the quotient is an exact integer, and
    the float holds it exactly while it does not exceed 2^53, that is for
    n below 2^27.  The callers pass the number of cells of a run: for
    them the comparisons and the [int(...)] conversions are exact. *)

Definition triangular (n : Z) : Z := n * (n + 1) / 2.

Definition triangular_prime_base (n base : Z) : Z := n * base - triangular n.

(** The default argument [base=10] is the only one the program uses. *)
Definition triangular_prime (n : Z) : Z := triangular_prime_base n 10.

(** ** The lookup table *)

(** [range(a, b)] as a Python set. *)
Definition range_set (a b : Z) : gset Z := list_to_set (seqZ a (b - a)).

(** [s ^ t], the symmetric difference of two sets. *)
Definition symdiff (s t : gset Z) : gset Z := (s ∖ t) ∪ (t ∖ s).

(** [{(i, 1): {i} for i in range(1,10)}] *)
Definition lookup_init : gmap (Z * Z) (gset Z) :=
  list_to_map ((λ i, ((i, 1), ({[ i ]} : gset Z))) <$> seqZ 1 9).

(** One turn of the [for i in range(2,10)] loop that completes the table. *)
Definition lookup_step (tbl : gmap (Z * Z) (gset Z)) (i : Z)
  : gmap (Z * Z) (gset Z) :=
  let ti := triangular i in
  let invti := triangular_prime i in
  let minset := range_set 1 (i + 1) in
  let maxset := range_set (10 - i) 10 in
  let tbl := <[ (ti, i) := minset ]> tbl in
  let tbl := <[ (invti, i) := maxset ]> tbl in
  if i <? 9 then
    let tbl := <[ (ti + 1, i) := symdiff minset {[ i; i + 1 ]} ]> tbl in
    <[ (invti - 1, i) := symdiff maxset {[ 10 - i; 10 - i - 1 ]} ]> tbl
  else tbl.

(** The module-level dictionary [lookup] (renamed: [lookup] is the map
    access of the library). *)
Definition lookup_table : gmap (Z * Z) (gset Z) :=
  foldl lookup_step lookup_init (seqZ 2 8).

(** ** Properties of the lookup table *)

(** What the table may hold under a key (sum [S], count [L]). *)
Definition table_entry_allowed (S L : Z) (s : gset Z) : Prop :=
  (1 ≤ L ≤ 9 ∧ (S = triangular L ∨ S = triangular_prime L))
  ∨ (2 ≤ L ≤ 8 ∧ (S = triangular L + 1 ∨ S = triangular_prime L - 1))
  ∨ (L = 1 ∧ 1 ≤ S ≤ 9 ∧ s = {[ S ]}).

Global Instance table_entry_allowed_dec S L s :
  Decision (table_entry_allowed S L s).
Proof. unfold table_entry_allowed. apply _. Defined.

Definition table_entry_check (kv : Z * Z * gset Z) : bool :=
  bool_decide (table_entry_allowed kv.1.1 kv.1.2 kv.2).

Lemma lookup_table_entries_allowed :
  forallb table_entry_check (map_to_list lookup_table) = true.
Proof. vm_compute. reflexivity. Qed.

Lemma between_1_9 (L : Z) :
  1 ≤ L ≤ 9 →
  L = 1 ∨ L = 2 ∨ L = 3 ∨ L = 4 ∨ L = 5 ∨ L = 6 ∨ L = 7 ∨ L = 8 ∨ L = 9.
Proof. lia. Qed.

(** C2. For every run length L in 1..9 the table maps (triangular L, L)
    to {1..L} and (triangular' L, L) to {10-L..9}; for L in 2..8 it maps
    (triangular L + 1, L) to {1..L} with L replaced by L+1 and
    (triangular' L - 1, L) to {10-L..9} with 10-L replaced by 9-L; and
    every key of the table is one of these or a length-1 key (S,1) holding
    {S} with S in 1..9. *)
Theorem lookup_table_contents :
  (∀ L, 1 ≤ L ≤ 9 →
     lookup_table !! (triangular L, L) = Some (range_set 1 (L + 1))
     ∧ lookup_table !! (triangular_prime L, L) = Some (range_set (10 - L) 10))
  ∧ (∀ L, 2 ≤ L ≤ 8 →
     lookup_table !! (triangular L + 1, L)
       = Some ((range_set 1 (L + 1) ∖ {[ L ]}) ∪ {[ L + 1 ]})
     ∧ lookup_table !! (triangular_prime L - 1, L)
       = Some ((range_set (10 - L) 10 ∖ {[ 10 - L ]}) ∪ {[ 9 - L ]}))
  ∧ (∀ S L s, lookup_table !! (S, L) = Some s → table_entry_allowed S L s).
Proof.
  split; [|split].
  - intros L HL.
    destruct (between_1_9 L HL) as [->|[->|[->|[->|[->|[->|[->|[->| ->]]]]]]]];
      split; vm_compute; reflexivity.
  - intros L HL.
    assert (HL' : 1 ≤ L ≤ 9) by lia.
    destruct (between_1_9 L HL') as [->|[->|[->|[->|[->|[->|[->|[->| ->]]]]]]]];
      try lia; split; vm_compute; reflexivity.
  - intros S L s Hs.
    apply elem_of_map_to_list in Hs.
    apply list_elem_of_In in Hs.
    pose proof lookup_table_entries_allowed as Hall.
    rewrite forallb_forall in Hall.
    apply Hall in Hs. unfold table_entry_check in Hs.
    apply bool_decide_eq_true in Hs. exact Hs.
Qed.

(** The statement applied at run length 2: sums 3, 17, 4 and 16. *)
Lemma lookup_table_contents_witness :
  (lookup_table !! (3, 2) = Some (range_set 1 3)
   ∧ lookup_table !! (17, 2) = Some (range_set 8 10))
  ∧ (lookup_table !! (4, 2) = Some ((range_set 1 3 ∖ {[ 2 ]}) ∪ {[ 3 ]})
     ∧ lookup_table !! (16, 2) = Some ((range_set 8 10 ∖ {[ 8 ]}) ∪ {[ 7 ]})).
Proof.
  destruct lookup_table_contents as (Hext & Hnear & _).
  split.
  - apply (Hext 2). lia.
  - apply (Hnear 2). lia.
Defined.

(** ** Grid entries and the grid *)

Inductive entry : Type :=
  | Cell (candidates : gset Z)
  | Clue (vertical horizontal : Z).

(** [Map]/[Kakuro]: the three attributes set by [Map.__init__]. *)
Record Kakuro : Type := mkKakuro {
  width : Z;
  height : Z;
  data : list entry
}.

Global Instance entry_eq_dec : EqDecision entry.
Proof. solve_decision. Defined.

Global Instance Kakuro_eq_dec : EqDecision Kakuro.
Proof. solve_decision. Defined.

(** [isinstance(e, Cell)] and [isinstance(e, Clue)]. *)
Definition is_Cell (e : entry) : bool :=
  match e with Cell _ => true | Clue _ _ => false end.
Definition is_Clue (e : entry) : bool :=
  match e with Cell _ => false | Clue _ _ => true end.

(** The object at position [i] of the tuple, read as a Cell or as a Clue. *)
Definition candidates_of (g : Kakuro) (i : nat) : outcome (gset Z) :=
  match data g !! i with
  | Some (Cell c) => Ok c
  | _ => Raise AttributeError
  end.

(** ** itertools and slices *)

Fixpoint takewhile {A} (p : A → bool) (l : list A) : list A :=
  match l with
  | [] => []
  | x :: l' => if p x then x :: takewhile p l' else []
  end.

Fixpoint dropwhile {A} (p : A → bool) (l : list A) : list A :=
  match l with
  | [] => []
  | x :: l' => if p x then dropwhile p l' else l
  end.

(** [next(it)] on an iterator holding the items [l]. *)
Definition next {A} (l : list A) : outcome A :=
  match l with
  | x :: _ => Ok x
  | [] => Raise StopIteration
  end.

(** [itertools.product] over the given pools: the rightmost pool advances
    fastest; no pool at all gives the one empty tuple. *)
Fixpoint product {A} (pools : list (list A)) : list (list A) :=
  match pools with
  | [] => [[]]
  | pool :: rest =>
      let tails := product rest in
      flat_map (λ x, map (cons x) tails) pool
  end.

(** [enumerate(l, start)] *)
Fixpoint enumerate_from {A} (start : nat) (l : list A) : list (nat * A) :=
  match l with
  | [] => []
  | x :: l' => (start, x) :: enumerate_from (S start) l'
  end.

Definition enumerate {A} (l : list A) : list (nat * A) := enumerate_from 0 l.

Definition sum (l : list Z) : Z := foldr Z.add 0 l.

(** The clamping of one slice bound against the length (as CPython's
    [PySlice_AdjustIndices] does it). *)
Definition adjust_index (len step i : Z) : Z :=
  if i <? 0 then
    let i' := i + len in
    if i' <? 0 then (if step <? 0 then -1 else 0) else i'
  else if len <=? i then (if step <? 0 then len - 1 else len)
  else i.

Definition slice_length (start stop step : Z) : Z :=
  if step <? 0 then
    (if stop <? start then (start - stop - 1) / (- step) + 1 else 0)
  else
    (if start <? stop then (stop - start - 1) / step + 1 else 0).

(** The positions selected by [t[start:stop:step]] on a tuple of length
    [len]; [stop = None] is the omitted bound. *)
Definition slice_indices (len start : Z) (stop : option Z) (step : Z)
  : list Z :=
  let start' := adjust_index len step start in
  let stop' :=
    match stop with
    | Some s => adjust_index len step s
    | None => if step <? 0 then -1 else len
    end in
  (λ k, start' + k * step) <$> seqZ 0 (slice_length start' stop' step).

(** A slice of [data], as the positions of the objects it holds. *)
Definition data_slice (g : Kakuro) (start : Z) (stop : option Z) (step : Z)
  : outcome (list nat) :=
  if bool_decide (step = 0) then Raise ValueError
  else Ok (Z.to_nat <$>
             slice_indices (Z.of_nat (length (data g))) start stop step).

(** ** Map *)

Definition idx2row (g : Kakuro) (idx : Z) : outcome Z :=
  _ ← assert (bool_decide (idx < width g * height g));
  if bool_decide (width g = 0) then Raise ZeroDivisionError
  else Ok (idx `div` width g).

Definition idx2col (g : Kakuro) (idx : Z) : outcome Z :=
  _ ← assert (bool_decide (idx < width g * height g));
  if bool_decide (width g = 0) then Raise ZeroDivisionError
  else Ok (idx `mod` width g).

Definition in_grid (g : Kakuro) (row column : Z) : bool :=
  bool_decide (row < height g) && bool_decide (column < width g).

Definition items_south_of (g : Kakuro) (row column : Z) : outcome (list nat) :=
  _ ← assert (in_grid g row column);
  data_slice g ((row + 1) * width g + column) None (width g).

Definition items_north_of (g : Kakuro) (row column : Z) : outcome (list nat) :=
  _ ← assert (in_grid g row column);
  data_slice g ((row - 1) * width g + column) (Some 0) (- width g).

Definition items_west_of (g : Kakuro) (row column : Z) : outcome (list nat) :=
  _ ← assert (in_grid g row column);
  data_slice g (row * width g + column - 1) (Some (row * width g - 1)) (-1).

Definition items_east_of (g : Kakuro) (row column : Z) : outcome (list nat) :=
  _ ← assert (in_grid g row column);
  data_slice g (row * width g + column + 1) (Some ((row + 1) * width g)) 1.

(** [Cell.contiguous]: the leading objects of a slice that are Cells. *)
Definition contiguous (g : Kakuro) (items : list nat) : list nat :=
  takewhile (λ i, from_option is_Cell false (data g !! i)) items.

(** [Kakuro.clues]: a generator; each item is computed (and may fail its
    assertion) only when the loop reaches it, so the items are outcomes. *)
Definition clues (g : Kakuro) : list (outcome (Z * Z * (Z * Z))) :=
  omap (λ '(idx, item),
          match item with
          | Clue v h =>
              Some (row ← idx2row g (Z.of_nat idx);
                    column ← idx2col g (Z.of_nat idx);
                    Ok (row, column, (v, h)))
          | Cell _ => None
          end) (enumerate (data g)).

(** [Kakuro.cells], likewise; the Cell is given by its position. *)
Definition cells (g : Kakuro) : list (outcome (Z * Z * nat)) :=
  omap (λ '(idx, item),
          match item with
          | Cell _ =>
              Some (row ← idx2row g (Z.of_nat idx);
                    column ← idx2col g (Z.of_nat idx);
                    Ok (row, column, idx))
          | Clue _ _ => None
          end) (enumerate (data g)).

(** [Kakuro.clues_for]; the two clues are returned by position. *)
Definition clues_for (g : Kakuro) (row column : Z) : outcome (nat * nat) :=
  let predicate := λ i, negb (from_option is_Clue false (data g !! i)) in
  north ← items_north_of g row column;
  let items_v := dropwhile predicate north in
  west ← items_west_of g row column;
  let items_h := dropwhile predicate west in
  v ← next items_v;
  h ← next items_h;
  Ok (v, h).

(** ** The state monad of the mutating methods *)

Definition M (A : Type) : Type := Kakuro → outcome A * Kakuro.

Global Instance M_ret : MRet M := λ A a g, (Ok a, g).
Global Instance M_bind : MBind M := λ A B k m g,
  match m g with
  | (Ok a, g') => k a g'
  | (Raise e, g') => (Raise e, g')
  end.

(** A read-only method run on the current store. *)
Definition read {A} (f : Kakuro → outcome A) : M A := λ g, (f g, g).

(** [cell.candidates = s] on the object at position [i]. *)
Definition set_entry_candidates (s : gset Z) (e : entry) : entry :=
  match e with
  | Cell _ => Cell s
  | Clue v h => Clue v h
  end.

Definition with_candidates (i : nat) (s : gset Z) (g : Kakuro) : Kakuro :=
  mkKakuro (width g) (height g) (alter (set_entry_candidates s) i (data g)).

Definition set_candidates (i : nat) (s : gset Z) : M unit := λ g,
  (Ok (), with_candidates i s g).

(** A [for] loop that carries one variable. *)
Fixpoint foldM {A S} (body : S → A → M S) (s : S) (l : list A) : M S :=
  match l with
  | [] => mret s
  | a :: l' => s' ← body s a; foldM body s' l'
  end.

(** ** Cell *)

Definition is_unique (c : gset Z) : bool := bool_decide (size c = 1%nat).

(** [Cell.is_unique] on the object at position [i]. *)
Definition cell_is_unique (g : Kakuro) (i : nat) : outcome bool :=
  c ← candidates_of g i; Ok (is_unique c).

Definition substract (cell : nat) (substract_set : gset Z) : M bool :=
  c ← read (λ g, candidates_of g cell);
  let old_len := size c in
  _ ← set_candidates cell (c ∖ substract_set);
  c' ← read (λ g, candidates_of g cell);
  mret (bool_decide (old_len ≠ size c')).

Definition intersect (cell : nat) (intersect_set : gset Z) : M bool :=
  c ← read (λ g, candidates_of g cell);
  let old_len := size c in
  _ ← set_candidates cell (c ∩ intersect_set);
  c' ← read (λ g, candidates_of g cell);
  mret (bool_decide (old_len ≠ size c')).

(** [partition(Cell.is_unique, strip)]: the pending cells (predicate
    false) and the unique ones, each in the order of the strip. *)
Definition partition_unique (g : Kakuro) (strip : list nat)
  : outcome (list nat * list nat) :=
  flags ← mapM (λ i, b ← cell_is_unique g i; Ok (i, b)) strip;
  Ok (fst <$> filter (λ ib, ib.2 = false) flags,
      fst <$> filter (λ ib, ib.2 = true) flags).

(** ** Range narrowing *)

Definition cellset_max (n count : Z) : Z :=
  if bool_decide (1 < count) then Z.min (n - triangular (count - 1)) 9 else n.

Definition cellset_min (n count : Z) : Z :=
  if bool_decide (1 < count)
  then Z.max (n - triangular_prime (count - 1)) 1 else n.

Definition constrain_cells_sum (n : Z) (cells : list nat) : M bool :=
  let count := Z.of_nat (length cells) in
  _ ← read (λ _, assert (bool_decide (triangular count ≤ n)
                         && bool_decide (n ≤ triangular_prime count)));
  changed ←
    match lookup_table !! (n, count) with
    | Some summands =>
        foldM (λ changed cell,
                 b ← intersect cell summands; mret (b || changed))
              false cells
    | None => mret false
    end;
  foldM (λ changed cell,
           let allowed_range :=
             range_set (cellset_min n count) (cellset_max n count + 1) in
           b ← intersect cell allowed_range; mret (b || changed))
        changed cells.

(** [valid_combination]: pairwise distinct and every digit in 1..9. *)
Definition valid_combination (l : list Z) : bool :=
  bool_decide (length l = size (list_to_set l : gset Z))
  && forallb (λ x, bool_decide (1 ≤ x) && bool_decide (x ≤ 9)) l.

(** The test of Pass B: some tuple of the neighbours' candidates, valid
    together with [x], sums with [x] to [n]. *)
Definition supported (n x : Z) (pools : list (list Z)) : bool :=
  existsb (λ p, bool_decide (n = sum p + x))
          (filter (λ p, valid_combination (x :: p) = true) (product pools)).

(** ** The solver

    The order in which Python iterates over a set is not fixed by the
    language.  The solver is defined for any such order: [set_iter] lists
    the members of a set of digits, [cell_set_iter] those of a set of Cell
    objects (hashed by identity, that is by position).  An order given by
    the value of the set is exact wherever the result does not depend on
    the order; the search, whose result does, is given again further down
    with the order of each set object ([crack_at]). *)

Section Solver.

Variable set_iter : gset Z → list Z.
Variable cell_set_iter : gset nat → list nat.

(** [Cell.unique_value] *)
Definition unique_value (c : gset Z) : outcome Z :=
  _ ← assert (is_unique c);
  next (set_iter c).

Definition cell_unique_value (g : Kakuro) (i : nat) : outcome Z :=
  c ← candidates_of g i; unique_value c.

(** [Cell.__iter__] run to its end: the candidates in iteration order. *)
Definition cell_iter (g : Kakuro) (i : nat) : outcome (list Z) :=
  c ← candidates_of g i; Ok (set_iter c).

(** The values of the contiguous cells of a slice, as a tuple. *)
Definition neighbor_values (g : Kakuro) (items : list nat) : outcome (list Z) :=
  mapM (cell_unique_value g) (contiguous g items).

Definition has_duplicates (l : list Z) : bool :=
  bool_decide (length l ≠ size (list_to_set l : gset Z)).

(** The second loop of [is_solved], over the items of [self.clues()]. *)
Fixpoint is_solved_clues (g : Kakuro) (cl : list (outcome (Z * Z * (Z * Z))))
  : outcome bool :=
  match cl with
  | [] => Ok true
  | item :: rest =>
      '(row, column, (v, h)) ← item;
      south ← items_south_of g row column;
      vneighbors ← neighbor_values g south;
      east ← items_east_of g row column;
      hneighbors ← neighbor_values g east;
      if has_duplicates hneighbors || has_duplicates vneighbors then Ok false
      else if bool_decide (v ≠ sum vneighbors)
              || bool_decide (h ≠ sum hneighbors) then Ok false
      else is_solved_clues g rest
  end.

Definition all_cells_unique (g : Kakuro) : bool :=
  forallb (λ element,
             match element with
             | Cell c => is_unique c
             | Clue _ _ => true
             end) (data g).

Definition is_solved (g : Kakuro) : outcome bool :=
  if all_cells_unique g then is_solved_clues g (clues g) else Ok false.

(** *** Pass A *)

(** The body of the inner loop of [discard_from_uniques] for one
    direction: target [n] and the slice [cells]. *)
Definition uniques_direction (n : Z) (cells : list nat) (changed : bool)
  : M bool :=
  if bool_decide (n = 0) then mret changed
  else
    '(pending, uniques) ← read (λ g, partition_unique g (contiguous g cells));
    values ← read (λ g, mapM (cell_unique_value g) uniques);
    let substract_set : gset Z := list_to_set values in
    _ ← read (λ _, assert (bool_decide (size substract_set = length uniques)));
    changed ← foldM (λ changed p,
                       b ← substract p substract_set; mret (b || changed))
                    changed pending;
    let n := n - sum (set_iter substract_set) in
    if bool_decide (n ≠ 0)
    then b ← constrain_cells_sum n pending; mret (b || changed)
    else mret changed.

Definition discard_from_uniques : M bool :=
  cl ← read (λ g, Ok (clues g));
  foldM (λ changed item,
           '(row, column, (v, h)) ← read (λ _, item);
           vcells ← read (λ g, items_south_of g row column);
           hcells ← read (λ g, items_east_of g row column);
           changed ← uniques_direction v vcells changed;
           uniques_direction h hcells changed)
        false cl.

(** *** Pass B *)

(** The candidates of [cell] that no tuple of the neighbours supports. *)
Definition unsupported (n : Z) (c : gset Z) (pools : list (list Z)) : gset Z :=
  filter (λ x, supported n x pools = false) c.

Definition single_clues_direction (n : Z) (strip : list nat) (changed : bool)
  : M bool :=
  if bool_decide (n = 0) then mret changed
  else
    '(pending, uniques) ← read (λ g, partition_unique g strip);
    let pending : gset nat := list_to_set pending in
    values ← read (λ g, mapM (cell_unique_value g) uniques);
    let n := n - sum values in
    _ ← read (λ _, assert (bool_decide (0 < size pending)%nat && bool_decide (0 < n)
                           || bool_decide (size pending = 0%nat)
                              && bool_decide (n = 0)));
    if bool_decide (n = 0) then mret changed
    else
      foldM (λ changed cell,
               let neighbors := pending ∖ {[ cell ]} in
               c ← read (λ g, candidates_of g cell);
               pools ← read (λ g, mapM (cell_iter g) (cell_set_iter neighbors));
               b ← substract cell (unsupported n c pools);
               mret (b || changed))
            changed (cell_set_iter pending).

Definition discard_from_single_clues : M bool :=
  cl ← read (λ g, Ok (clues g));
  foldM (λ changed item,
           '(row, column, (v, h)) ← read (λ _, item);
           south ← read (λ g, items_south_of g row column);
           east ← read (λ g, items_east_of g row column);
           vstrip ← read (λ g, Ok (contiguous g south));
           hstrip ← read (λ g, Ok (contiguous g east));
           changed ← single_clues_direction v vstrip changed;
           single_clues_direction h hstrip changed)
        false cl.

(** *** Search *)

(** [for x, cell in zip(combination, pending_cells): cell.candidates = {x}] *)
Definition assign (combination : list Z) (pending_cells : list nat) : M unit :=
  foldM (λ (_ : unit) (xc : Z * nat), set_candidates xc.2 {[ xc.1 ]}) ()
        (zip combination pending_cells).

(** The cells of [self.cells()] that are not unique, as a tuple. *)
Fixpoint pending_of (g : Kakuro) (cs : list (outcome (Z * Z * nat)))
  : outcome (list nat) :=
  match cs with
  | [] => Ok []
  | item :: rest =>
      '(row, col, cell) ← item;
      b ← cell_is_unique g cell;
      tl ← pending_of g rest;
      Ok (if (b : bool) then tl else cell :: tl)
  end.

(** [crack]; the [print] of the number of solutions is left out. *)
Definition crack : M bool :=
  pending_cells ← read (λ g, pending_of g (cells g));
  candidates ← read (λ g, mapM (cell_iter g) pending_cells);
  let cartesian := product candidates in
  solutions ←
    foldM (λ solutions combination,
             _ ← assign combination pending_cells;
             solved ← read is_solved;
             mret (if (solved : bool) then solutions ++ [combination]
                   else solutions))
          [] cartesian;
  match solutions with
  | [] => mret false
  | first :: _ => _ ← assign first pending_cells; mret true
  end.

(** [Kakuro.solve], with the number of turns of the [while] loop bounded
    by [fuel]; [None] when the bound is reached. *)
Fixpoint solve_loop (fuel : nat) : M (option unit) :=
  match fuel with
  | O => mret None
  | S fuel' =>
      changed ← discard_from_uniques;
      changed ← (if (changed : bool) then mret changed
                 else discard_from_single_clues);
      if (changed : bool) then solve_loop fuel'
      else (_ ← crack; mret (Some ()))
  end.

End Solver.

(** ** Slices and the directional traversals *)

(** Case analysis on the integer comparisons of the goal or of [H]. *)
Ltac case_cmp :=
  repeat match goal with
    | |- context [?a <? ?b] => destruct (Z.ltb_spec a b)
    | |- context [?a <=? ?b] => destruct (Z.leb_spec a b)
    end.

Ltac case_cmp_in H :=
  repeat match type of H with
    | context [?a <? ?b] => destruct (Z.ltb_spec a b)
    | context [?a <=? ?b] => destruct (Z.leb_spec a b)
    end.

Lemma adjust_index_neg_step_upper len step i :
  0 ≤ len → step < 0 → adjust_index len step i ≤ len - 1.
Proof.
  intros Hlen Hstep. unfold adjust_index. case_cmp; lia.
Qed.

(** What a slice with a negative step can select: positions above the
    adjusted stop, at most the adjusted start, a multiple of the step away
    from it. *)
Lemma slice_indices_neg_step len start stop step x :
  step < 0 →
  x ∈ slice_indices len start (Some stop) step →
  adjust_index len step stop < x ≤ adjust_index len step start
  ∧ ∃ k, 0 ≤ k ∧ x = adjust_index len step start + k * step.
Proof.
  intros Hstep Hx. unfold slice_indices in Hx.
  apply list_elem_of_fmap in Hx as (k & -> & Hk).
  apply elem_of_seqZ in Hk.
  set (a := adjust_index len step start) in *.
  set (b := adjust_index len step stop) in *.
  unfold slice_length in Hk.
  destruct (Z.ltb_spec step 0) as [_|]; [|lia].
  destruct (Z.ltb_spec b a) as [Hba|Hba]; [|lia].
  assert (Hq : - step * ((a - b - 1) / - step) ≤ a - b - 1)
    by (apply Z.mul_div_le; lia).
  split; [|exists k; lia]. nia.
Qed.

Lemma slice_indices_neg_step_empty len start stop step :
  step < 0 →
  adjust_index len step start ≤ adjust_index len step stop →
  slice_indices len start (Some stop) step = [].
Proof.
  intros Hstep Hle. unfold slice_indices, slice_length.
  destruct (Z.ltb_spec step 0) as [_|]; [|lia].
  destruct (Z.ltb_spec (adjust_index len step stop)
                       (adjust_index len step start)); [lia|].
  reflexivity.
Qed.

Lemma dropwhile_all {A} (p : A → bool) (l : list A) :
  Forall (λ x, p x = true) l → dropwhile p l = [].
Proof.
  induction 1 as [|x l Hx _ IH]; simpl; [done|]. by rewrite Hx.
Qed.

(** The grid invariant of the data model: the dimensions are those of the
    flat tuple. *)
Definition well_formed (g : Kakuro) : Prop :=
  0 ≤ width g ∧ 0 ≤ height g
  ∧ Z.of_nat (length (data g)) = width g * height g.

Global Instance well_formed_dec g : Decision (well_formed g).
Proof. unfold well_formed. apply _. Defined.

(** The positions west of (row, column) in its row, nearest first. *)
Definition west_positions (g : Kakuro) (row column : Z) : list nat :=
  Z.to_nat <$> ((λ k, row * width g + column - 1 - k) <$> seqZ 0 column).

Lemma items_north_of_positive g row column l :
  items_north_of g row column = Ok l → ∀ i, i ∈ l → (0 < i)%nat.
Proof.
  unfold items_north_of, data_slice.
  destruct (in_grid g row column) eqn:Hin; simpl; [|done].
  case_bool_decide as Hstep; [done|].
  intros [= <-] i Hi.
  apply list_elem_of_fmap in Hi as (x & -> & Hx).
  destruct (Z.lt_trichotomy (- width g) 0) as [Hneg|[?|Hpos]]; [|lia|].
  - apply slice_indices_neg_step in Hx as [[Hlo Hhi] _]; [|done].
    pose proof (adjust_index_neg_step_upper
                  (Z.of_nat (length (data g))) (- width g)
                  ((row - 1) * width g + column)) as Hup.
    unfold adjust_index in Hlo. case_cmp_in Hlo; lia.
  - exfalso. unfold slice_indices in Hx.
    apply list_elem_of_fmap in Hx as (k & _ & Hk).
    apply elem_of_seqZ in Hk. unfold slice_length, adjust_index in Hk.
    case_cmp_in Hk; lia.
Qed.

Lemma items_west_of_row_0 g column :
  in_grid g 0 column = true → items_west_of g 0 column = Ok [].
Proof.
  intros Hin. unfold items_west_of, data_slice. rewrite Hin. simpl.
  rewrite slice_indices_neg_step_empty; [done|lia|].
  etrans; [apply adjust_index_neg_step_upper; lia|].
  unfold adjust_index. case_cmp; lia.
Qed.

Lemma adjust_index_in_range len step i :
  0 ≤ i < len → adjust_index len step i = i.
Proof. intros Hi. unfold adjust_index. case_cmp; lia. Qed.

Lemma in_grid_true g row column :
  row < height g → column < width g → in_grid g row column = true.
Proof.
  intros. unfold in_grid. by rewrite !bool_decide_eq_true_2 by done.
Qed.

Lemma items_west_of_inner_row g row column :
  well_formed g → 1 ≤ row < height g → 0 ≤ column < width g →
  items_west_of g row column = Ok (west_positions g row column).
Proof.
  intros (Hw & Hh & Hlen) Hrow Hcol.
  unfold items_west_of, data_slice, west_positions.
  rewrite in_grid_true by lia. simpl.
  do 2 f_equal. unfold slice_indices.
  assert (Hrw : row * width g + width g ≤ width g * height g) by nia.
  assert (Hrw' : 1 * width g ≤ row * width g) by nia.
  rewrite !adjust_index_in_range by lia.
  unfold slice_length. simpl (-1 <? 0).
  replace (- -1) with 1 by lia. rewrite Z.div_1_r.
  destruct (Z.ltb_spec (row * width g - 1) (row * width g + column - 1)).
  - replace (row * width g + column - 1 - (row * width g - 1) - 1 + 1)
      with column by lia.
    apply list_fmap_ext. intros _ k _. lia.
  - by replace column with 0 by lia.
Qed.

Lemma items_north_of_column_0 g row x :
  well_formed g → 1 ≤ row < height g → 0 < width g →
  items_north_of g row 0 = Ok x →
  Forall (λ i, ∃ k, 1 ≤ k < row ∧ i = Z.to_nat (k * width g)) x.
Proof.
  intros (Hw & Hh & Hlen) Hrow Hpos.
  unfold items_north_of, data_slice.
  rewrite in_grid_true by lia. simpl.
  rewrite bool_decide_eq_false_2 by lia. intros [= <-].
  apply list.Forall_forall. intros i Hi.
  apply list_elem_of_fmap in Hi as (z & -> & Hz).
  apply slice_indices_neg_step in Hz as [[Hlo Hhi] (k & Hk & Hz)]; [|lia].
  assert (Hrw : row * width g ≤ width g * height g) by nia.
  rewrite Z.add_0_r in *.
  destruct (decide (row = 1)) as [->|Hne].
  - exfalso. revert Hlo Hhi. unfold adjust_index. case_cmp; lia.
  - assert (Hrw' : 1 * width g ≤ (row - 1) * width g) by nia.
    rewrite (adjust_index_in_range _ _ ((row - 1) * width g)) in * by lia.
    rewrite (adjust_index_in_range _ _ 0) in Hlo by lia.
    exists (row - 1 - k). split; [nia|]. f_equal. lia.
Qed.

(** C8. The backward traversals are partial at the grid boundary:
    [items_north_of] never yields position 0; on row 0 [items_west_of]
    yields nothing although positions lie to the west (while on the other
    rows it yields them); and [clues_for] raises StopIteration for a cell
    of column 0 whose vertical clue is the top-left entry. *)
Theorem backward_traversals_partial :
  (∀ g row column l, items_north_of g row column = Ok l → 0%nat ∉ l)
  ∧ (∀ g column,
       well_formed g → 0 < height g → 0 < column < width g →
       items_west_of g 0 column = Ok []
       ∧ west_positions g 0 column ≠ []
       ∧ ∀ row, 1 ≤ row < height g →
           items_west_of g row column = Ok (west_positions g row column))
  ∧ (∀ g row,
       well_formed g → 1 ≤ row < height g → 0 < width g →
       is_Clue <$> data g !! 0%nat = Some true →
       (∀ k, 1 ≤ k < row →
          is_Cell <$> data g !! Z.to_nat (k * width g) = Some true) →
       clues_for g row 0 = Raise StopIteration).
Proof.
  split; [|split].
  - intros g row column l Hl H0.
    pose proof (items_north_of_positive _ _ _ _ Hl _ H0). lia.
  - intros g column Hwf Hh Hcol. split; [|split].
    + apply items_west_of_row_0, in_grid_true; lia.
    + unfold west_positions. intros Hnil.
      apply fmap_nil_inv, fmap_nil_inv in Hnil.
      apply (f_equal length) in Hnil. rewrite length_seqZ in Hnil.
      simpl in Hnil. lia.
    + intros row Hrow. apply items_west_of_inner_row; [done|done|lia].
  - intros g row Hwf Hrow Hw Htop Hbetween.
    unfold clues_for.
    destruct (items_north_of g row 0) as [north|e] eqn:Hnorth.
    2:{ exfalso. revert Hnorth. unfold items_north_of, data_slice.
        rewrite in_grid_true by lia. simpl.
        by rewrite bool_decide_eq_false_2 by lia. }
    simpl.
    rewrite items_west_of_inner_row by (done || lia). simpl.
    rewrite dropwhile_all; [done|].
    pose proof (items_north_of_column_0 g row north Hwf Hrow Hw Hnorth) as Hall.
    eapply list.Forall_impl; [exact Hall|].
    intros i (k & Hk & ->). simpl.
    specialize (Hbetween k Hk).
    destruct (data g !! Z.to_nat (k * width g)) as [[]|]; by simplify_eq/=.
Qed.

(** The three parts on a grid of one column: a clue above two cells. *)
Lemma backward_traversals_partial_witness :
(0%nat ∉ [1%nat])
  ∧ items_west_of
      (mkKakuro 3 1 [Clue 0 6; Cell (range_set 1 10); Cell (range_set 1 10)])
      0 2 = Ok []
  ∧ clues_for
      (mkKakuro 1 3 [Clue 3 0; Cell (range_set 1 10); Cell (range_set 1 10)])
      2 0 = Raise StopIteration.
Proof.
  destruct backward_traversals_partial as (Hnorth & Hwest & Hclue).
  split; [|split].
  - apply (Hnorth
             (mkKakuro 1 3
                [Clue 3 0; Cell (range_set 1 10); Cell (range_set 1 10)])
             2 0).
    vm_compute. reflexivity.
  - apply Hwest.
    + unfold well_formed. simpl. lia.
    + simpl. lia.
    + simpl. lia.
  - apply Hclue.
    + unfold well_formed. simpl. lia.
    + simpl. lia.
    + simpl. lia.
    + reflexivity.
    + intros k Hk. simpl in Hk. assert (k = 1) as -> by lia. reflexivity.
Defined.

(** ** Running the mutating methods *)

Lemma bind_ok {A B} (m : M A) (k : A → M B) g a g' :
  m g = (Ok a, g') → (m ≫= k) g = k a g'.
Proof. intros H. unfold mbind, M_bind. by rewrite H. Qed.

Lemma bind_raise {A B} (m : M A) (k : A → M B) g e g' :
  m g = (Raise e, g') → (m ≫= k) g = (Raise e, g').
Proof. intros H. unfold mbind, M_bind. by rewrite H. Qed.

Lemma read_ok {A} (f : Kakuro → outcome A) g a :
  f g = Ok a → read f g = (Ok a, g).
Proof. intros H. unfold read. by rewrite H. Qed.

Lemma with_candidates_lookup i s g c :
  data g !! i = Some (Cell c) →
  data (with_candidates i s g) !! i = Some (Cell s).
Proof.
  intros H. unfold with_candidates. simpl.
  by rewrite list_lookup_alter, decide_True, H by done.
Qed.

Lemma with_candidates_lookup_ne i j s g :
  i ≠ j → data (with_candidates i s g) !! j = data g !! j.
Proof.
  intros H. unfold with_candidates. simpl. by rewrite list_lookup_alter_ne.
Qed.

Lemma with_candidates_same i c g :
  data g !! i = Some (Cell c) → with_candidates i c g = g.
Proof.
  intros H. destruct g as [w h d]. unfold with_candidates. simpl in *.
  f_equal. apply list_eq. intros j.
  rewrite list_lookup_alter. case_decide; [subst|done].
  by rewrite H.
Qed.

Lemma intersect_cell i s g c :
  data g !! i = Some (Cell c) →
  intersect i s g
  = (Ok (bool_decide (size c ≠ size (c ∩ s))), with_candidates i (c ∩ s) g).
Proof.
  intros H. unfold intersect.
  erewrite bind_ok; [|apply read_ok; unfold candidates_of; by rewrite H].
  erewrite bind_ok; [|reflexivity].
  erewrite bind_ok;
    [|apply read_ok; unfold candidates_of;
      by erewrite (with_candidates_lookup i (c ∩ s) g c) by done].
  reflexivity.
Qed.

Lemma substract_cell i s g c :
  data g !! i = Some (Cell c) →
  substract i s g
  = (Ok (bool_decide (size c ≠ size (c ∖ s))), with_candidates i (c ∖ s) g).
Proof.
  intros H. unfold substract.
  erewrite bind_ok; [|apply read_ok; unfold candidates_of; by rewrite H].
  erewrite bind_ok; [|reflexivity].
  erewrite bind_ok;
    [|apply read_ok; unfold candidates_of;
      by erewrite (with_candidates_lookup i (c ∖ s) g c) by done].
  reflexivity.
Qed.

(** Positions that hold Cells. *)
Definition cell_positions (g : Kakuro) (l : list nat) : Prop :=
  Forall (λ i, ∃ c, data g !! i = Some (Cell c)) l.

Lemma cell_positions_with_candidates i s g l :
  cell_positions g l → cell_positions (with_candidates i s g) l.
Proof.
  unfold cell_positions. intros Hl.
  eapply list.Forall_impl; [exact Hl|]. intros j [c Hc]. cbv beta.
  destruct (decide (i = j)) as [->|Hne].
  - exists s. by eapply with_candidates_lookup.
  - exists c. by rewrite with_candidates_lookup_ne.
Qed.

(** The store after every cell of [l] was intersected with [s]. *)
Definition intersect_all (s : gset Z) (l : list nat) (g : Kakuro) : Kakuro :=
  foldl (λ g i,
           match data g !! i with
           | Some (Cell c) => with_candidates i (c ∩ s) g
           | _ => g
           end) g l.

Lemma foldM_intersect s l g changed :
  cell_positions g l →
  ∃ changed',
    foldM (λ changed cell, b ← intersect cell s; mret (b || changed))
          changed l g
    = (Ok changed', intersect_all s l g).
Proof.
  revert g changed. induction l as [|i l IH]; intros g changed Hl.
  - by exists changed.
  - apply list.Forall_cons in Hl as [[c Hc] Hl]. simpl.
    erewrite bind_ok; [|erewrite bind_ok; [|by apply intersect_cell]; done].
    rewrite Hc. apply IH. by apply cell_positions_with_candidates.
Qed.

Lemma intersect_all_lookup s l g j :
  data (intersect_all s l g) !! j
  = if decide (j ∈ l)
    then match data g !! j with
         | Some (Cell c) => Some (Cell (c ∩ s))
         | o => o
         end
    else data g !! j.
Proof.
  revert g. induction l as [|i l IH]; intros g; simpl; [done|].
  rewrite IH. clear IH.
  destruct (decide (i = j)) as [->|Hne].
  - rewrite (decide_True (P := j ∈ j :: l)) by left.
    destruct (data g !! j) as [[c|v h]|] eqn:Hj.
    + erewrite with_candidates_lookup by done.
      case_decide; [|done]. do 2 f_equal. set_solver.
    + rewrite Hj. by case_decide.
    + rewrite Hj. by case_decide.
  - assert (Hsame : data (match data g !! i with
                          | Some (Cell c) => with_candidates i (c ∩ s) g
                          | _ => g
                          end) !! j = data g !! j).
    { destruct (data g !! i) as [[c|v h]|]; try done.
      by rewrite with_candidates_lookup_ne. }
    rewrite Hsame.
    destruct (decide (j ∈ l)).
    + by rewrite decide_True by by right.
    + rewrite decide_False; [done|]. rewrite elem_of_cons. naive_solver.
Qed.

Lemma cell_positions_intersect_all s l g l' :
  cell_positions g l' → cell_positions (intersect_all s l g) l'.
Proof.
  unfold cell_positions. intros Hl.
  eapply list.Forall_impl; [exact Hl|]. intros j [c Hc]. cbv beta.
  rewrite intersect_all_lookup, Hc. case_decide; eauto.
Qed.

Lemma elem_of_range_set a b x : x ∈ range_set a b ↔ a ≤ x < b.
Proof.
  unfold range_set. rewrite elem_of_list_to_set, elem_of_seqZ. lia.
Qed.

(** ** The range narrowing *)

Lemma constrain_cells_sum_violation n cells g :
  ¬ (triangular (Z.of_nat (length cells)) ≤ n
     ≤ triangular_prime (Z.of_nat (length cells))) →
  constrain_cells_sum n cells g = (Raise AssertionError, g).
Proof.
  intros Hpre. unfold constrain_cells_sum.
  erewrite bind_raise; [done|].
  unfold read, assert.
  case_bool_decide; case_bool_decide; simpl; try done. lia.
Qed.

(** The store the narrowing leaves when its precondition holds. *)
Definition constrained (n : Z) (cells : list nat) (g : Kakuro) : Kakuro :=
  let count := Z.of_nat (length cells) in
  intersect_all
    (range_set (cellset_min n count) (cellset_max n count + 1)) cells
    (match lookup_table !! (n, count) with
     | Some summands => intersect_all summands cells g
     | None => g
     end).

Lemma constrain_cells_sum_feasible n cells g :
  cell_positions g cells →
  triangular (Z.of_nat (length cells)) ≤ n
  ≤ triangular_prime (Z.of_nat (length cells)) →
  ∃ changed,
    constrain_cells_sum n cells g = (Ok changed, constrained n cells g).
Proof.
  intros Hcells Hpre. unfold constrain_cells_sum, constrained.
  erewrite bind_ok.
  2:{ apply read_ok. unfold assert.
      by rewrite !bool_decide_eq_true_2 by lia. }
  destruct (lookup_table !! (n, Z.of_nat (length cells))) as [summands|].
  - destruct (foldM_intersect summands cells g false Hcells) as [ch Hch].
    erewrite bind_ok by exact Hch.
    apply foldM_intersect. by apply cell_positions_intersect_all.
  - erewrite bind_ok by reflexivity.
    by apply foldM_intersect.
Qed.

(** The formula the specification gives for triangular': 9k - triangular k. *)
Definition triangular_prime_spec (k : Z) : Z := 9 * k - triangular k.

(** The admissible range as the specification words it. *)
Definition admissible_spec (n count x : Z) : Prop :=
  Z.max (n - triangular_prime_spec (count - 1)) 1 ≤ x
  ≤ Z.min (n - triangular (count - 1)) 9.

(** C1, as stated, fails: with target 15 over two unrestricted cells the
    narrowing keeps 6 (6 + 9 = 15), which lies outside the range computed
    with triangular'(k) = 9k - triangular(k). *)
Lemma range_narrowing_spec_formula_fails :
  ∃ changed g' c',
    constrain_cells_sum 15 [1%nat; 2%nat]
      (mkKakuro 3 1 [Clue 0 15; Cell (range_set 1 10); Cell (range_set 1 10)])
    = (Ok changed, g')
    ∧ data g' !! 1%nat = Some (Cell c')
    ∧ 6 ∈ c'
    ∧ ¬ admissible_spec 15 2 6.
Proof.
  exists true,
    (mkKakuro 3 1 [Clue 0 15; Cell (range_set 6 10); Cell (range_set 6 10)]),
    (range_set 6 10).
  split; [vm_compute; reflexivity|].
  split; [reflexivity|]. split.
  - apply elem_of_range_set. lia.
  - unfold admissible_spec. intros [Hlo _]. vm_compute in Hlo. by apply Hlo.
Qed.

(** C1 (amended). For a call with K > 1 cells whose precondition holds,
    every cell's candidate set is intersected with the table's set when the
    lookup succeeds, and in either case with the range from
    max(N - triangular'(K-1), 1) to min(N - triangular(K-1), 9), where
    triangular'(k) = 10k - triangular(k). *)
Theorem range_narrowing_intersects n cells g :
  cell_positions g cells →
  1 < Z.of_nat (length cells) →
  triangular (Z.of_nat (length cells)) ≤ n
  ≤ triangular_prime (Z.of_nat (length cells)) →
  ∃ changed g',
    constrain_cells_sum n cells g = (Ok changed, g')
    ∧ ∀ i c, i ∈ cells → data g !! i = Some (Cell c) →
        ∃ c', data g' !! i = Some (Cell c')
          ∧ ∀ x, x ∈ c' ↔
              (x ∈ c
               ∧ ∀ s, lookup_table !! (n, Z.of_nat (length cells)) = Some s
                      → x ∈ s)
              ∧ Z.max (n - (10 * (Z.of_nat (length cells) - 1)
                            - triangular (Z.of_nat (length cells) - 1))) 1
                ≤ x
                ≤ Z.min (n - triangular (Z.of_nat (length cells) - 1)) 9.
Proof.
  intros Hcells HK Hpre.
  destruct (constrain_cells_sum_feasible n cells g Hcells Hpre) as [ch Hch].
  exists ch, (constrained n cells g). split; [done|].
  intros i c Hi Hc. unfold constrained.
  set (K := Z.of_nat (length cells)) in *.
  rewrite intersect_all_lookup, decide_True by done.
  assert (Hrange : ∀ x,
    x ∈ range_set (cellset_min n K) (cellset_max n K + 1)
    ↔ Z.max (n - (10 * (K - 1) - triangular (K - 1))) 1 ≤ x
      ≤ Z.min (n - triangular (K - 1)) 9).
  { intros x. rewrite elem_of_range_set. unfold cellset_min, cellset_max.
    rewrite !bool_decide_eq_true_2 by done.
    unfold triangular_prime, triangular_prime_base. lia. }
  destruct (lookup_table !! (n, K)) as [summands|] eqn:Htbl.
  - rewrite intersect_all_lookup, decide_True, Hc by done.
    eexists. split; [done|]. intros x.
    rewrite elem_of_intersection, elem_of_intersection, Hrange.
    split.
    + intros [[Hx Hs] Hr]. split; [split; [done|]|done].
      by intros s [= <-].
    + intros [[Hx Hs] Hr]. split; [split; [done|]|done]. by apply Hs.
  - rewrite Hc. eexists. split; [done|]. intros x.
    rewrite elem_of_intersection, Hrange.
    split.
    + intros [Hx Hr]. by split; [split|].
    + intros [[Hx _] Hr]. by split.
Qed.

(** Target 17 over two unrestricted cells: both end as {8, 9}. *)
Lemma range_narrowing_intersects_witness :
  ∃ changed g',
    constrain_cells_sum 17 [1%nat; 2%nat]
      (mkKakuro 3 1 [Clue 0 17; Cell (range_set 1 10); Cell (range_set 1 10)])
    = (Ok changed, g')
    ∧ ∃ c', data g' !! 2%nat = Some (Cell c') ∧ (8 ∈ c' ∧ 7 ∉ c').
Proof.
  destruct (range_narrowing_intersects 17 [1%nat; 2%nat]
    (mkKakuro 3 1 [Clue 0 17; Cell (range_set 1 10); Cell (range_set 1 10)]))
    as (changed & g' & Hrun & Hcells).
  - repeat constructor; eexists; reflexivity.
  - simpl. lia.
  - vm_compute. split; discriminate.
  - exists changed, g'. split; [exact Hrun|].
    destruct (Hcells 2%nat (range_set 1 10)) as (c' & Hc' & Hmem).
    + apply list_elem_of_further, list_elem_of_here.
    + reflexivity.
    + exists c'. split; [exact Hc'|]. rewrite !Hmem. split.
      * split; [split|].
        -- apply elem_of_range_set. lia.
        -- intros s Hs.
           assert (Ht : lookup_table !! (17, Z.of_nat (length [1%nat; 2%nat]))
                        = Some (range_set 8 10)) by (vm_compute; reflexivity).
           rewrite Ht in Hs. injection Hs as <-.
           apply elem_of_range_set. lia.
        -- vm_compute. split; discriminate.
      * intros [_ Hr]. vm_compute in Hr. destruct Hr as [Hr _]. by apply Hr.
Defined.

(** ** Candidate sets only shrink *)

Definition entry_shrinks (e e' : entry) : Prop :=
  match e, e' with
  | Cell c, Cell c' => c' ⊆ c
  | Clue v h, Clue v' h' => v = v' ∧ h = h'
  | _, _ => False
  end.

(** [g'] has the dimensions and the entries of [g], each Cell holding a
    subset of its former candidates. *)
Definition shrinks (g g' : Kakuro) : Prop :=
  width g' = width g ∧ height g' = height g
  ∧ Forall2 entry_shrinks (data g) (data g').

Global Instance entry_shrinks_refl : Reflexive entry_shrinks.
Proof. intros [c|v h]; simpl; done. Qed.

Global Instance entry_shrinks_trans : Transitive entry_shrinks.
Proof.
  intros [c1|v1 h1] [c2|v2 h2] [c3|v3 h3]; simpl; try done.
  - set_solver.
  - naive_solver.
Qed.

Lemma entry_shrinks_antisym e e' :
  entry_shrinks e e' → entry_shrinks e' e → e = e'.
Proof.
  destruct e as [c|v h], e' as [c'|v' h']; simpl; try done.
  - intros ? ?. f_equal. set_solver.
  - by intros [-> ->] _.
Qed.

Global Instance shrinks_refl : Reflexive shrinks.
Proof.
  intros g. split; [done|]. split; [done|].
  induction (data g); constructor; [reflexivity|done].
Qed.

Global Instance shrinks_trans : Transitive shrinks.
Proof.
  intros g1 g2 g3 (Hw1 & Hh1 & H1) (Hw2 & Hh2 & H2).
  split; [congruence|]. split; [congruence|].
  by etrans.
Qed.

Lemma shrinks_antisym g g' : shrinks g g' → shrinks g' g → g = g'.
Proof.
  destruct g as [w h d], g' as [w' h' d']. unfold shrinks. simpl.
  intros (-> & -> & H1) (_ & _ & H2). f_equal.
  revert H2. induction H1 as [|e e' d d' He _ IH]; intros H2; [done|].
  inversion_clear H2 as [|? ? ? ? He' H2'].
  f_equal; [by apply entry_shrinks_antisym|by apply IH].
Qed.

Lemma shrinks_with_candidates i s g c :
  data g !! i = Some (Cell c) → s ⊆ c → shrinks g (with_candidates i s g).
Proof.
  intros Hi Hs. split; [done|]. split; [done|]. simpl.
  apply Forall2_same_length_lookup. split; [by rewrite length_alter|].
  intros j e e' He He'.
  rewrite list_lookup_alter in He'. case_decide as Hij.
  - subst j. rewrite Hi in He, He'. by simplify_eq/=.
  - by simplify_eq.
Qed.

(** [changed] records whether the store moved away from [g0]. *)
Definition tracks (g0 : Kakuro) (changed : bool) (g : Kakuro) : Prop :=
  shrinks g0 g ∧ (changed = true ↔ g ≠ g0).

Lemma tracks_refl g : tracks g false g.
Proof. split; [done|]. split; [done|]. by intros []. Qed.

Lemma tracks_compose g0 g g' ch b :
  tracks g0 ch g → tracks g b g' → tracks g0 (b || ch) g'.
Proof.
  intros [H0 Hch] [H1 Hb]. split; [by etrans|].
  destruct b; simpl.
  - split; [|done]. intros _ ->.
    assert (g = g0) as -> by by apply shrinks_antisym.
    by apply Hb.
  - destruct (decide (g' = g)) as [->|Hne]; [done|].
    by apply Hb in Hne.
Qed.

Lemma tracks_with_candidates i s g c :
  data g !! i = Some (Cell c) → s ⊆ c →
  tracks g (bool_decide (size c ≠ size s)) (with_candidates i s g).
Proof.
  intros Hi Hs. split; [by eapply shrinks_with_candidates|].
  rewrite bool_decide_eq_true. split.
  - intros Hsize Heq. apply Hsize.
    apply (f_equal (λ g, data g !! i)) in Heq.
    erewrite with_candidates_lookup in Heq by done.
    rewrite Hi in Heq. by simplify_eq.
  - intros Hne Hsize. apply Hne.
    assert (s = c) as ->.
    { apply set_subseteq_size_eq; [done|lia]. }
    by apply with_candidates_same.
Qed.

(** A postcondition [Q] for the normal outcome of [m] run from [g], and
    [E] for the store left by an exception. *)
Definition post {A} (m : M A) (g : Kakuro)
    (Q : A → Kakuro → Prop) (E : exn → Kakuro → Prop) : Prop :=
  match m g with
  | (Ok a, g') => Q a g'
  | (Raise e, g') => E e g'
  end.

Lemma post_ret {A} (a : A) g (Q : A → Kakuro → Prop) E :
  Q a g → post (mret a) g Q E.
Proof. done. Qed.

Lemma post_bind {A B} (m : M A) (k : A → M B) g Q E :
  post m g (λ a g', post (k a) g' Q E) E → post (m ≫= k) g Q E.
Proof.
  unfold post, mbind, M_bind. by destruct (m g) as [[a|e] g'].
Qed.

Lemma post_read {A} (f : Kakuro → outcome A) g (Q : A → Kakuro → Prop) E :
  (∀ a, f g = Ok a → Q a g) → (∀ e, f g = Raise e → E e g) →
  post (read f) g Q E.
Proof.
  intros HQ HE. unfold post, read.
  destruct (f g); [by apply HQ|by apply HE].
Qed.

Lemma post_mono {A} (m : M A) g (Q Q' : A → Kakuro → Prop)
    (E E' : exn → Kakuro → Prop) :
  post m g Q E → (∀ a g', Q a g' → Q' a g') → (∀ e g', E e g' → E' e g') →
  post m g Q' E'.
Proof.
  unfold post. destruct (m g) as [[a|e] g']; eauto.
Qed.

Lemma post_then {A} (m : M A) g (Q Q' : A → Kakuro → Prop) E :
  post m g Q E → (∀ a g', Q a g' → Q' a g') → post m g Q' E.
Proof. intros Hm HQ. eapply post_mono; [exact Hm|exact HQ|done]. Qed.

Lemma post_foldM {A S} (body : S → A → M S) (I : S → Kakuro → Prop) E l s g :
  (∀ s a g, I s g → post (body s a) g I E) →
  I s g → post (foldM body s l) g I E.
Proof.
  intros Hbody. revert s g. induction l as [|a l IH]; intros s g HI; simpl.
  - by apply post_ret.
  - apply post_bind. eapply post_then; [by apply Hbody|].
    intros s' g' HI'. by apply IH.
Qed.

(** A method that narrows: it moves the store down from where it starts
    and returns whether it moved. *)
Definition narrows (m : M bool) : Prop :=
  ∀ g, post m g (tracks g) (λ _, shrinks g).

(** A loop body that keeps [changed] up to date. *)
Definition carries (f : bool → M bool) : Prop :=
  ∀ g0 changed g, tracks g0 changed g →
    post (f changed) g (tracks g0) (λ _, shrinks g0).

Lemma narrows_carries (m : M bool) :
  narrows m → carries (λ changed, b ← m; mret (b || changed)).
Proof.
  intros Hm g0 ch g Hg. apply post_bind.
  eapply post_mono; [apply Hm| |].
  - intros b g' Hb. apply post_ret. by eapply tracks_compose.
  - intros e g' Hg'. etrans; [apply Hg|done].
Qed.

Lemma carries_foldM {A} (body : bool → A → M bool) l :
  (∀ a, carries (λ changed, body changed a)) →
  carries (λ changed, foldM body changed l).
Proof.
  intros Hbody g0 ch g Hg.
  apply (post_foldM body (tracks g0)); [|done].
  intros ch' a g' Hg'. by apply Hbody.
Qed.

Lemma narrows_substract cell s : narrows (substract cell s).
Proof.
  intros g. unfold post.
  destruct (data g !! cell) as [[c|v h]|] eqn:Hc.
  - erewrite substract_cell by done.
    apply tracks_with_candidates; [done|set_solver].
  - unfold substract. erewrite bind_raise; [done|].
    unfold read, candidates_of. by rewrite Hc.
  - unfold substract. erewrite bind_raise; [done|].
    unfold read, candidates_of. by rewrite Hc.
Qed.

Lemma narrows_intersect cell s : narrows (intersect cell s).
Proof.
  intros g. unfold post.
  destruct (data g !! cell) as [[c|v h]|] eqn:Hc.
  - erewrite intersect_cell by done.
    apply tracks_with_candidates; [done|set_solver].
  - unfold intersect. erewrite bind_raise; [done|].
    unfold read, candidates_of. by rewrite Hc.
  - unfold intersect. erewrite bind_raise; [done|].
    unfold read, candidates_of. by rewrite Hc.
Qed.

Lemma post_read_tracks {A} (f : Kakuro → outcome A) (k : A → M bool)
    g0 changed g :
  tracks g0 changed g →
  (∀ a, f g = Ok a → post (k a) g (tracks g0) (λ _, shrinks g0)) →
  post (read f ≫= k) g (tracks g0) (λ _, shrinks g0).
Proof.
  intros Hg Hk. apply post_bind, post_read; [done|]. intros _ _. apply Hg.
Qed.

Lemma carries_constrain_cells_sum n cells :
  carries (λ changed, b ← constrain_cells_sum n cells; mret (b || changed)).
Proof.
  apply narrows_carries. intros g. unfold constrain_cells_sum.
  eapply post_read_tracks; [apply tracks_refl|]. intros _ _.
  apply post_bind.
  eapply (post_then _ _ (tracks g)); [|].
  - destruct (lookup_table !! (n, Z.of_nat (length cells))) as [summands|].
    + apply (carries_foldM
               (λ changed cell,
                  b ← intersect cell summands; mret (b || changed))).
      * intros cell. apply narrows_carries, narrows_intersect.
      * apply tracks_refl.
    + apply post_ret, tracks_refl.
  - intros changed g' Hg'.
    apply (carries_foldM
             (λ changed cell,
                b ← intersect cell
                      (range_set
                         (cellset_min n (Z.of_nat (length cells)))
                         (cellset_max n (Z.of_nat (length cells)) + 1));
                mret (b || changed))); [|done].
    intros cell. apply narrows_carries, narrows_intersect.
Qed.

Lemma narrows_constrain_cells_sum n cells :
  narrows (constrain_cells_sum n cells).
Proof.
  intros g.
  pose proof (carries_constrain_cells_sum n cells g false g (tracks_refl g))
    as H.
  unfold post, mbind, M_bind in *.
  destruct (constrain_cells_sum n cells g) as [[b|e] g']; [|done].
  simpl in H. by rewrite orb_false_r in H.
Qed.

Section Narrowing.

Variable set_iter : gset Z → list Z.
Variable cell_set_iter : gset nat → list nat.

Lemma carries_uniques_direction n cells :
  carries (uniques_direction set_iter n cells).
Proof.
  intros g0 changed g Hg. unfold uniques_direction.
  case_bool_decide; [by apply post_ret|].
  eapply post_read_tracks; [done|]. intros [pending uniques] _.
  eapply post_read_tracks; [done|]. intros values _.
  eapply post_read_tracks; [done|]. intros _ _.
  apply post_bind.
  eapply post_then; [|].
  - apply (carries_foldM
             (λ changed p,
                b ← substract p (list_to_set values); mret (b || changed)));
      [|done].
    intros p. apply narrows_carries, narrows_substract.
  - intros changed' g' Hg'. simpl.
    case_bool_decide; [|by apply post_ret].
    by apply carries_constrain_cells_sum.
Qed.

Lemma narrows_discard_from_uniques :
  narrows (discard_from_uniques set_iter).
Proof.
  intros g. unfold discard_from_uniques.
  eapply post_read_tracks; [apply tracks_refl|]. intros cl _.
  apply (carries_foldM
           (λ changed item,
              '(row, column, (v, h)) ← read (λ _, item);
              vcells ← read (λ g, items_south_of g row column);
              hcells ← read (λ g, items_east_of g row column);
              changed ← uniques_direction set_iter v vcells changed;
              uniques_direction set_iter h hcells changed));
    [|apply tracks_refl].
  intros item g0 changed g' Hg'.
  eapply post_read_tracks; [done|]. intros [[row column] [v h]] _.
  eapply post_read_tracks; [done|]. intros vcells _.
  eapply post_read_tracks; [done|]. intros hcells _.
  apply post_bind.
  eapply post_then; [by apply carries_uniques_direction|].
  intros changed' g'' Hg''. by apply carries_uniques_direction.
Qed.

Lemma carries_single_clues_direction n strip :
  carries (single_clues_direction set_iter cell_set_iter n strip).
Proof.
  intros g0 changed g Hg. unfold single_clues_direction.
  case_bool_decide; [by apply post_ret|].
  eapply post_read_tracks; [done|]. intros [pending uniques] _.
  eapply post_read_tracks; [done|]. intros values _.
  eapply post_read_tracks; [done|]. intros _ _.
  case_bool_decide; [by apply post_ret|].
  set (body := λ (changed : bool) (cell : nat), _ : M bool).
  apply (carries_foldM body); [|done].
  intros cell g1 changed1 g2 Hg2. unfold body.
  eapply post_read_tracks; [done|]. intros c _.
  eapply post_read_tracks; [done|]. intros pools _.
  by apply (narrows_carries _ (narrows_substract _ _)).
Qed.

Lemma narrows_discard_from_single_clues :
  narrows (discard_from_single_clues set_iter cell_set_iter).
Proof.
  intros g. unfold discard_from_single_clues.
  eapply post_read_tracks; [apply tracks_refl|]. intros cl _.
  set (body := λ (changed : bool) (item : outcome (Z * Z * (Z * Z))),
         _ : M bool).
  apply (carries_foldM body); [|apply tracks_refl].
  intros item g0 changed g' Hg'. unfold body.
  eapply post_read_tracks; [done|]. intros [[row column] [v h]] _.
  eapply post_read_tracks; [done|]. intros south _.
  eapply post_read_tracks; [done|]. intros east _.
  eapply post_read_tracks; [done|]. intros vstrip _.
  eapply post_read_tracks; [done|]. intros hstrip _.
  apply post_bind.
  eapply post_then; [by apply carries_single_clues_direction|].
  intros changed' g'' Hg''. by apply carries_single_clues_direction.
Qed.

End Narrowing.

(** Some cell of [g] holds strictly fewer candidates in [g']. *)
Definition candidates_shrank (g g' : Kakuro) : Prop :=
  ∃ i c c',
    data g !! i = Some (Cell c) ∧ data g' !! i = Some (Cell c') ∧ c' ⊂ c.

(** What a narrowing operation run from [g] may produce: same dimensions,
    same clues, every cell a subset of what it was, and a returned flag
    that tells whether some candidate set strictly shrank. *)
Definition narrowed (g : Kakuro) (r : outcome bool * Kakuro) : Prop :=
  width r.2 = width g ∧ height r.2 = height g
  ∧ length (data r.2) = length (data g)
  ∧ (∀ i v h, data g !! i = Some (Clue v h) →
       data r.2 !! i = Some (Clue v h))
  ∧ (∀ i c, data g !! i = Some (Cell c) →
       ∃ c', data r.2 !! i = Some (Cell c') ∧ c' ⊆ c)
  ∧ (∀ b, r.1 = Ok b → (b = true ↔ candidates_shrank g r.2)).

Lemma Forall2_entry_shrinks_neq d d' :
  Forall2 entry_shrinks d d' → d ≠ d' →
  ∃ i c c', d !! i = Some (Cell c) ∧ d' !! i = Some (Cell c') ∧ c' ⊂ c.
Proof.
  induction 1 as [|e e' d d' He Hd IH]; intros Hne; [done|].
  destruct (decide (e = e')) as [->|Hee].
  - destruct IH as (i & c & c' & ? & ? & ?); [congruence|].
    by exists (S i), c, c'.
  - destruct e as [c|v h], e' as [c'|v' h']; simpl in He; try done.
    + exists 0%nat, c, c'. repeat split; [done|]. intros Hcc. apply Hee.
      f_equal. set_solver.
    + destruct He as [-> ->]. done.
Qed.

Lemma tracks_candidates_shrank g b g' :
  tracks g b g' → (b = true ↔ candidates_shrank g g').
Proof.
  intros [(Hw & Hh & Hd) Hb]. rewrite Hb. split.
  - intros Hne. apply Forall2_entry_shrinks_neq; [done|].
    intros Heq. apply Hne. destruct g, g'. simpl in *. congruence.
  - intros (i & c & c' & Hc & Hc' & Hsub) ->.
    rewrite Hc in Hc'. simplify_eq. set_solver.
Qed.

Lemma shrinks_lookup_clue g g' i v h :
  shrinks g g' → data g !! i = Some (Clue v h) →
  data g' !! i = Some (Clue v h).
Proof.
  intros (_ & _ & Hd) Hi.
  destruct (Forall2_lookup_l _ _ _ _ _ Hd Hi) as ([c'|v' h'] & Hi' & He);
    simpl in He; [done|].
  by destruct He as [-> ->].
Qed.

Lemma shrinks_lookup_cell g g' i c :
  shrinks g g' → data g !! i = Some (Cell c) →
  ∃ c', data g' !! i = Some (Cell c') ∧ c' ⊆ c.
Proof.
  intros (_ & _ & Hd) Hi.
  destruct (Forall2_lookup_l _ _ _ _ _ Hd Hi) as ([c'|v' h'] & Hi' & He);
    simpl in He; [|done].
  by exists c'.
Qed.

Lemma narrows_narrowed (m : M bool) g : narrows m → narrowed g (m g).
Proof.
  intros Hm. specialize (Hm g). unfold post in Hm.
  destruct (m g) as [[b|e] g'] eqn:Hrun; unfold narrowed; simpl.
  - destruct Hm as [Hs Hb].
    split; [apply Hs|]. split; [apply Hs|].
    split; [symmetry; eapply Forall2_length, Hs|].
    split; [intros; by eapply shrinks_lookup_clue|].
    split; [intros; by eapply shrinks_lookup_cell|].
    intros b' [= <-]. by apply tracks_candidates_shrank.
  - split; [apply Hm|]. split; [apply Hm|].
    split; [symmetry; eapply Forall2_length, Hm|].
    split; [intros; by eapply shrinks_lookup_clue|].
    split; [intros; by eapply shrinks_lookup_cell|].
    done.
Qed.

(** C10. Both propagation passes and the range narrowing only shrink
    candidate sets: after any of them every cell holds a subset of its
    former candidates, clues and dimensions are untouched, and the value
    returned is true exactly when some candidate set strictly shrank. *)
Theorem narrowing_only_shrinks set_iter cell_set_iter g :
  narrowed g (discard_from_uniques set_iter g)
  ∧ narrowed g (discard_from_single_clues set_iter cell_set_iter g)
  ∧ ∀ n cells, narrowed g (constrain_cells_sum n cells g).
Proof.
  split; [|split].
  - apply narrows_narrowed, narrows_discard_from_uniques.
  - apply narrows_narrowed, narrows_discard_from_single_clues.
  - intros n cells. apply narrows_narrowed, narrows_constrain_cells_sum.
Qed.

(** Pass A on a run of two open cells with target 6 returns true and has
    shrunk a candidate set. *)
Lemma narrowing_only_shrinks_witness :
  candidates_shrank
    (mkKakuro 3 1 [Clue 0 6; Cell (range_set 1 10); Cell (range_set 1 10)])
    (discard_from_uniques elements
       (mkKakuro 3 1
          [Clue 0 6; Cell (range_set 1 10); Cell (range_set 1 10)])).2.
Proof.
  destruct (narrowing_only_shrinks elements elements
    (mkKakuro 3 1 [Clue 0 6; Cell (range_set 1 10); Cell (range_set 1 10)]))
    as ((_ & _ & _ & _ & _ & Hflag) & _ & _).
  apply (Hflag true); [vm_compute|]; reflexivity.
Defined.

(** ** Reading a well-formed grid *)

(** The clues of the grid with their positions. *)
Definition clue_entries (g : Kakuro) : list (nat * Z * Z) :=
  omap (λ '(idx, item),
          match item with
          | Clue v h => Some (idx, v, h)
          | Cell _ => None
          end) (enumerate (data g)).

(** The positions of the cells of the grid. *)
Definition cell_entries (g : Kakuro) : list nat :=
  omap (λ '(idx, item),
          match item with
          | Cell _ => Some idx
          | Clue _ _ => None
          end) (enumerate (data g)).

Definition row_of (g : Kakuro) (idx : nat) : Z := Z.of_nat idx `div` width g.
Definition column_of (g : Kakuro) (idx : nat) : Z := Z.of_nat idx `mod` width g.

Lemma elem_of_enumerate_from {A} (l : list A) start i x :
  (i, x) ∈ enumerate_from start l
  ↔ (start ≤ i)%nat ∧ l !! (i - start)%nat = Some x.
Proof.
  revert start. induction l as [|y l IH]; intros start; simpl.
  - rewrite elem_of_nil. naive_solver.
  - rewrite elem_of_cons, IH. split.
    + intros [[= -> ->]|[Hle Hl]].
      * split; [lia|]. by rewrite Nat.sub_diag.
      * split; [lia|]. by replace (i - start)%nat with (S (i - S start)) by lia.
    + intros [Hle Hl]. destruct (decide (i = start)) as [->|Hne].
      * left. rewrite Nat.sub_diag in Hl. by simplify_eq/=.
      * right. split; [lia|].
        by replace (i - start)%nat with (S (i - S start)) in Hl by lia.
Qed.

Lemma elem_of_enumerate {A} (l : list A) i x :
  (i, x) ∈ enumerate l ↔ l !! i = Some x.
Proof.
  unfold enumerate. rewrite elem_of_enumerate_from, Nat.sub_0_r.
  split; [naive_solver|]. split; [lia|done].
Qed.

Lemma elem_of_clue_entries g idx v h :
  (idx, v, h) ∈ clue_entries g ↔ data g !! idx = Some (Clue v h).
Proof.
  unfold clue_entries. rewrite list_elem_of_omap. split.
  - intros ([i [c|v' h']] & Hin & Heq); simplify_eq.
    by apply elem_of_enumerate.
  - intros H. exists (idx, Clue v h). split; [|done].
    by apply elem_of_enumerate.
Qed.

Lemma elem_of_cell_entries g idx :
  idx ∈ cell_entries g ↔ ∃ c, data g !! idx = Some (Cell c).
Proof.
  unfold cell_entries. rewrite list_elem_of_omap. split.
  - intros ([i [c|v' h']] & Hin & Heq); simplify_eq.
    exists c. by apply elem_of_enumerate.
  - intros [c H]. exists (idx, Cell c). split; [|done].
    by apply elem_of_enumerate.
Qed.

Lemma well_formed_position g idx :
  well_formed g → (idx < length (data g))%nat →
  0 < width g
  ∧ 0 ≤ row_of g idx < height g
  ∧ 0 ≤ column_of g idx < width g
  ∧ Z.of_nat idx = row_of g idx * width g + column_of g idx.
Proof.
  intros (Hw & Hh & Hlen) Hidx. unfold row_of, column_of.
  assert (0 < width g).
  { destruct (decide (width g = 0)) as [H0|]; [|lia].
    rewrite H0 in Hlen. lia. }
  assert (Z.of_nat idx < width g * height g) by lia.
  split; [done|]. split; [|split].
  - split; [apply Z.div_pos; lia|].
    apply Z.div_lt_upper_bound; lia.
  - by apply Z.mod_pos_bound.
  - rewrite Z.mul_comm. apply Z.div_mod. lia.
Qed.

Lemma idx2row_well_formed g idx :
  well_formed g → (idx < length (data g))%nat →
  idx2row g (Z.of_nat idx) = Ok (row_of g idx).
Proof.
  intros Hwf Hidx.
  destruct (well_formed_position g idx Hwf Hidx) as (Hw & _).
  destruct Hwf as (_ & _ & Hlen). unfold idx2row, assert.
  rewrite (bool_decide_eq_true_2 (_ < _)) by lia. simpl.
  by rewrite bool_decide_eq_false_2 by lia.
Qed.

Lemma idx2col_well_formed g idx :
  well_formed g → (idx < length (data g))%nat →
  idx2col g (Z.of_nat idx) = Ok (column_of g idx).
Proof.
  intros Hwf Hidx.
  destruct (well_formed_position g idx Hwf Hidx) as (Hw & _).
  destruct Hwf as (_ & _ & Hlen). unfold idx2col, assert.
  rewrite (bool_decide_eq_true_2 (_ < _)) by lia. simpl.
  by rewrite bool_decide_eq_false_2 by lia.
Qed.

Lemma omap_enumerate_ext {A B} (f f' : nat * A → option B) (l : list A) :
  (∀ i x, l !! i = Some x → f (i, x) = f' (i, x)) →
  omap f (enumerate l) = omap f' (enumerate l).
Proof.
  intros Hext. apply list_omap_ext.
  apply Forall2_same_length_lookup. split; [done|].
  intros i [j x] [j' x'] H1 H2. simplify_eq.
  apply Hext. apply elem_of_enumerate. by eapply list_elem_of_lookup_2.
Qed.

(** On a well-formed grid no item of [clues] or [cells] fails. *)
Lemma clues_well_formed g :
  well_formed g →
  clues g = (λ '(idx, v, h), Ok (row_of g idx, column_of g idx, (v, h)))
              <$> clue_entries g.
Proof.
  intros Hwf. unfold clues, clue_entries. rewrite list_fmap_omap.
  apply omap_enumerate_ext. intros i [c|v h] Hi; simpl; [done|].
  apply lookup_lt_Some in Hi.
  by rewrite idx2row_well_formed, idx2col_well_formed.
Qed.

Lemma cells_well_formed g :
  well_formed g →
  cells g = (λ idx, Ok (row_of g idx, column_of g idx, idx))
              <$> cell_entries g.
Proof.
  intros Hwf. unfold cells, cell_entries. rewrite list_fmap_omap.
  apply omap_enumerate_ext. intros i [c|v h] Hi; simpl; [|done].
  apply lookup_lt_Some in Hi.
  by rewrite idx2row_well_formed, idx2col_well_formed.
Qed.

Lemma items_south_of_ok g idx :
  well_formed g → (idx < length (data g))%nat →
  ∃ south, items_south_of g (row_of g idx) (column_of g idx) = Ok south.
Proof.
  intros Hwf Hidx.
  destruct (well_formed_position g idx Hwf Hidx) as (Hw & Hr & Hc & _).
  unfold items_south_of, data_slice.
  rewrite in_grid_true by lia. simpl.
  rewrite bool_decide_eq_false_2 by lia. eauto.
Qed.

Lemma items_east_of_ok g idx :
  well_formed g → (idx < length (data g))%nat →
  ∃ east, items_east_of g (row_of g idx) (column_of g idx) = Ok east.
Proof.
  intros Hwf Hidx.
  destruct (well_formed_position g idx Hwf Hidx) as (Hw & Hr & Hc & _).
  unfold items_east_of, data_slice.
  rewrite in_grid_true by lia. simpl. eauto.
Qed.

Lemma cell_positions_contiguous g items : cell_positions g (contiguous g items).
Proof.
  unfold cell_positions, contiguous.
  induction items as [|i items IH]; simpl; [constructor|].
  destruct (data g !! i) as [[c|v h]|] eqn:Hi; simpl; try constructor; eauto.
Qed.

Lemma mapM_cons_ok {A B} (f : A → outcome B) x l y k :
  f x = Ok y → mapM f l = Ok k → mapM f (x :: l) = Ok (y :: k).
Proof.
  intros Hx Hl.
  change (mapM f (x :: l)) with (f x ≫= λ y, mapM f l ≫= λ k, mret (y :: k)).
  rewrite Hx. simpl. by rewrite Hl.
Qed.

Lemma mapM_ok {A B} (f : A → outcome B) (f' : A → B) l :
  Forall (λ x, f x = Ok (f' x)) l → mapM f l = Ok (f' <$> l).
Proof.
  induction 1 as [|x l Hx _ IH]; [done|]. by apply mapM_cons_ok.
Qed.

(** [Cell.is_unique] at a position, false where there is no Cell. *)
Definition unique_at (g : Kakuro) (i : nat) : bool :=
  match data g !! i with
  | Some (Cell c) => is_unique c
  | _ => false
  end.

Lemma filter_unique_flags g (strip : list nat) (b : bool) :
  fst <$> filter (λ ib, ib.2 = b) ((λ i, (i, unique_at g i)) <$> strip)
  = filter (λ i, unique_at g i = b) strip.
Proof.
  induction strip as [|i strip IH]; [done|].
  rewrite fmap_cons, !filter_cons. cbn [snd].
  case_decide; [rewrite fmap_cons; cbn [fst]|]; by rewrite IH.
Qed.

Lemma partition_unique_cells g strip :
  cell_positions g strip →
  partition_unique g strip
  = Ok (filter (λ i, unique_at g i = false) strip,
        filter (λ i, unique_at g i = true) strip).
Proof.
  intros Hstrip. unfold partition_unique.
  assert (Hflags :
    mapM (λ i, b ← cell_is_unique g i; Ok (i, b)) strip
    = Ok ((λ i, (i, unique_at g i)) <$> strip)).
  { apply mapM_ok. eapply list.Forall_impl; [exact Hstrip|].
    intros i [c Hc]. unfold cell_is_unique, candidates_of, unique_at.
    by rewrite Hc. }
  rewrite Hflags. simpl. by rewrite !filter_unique_flags.
Qed.

(** ** Runs

    The run of a clue, stated without slices: walk from a position in
    steps of [step] while the entries are Cells. *)
Fixpoint run_from (d : list entry) (pos step fuel : nat) : list nat :=
  match fuel with
  | O => []
  | S fuel' =>
      match d !! pos with
      | Some (Cell _) => pos :: run_from d (pos + step) step fuel'
      | _ => []
      end
  end.

(** The cells below the entry at [idx], down its column. *)
Definition south_run (g : Kakuro) (idx : nat) : list nat :=
  run_from (data g) (idx + Z.to_nat (width g)) (Z.to_nat (width g))
           (length (data g)).

(** The cells right of the entry at [idx], up to the end of its row. *)
Definition east_run (g : Kakuro) (idx : nat) : list nat :=
  run_from (take (Z.to_nat ((row_of g idx + 1) * width g)) (data g))
           (idx + 1) 1 (length (data g)).

(** The positions [start], [start + step], ... ([count] of them). *)
Fixpoint stride (start step count : nat) : list nat :=
  match count with
  | O => []
  | S count' => start :: stride (start + step) step count'
  end.

Lemma stride_fmap_seq start step count :
  stride start step count = (λ k, start + k * step)%nat <$> seq 0 count.
Proof.
  revert start. induction count as [|count IH]; intros start; [done|].
  simpl. rewrite IH. f_equal; [lia|].
  rewrite <- fmap_S_seq, <- list_fmap_compose.
  apply list_fmap_ext. intros _ k _. simpl. lia.
Qed.

Lemma slice_indices_stride (a step cnt : Z) :
  0 ≤ a → 0 < step →
  Z.to_nat <$> ((λ k, a + k * step) <$> seqZ 0 cnt)
  = stride (Z.to_nat a) (Z.to_nat step) (Z.to_nat cnt).
Proof.
  intros Ha Hstep. rewrite stride_fmap_seq. unfold seqZ.
  rewrite <- !list_fmap_compose. apply list_fmap_ext. intros _ k _. simpl.
  nia.
Qed.

Lemma takewhile_stride_run_from d bound a s n fuel :
  (0 < s)%nat → (n ≤ fuel)%nat →
  (n = 0%nat → (bound ≤ a)%nat) →
  ((0 < n)%nat → (a + (n - 1) * s < bound ≤ a + n * s)%nat) →
  takewhile (λ i, from_option is_Cell false (d !! i)) (stride a s n)
  = run_from (take bound d) a s fuel.
Proof.
  intros Hs. revert a fuel.
  induction n as [|n IH]; intros a fuel Hfuel Hzero Hpos.
  - simpl. destruct fuel as [|fuel]; [done|]. simpl.
    by rewrite lookup_take_ge by lia.
  - destruct fuel as [|fuel]; [lia|]. simpl.
    rewrite lookup_take_lt by nia.
    destruct (d !! a) as [[c|v h]|]; simpl; try done.
    f_equal. apply IH; [lia|nia|nia].
Qed.

(** A forward slice of the grid, cut at its leading Cells, is a run. *)
Lemma contiguous_forward_slice g start stop step bound :
  0 ≤ start → 0 < step →
  0 ≤ bound ≤ Z.of_nat (length (data g)) →
  match stop with
  | Some s => adjust_index (Z.of_nat (length (data g))) step s
  | None => Z.of_nat (length (data g))
  end = bound →
  contiguous g (Z.to_nat <$> slice_indices (Z.of_nat (length (data g)))
                               start stop step)
  = run_from (take (Z.to_nat bound) (data g)) (Z.to_nat start)
             (Z.to_nat step) (length (data g)).
Proof.
  intros Hstart Hstep Hbound Hstop.
  unfold slice_indices, contiguous.
  set (len := Z.of_nat (length (data g))) in *.
  assert (Hstop' :
    match stop with
    | Some s => adjust_index len step s
    | None => if step <? 0 then -1 else len
    end = bound).
  { destruct stop; [done|]. destruct (Z.ltb_spec step 0); [lia|done]. }
  rewrite Hstop'. clear Hstop Hstop'.
  destruct (decide (start < len)) as [Hlt|Hge].
  - rewrite (adjust_index_in_range len step start) by lia.
    rewrite slice_indices_stride by lia.
    apply takewhile_stride_run_from; [lia| | |].
    + unfold slice_length. case_cmp; try lia.
      assert ((bound - start - 1) / step ≤ bound - start - 1)
        by (apply Z.div_le_upper_bound; nia).
      lia.
    + unfold slice_length. case_cmp; try lia.
      assert (0 ≤ (bound - start - 1) / step) by (apply Z.div_pos; lia).
      lia.
    + unfold slice_length. case_cmp; try lia.
      set (q := (bound - start - 1) / step).
      assert (0 ≤ q) by (apply Z.div_pos; lia).
      assert (step * q ≤ bound - start - 1) by (apply Z.mul_div_le; lia).
      assert (bound - start - 1 < step * Z.succ q)
        by (apply Z.mul_succ_div_gt; lia).
      intros _.
      replace (Z.to_nat (q + 1) - 1)%nat with (Z.to_nat q) by lia.
      split.
      * apply Nat2Z.inj_lt. rewrite Nat2Z.inj_add, Nat2Z.inj_mul.
        rewrite !Z2Nat.id by lia. nia.
      * apply Nat2Z.inj_le. rewrite Nat2Z.inj_add, Nat2Z.inj_mul.
        rewrite !Z2Nat.id by lia. nia.
  - assert (Hlen : slice_length (adjust_index len step start) bound step = 0).
    { unfold slice_length, adjust_index. case_cmp; lia. }
    rewrite Hlen. simpl.
    destruct (length (data g)) as [|fuel] eqn:Hfuel; [done|]. simpl.
    by rewrite lookup_take_ge by lia.
Qed.

(** The digit of a resolved cell. *)
Definition the_value (c : gset Z) : Z := hd 0 (elements c).

Definition value_at (g : Kakuro) (i : nat) : Z :=
  match data g !! i with
  | Some (Cell c) => the_value c
  | _ => 0
  end.

Lemma is_unique_inv c : is_unique c = true → ∃ x, c = {[ x ]}.
Proof.
  unfold is_unique. rewrite bool_decide_eq_true. intros Hsize.
  apply size_1_elem_of in Hsize as [x Hx]. exists x. by apply leibniz_equiv.
Qed.

Lemma is_unique_singleton x : is_unique {[ x ]} = true.
Proof. unfold is_unique. by rewrite size_singleton, bool_decide_eq_true_2. Qed.

Lemma the_value_singleton x : the_value {[ x ]} = x.
Proof. unfold the_value. by rewrite elements_singleton. Qed.

Lemma sum_perm l l' : l ≡ₚ l' → sum l = sum l'.
Proof. induction 1; simpl; lia. Qed.

(** ** Pass A on one run *)

(** The pending cells of the run that starts the slice [cells], the digits
    already used in it and what remains of the target [n]. *)
Definition pending_at (g : Kakuro) (cells : list nat) : list nat :=
  filter (λ i, unique_at g i = false) (contiguous g cells).

Definition uniques_at (g : Kakuro) (cells : list nat) : list nat :=
  filter (λ i, unique_at g i = true) (contiguous g cells).

Definition used_at (g : Kakuro) (cells : list nat) : gset Z :=
  list_to_set (value_at g <$> uniques_at g cells).

Definition residual_at (g : Kakuro) (n : Z) (cells : list nat) : Z :=
  n - sum (elements (used_at g cells)).

Section Properties.

Variable set_iter : gset Z → list Z.
Hypothesis set_iter_perm : ∀ s, set_iter s ≡ₚ elements s.

Lemma unique_value_singleton x : unique_value set_iter {[ x ]} = Ok x.
Proof.
  unfold unique_value. rewrite is_unique_singleton. simpl.
  pose proof (set_iter_perm {[ x ]}) as Hperm.
  rewrite elements_singleton in Hperm.
  apply Permutation_singleton_r in Hperm. by rewrite Hperm.
Qed.

Lemma cell_unique_value_at g i :
  unique_at g i = true → cell_unique_value set_iter g i = Ok (value_at g i).
Proof.
  unfold unique_at, cell_unique_value, candidates_of, value_at.
  destruct (data g !! i) as [[c|v h]|]; try done.
  intros [x ->]%is_unique_inv. simpl.
  by rewrite unique_value_singleton, the_value_singleton.
Qed.

Lemma mapM_cell_unique_value g l :
  Forall (λ i, unique_at g i = true) l →
  mapM (cell_unique_value set_iter g) l = Ok (value_at g <$> l).
Proof.
  intros Hl. apply mapM_ok. eapply list.Forall_impl; [exact Hl|].
  intros i Hi. by apply cell_unique_value_at.
Qed.

Lemma uniques_at_unique g cells :
  Forall (λ i, unique_at g i = true) (uniques_at g cells).
Proof.
  apply list.Forall_forall. intros i Hi.
  by apply list_elem_of_filter in Hi as [Hi _].
Qed.

Lemma cell_positions_pending_at g cells : cell_positions g (pending_at g cells).
Proof.
  unfold cell_positions, pending_at. apply list.Forall_forall. intros i Hi.
  apply list_elem_of_filter in Hi as [_ Hi].
  pose proof (cell_positions_contiguous g cells) as Hc.
  unfold cell_positions in Hc. rewrite list.Forall_forall in Hc. by apply Hc.
Qed.

(** The subtraction loop of Pass A and the tail that follows it. *)
Definition substract_loop (s : gset Z) (pending : list nat) (changed : bool)
  : M bool :=
  foldM (λ changed p, b ← substract p s; mret (b || changed)) changed pending.

Definition uniques_tail (s : gset Z) (pending : list nat) (residual : Z)
    (changed : bool) : M bool :=
  changed ← substract_loop s pending changed;
  if bool_decide (residual ≠ 0)
  then b ← constrain_cells_sum residual pending; mret (b || changed)
  else mret changed.

Lemma uniques_direction_run n cells changed g :
  n ≠ 0 →
  size (used_at g cells) = length (uniques_at g cells) →
  uniques_direction set_iter n cells changed g
  = uniques_tail (used_at g cells) (pending_at g cells)
                 (residual_at g n cells) changed g.
Proof.
  intros Hn Hsize. unfold uniques_direction.
  case_bool_decide; [done|].
  erewrite bind_ok;
    [|apply read_ok, partition_unique_cells, cell_positions_contiguous].
  cbv beta iota. fold (pending_at g cells) (uniques_at g cells).
  erewrite bind_ok;
    [|apply read_ok, mapM_cell_unique_value, uniques_at_unique].
  fold (used_at g cells).
  erewrite bind_ok;
    [|apply read_ok; unfold assert; by rewrite bool_decide_eq_true_2].
  unfold uniques_tail, substract_loop, residual_at.
  by rewrite (sum_perm _ _ (set_iter_perm (used_at g cells))).
Qed.

Lemma uniques_direction_duplicates n cells changed g :
  n ≠ 0 →
  size (used_at g cells) ≠ length (uniques_at g cells) →
  uniques_direction set_iter n cells changed g = (Raise AssertionError, g).
Proof.
  intros Hn Hsize. unfold uniques_direction.
  case_bool_decide; [done|].
  erewrite bind_ok;
    [|apply read_ok, partition_unique_cells, cell_positions_contiguous].
  cbv beta iota. fold (pending_at g cells) (uniques_at g cells).
  erewrite bind_ok;
    [|apply read_ok, mapM_cell_unique_value, uniques_at_unique].
  fold (used_at g cells).
  erewrite bind_raise; [done|].
  unfold read, assert. by rewrite bool_decide_eq_false_2.
Qed.

(** Pass A on one run as the specification words it: with no pending cell
    the residual target must be 0, otherwise the narrowing is invoked. *)
Definition uniques_direction_spec (n : Z) (cells : list nat) (changed : bool)
  : M bool :=
  if bool_decide (n = 0) then mret changed
  else
    '(pending, uniques) ← read (λ g, partition_unique g (contiguous g cells));
    values ← read (λ g, mapM (cell_unique_value set_iter g) uniques);
    let substract_set : gset Z := list_to_set values in
    _ ← read (λ _, assert (bool_decide (size substract_set = length uniques)));
    changed ← foldM (λ changed p,
                       b ← substract p substract_set; mret (b || changed))
                    changed pending;
    let residual := n - sum (set_iter substract_set) in
    if bool_decide (length pending = 0%nat)
    then _ ← read (λ _, assert (bool_decide (residual = 0))); mret changed
    else b ← constrain_cells_sum residual pending; mret (b || changed).

Definition uniques_tail_spec (s : gset Z) (pending : list nat) (residual : Z)
    (changed : bool) : M bool :=
  changed ← substract_loop s pending changed;
  if bool_decide (length pending = 0%nat)
  then _ ← read (λ _, assert (bool_decide (residual = 0))); mret changed
  else b ← constrain_cells_sum residual pending; mret (b || changed).

Lemma uniques_direction_spec_run n cells changed g :
  n ≠ 0 →
  size (used_at g cells) = length (uniques_at g cells) →
  uniques_direction_spec n cells changed g
  = uniques_tail_spec (used_at g cells) (pending_at g cells)
                      (residual_at g n cells) changed g.
Proof.
  intros Hn Hsize. unfold uniques_direction_spec.
  case_bool_decide; [done|].
  erewrite bind_ok;
    [|apply read_ok, partition_unique_cells, cell_positions_contiguous].
  cbv beta iota. fold (pending_at g cells) (uniques_at g cells).
  erewrite bind_ok;
    [|apply read_ok, mapM_cell_unique_value, uniques_at_unique].
  fold (used_at g cells).
  erewrite bind_ok;
    [|apply read_ok; unfold assert; by rewrite bool_decide_eq_true_2].
  unfold uniques_tail_spec, substract_loop, residual_at.
  by rewrite (sum_perm _ _ (set_iter_perm (used_at g cells))).
Qed.

Lemma uniques_direction_spec_duplicates n cells changed g :
  n ≠ 0 →
  size (used_at g cells) ≠ length (uniques_at g cells) →
  uniques_direction_spec n cells changed g = (Raise AssertionError, g).
Proof.
  intros Hn Hsize. unfold uniques_direction_spec.
  case_bool_decide; [done|].
  erewrite bind_ok;
    [|apply read_ok, partition_unique_cells, cell_positions_contiguous].
  cbv beta iota. fold (pending_at g cells) (uniques_at g cells).
  erewrite bind_ok;
    [|apply read_ok, mapM_cell_unique_value, uniques_at_unique].
  fold (used_at g cells).
  erewrite bind_raise; [done|].
  unfold read, assert. by rewrite bool_decide_eq_false_2.
Qed.

Lemma constrain_cells_sum_nil n g :
  n ≠ 0 → constrain_cells_sum n [] g = (Raise AssertionError, g).
Proof.
  intros Hn. apply constrain_cells_sum_violation.
  change (triangular (Z.of_nat (length (@nil nat)))) with 0.
  change (triangular_prime (Z.of_nat (length (@nil nat)))) with 0.
  lia.
Qed.

Lemma constrain_cells_sum_nil_bind n (k : bool → M bool) g :
  n ≠ 0 → (constrain_cells_sum n [] ≫= k) g = (Raise AssertionError, g).
Proof.
  intros Hn. erewrite bind_raise; [done|]. by apply constrain_cells_sum_nil.
Qed.

Lemma uniques_tail_agree s pending residual changed g :
  ¬ (pending ≠ [] ∧ residual = 0) →
  uniques_tail s pending residual changed g
  = uniques_tail_spec s pending residual changed g.
Proof.
  intros Hcase. unfold uniques_tail, uniques_tail_spec.
  unfold mbind at 1 3, M_bind.
  destruct (substract_loop s pending changed g) as [[changed'|e] g']; [|done].
  destruct pending as [|p pending]; simpl.
  - case_bool_decide as Hres.
    + rewrite constrain_cells_sum_nil_bind by done.
      unfold mbind, M_bind, read, assert.
      by rewrite bool_decide_eq_false_2.
    + unfold mbind, M_bind, read, assert.
      rewrite bool_decide_eq_true_2; [done|].
      destruct (decide (residual = 0)); [done|]. by destruct Hres.
  - rewrite bool_decide_eq_true_2; [done|].
    intros ->. by apply Hcase.
Qed.

(** C6 (amended). In Pass A, for a run with nonzero target: the code acts
    as the specification says -- with no pending cell a nonzero residual
    target is a contradiction, with pending cells and a nonzero residual
    target the narrowing is invoked on the pending cells with the residual
    target -- in every case but the one of pending cells left with
    residual target 0. *)
Theorem pass_a_residual n cells changed g :
  (¬ (pending_at g cells ≠ [] ∧ residual_at g n cells = 0) →
   uniques_direction set_iter n cells changed g
   = uniques_direction_spec n cells changed g)
  ∧ (n ≠ 0 → pending_at g cells = [] → residual_at g n cells ≠ 0 →
     uniques_direction set_iter n cells changed g = (Raise AssertionError, g))
  ∧ (n ≠ 0 → pending_at g cells ≠ [] → residual_at g n cells ≠ 0 →
     size (used_at g cells) = length (uniques_at g cells) →
     uniques_direction set_iter n cells changed g
     = (changed ← substract_loop (used_at g cells) (pending_at g cells) changed;
        b ← constrain_cells_sum (residual_at g n cells) (pending_at g cells);
        mret (b || changed)) g).
Proof.
  split; [|split].
  - intros Hcase.
    destruct (decide (n = 0)) as [->|Hn].
    { unfold uniques_direction, uniques_direction_spec.
      by rewrite !bool_decide_eq_true_2 by done. }
    destruct (decide (size (used_at g cells) = length (uniques_at g cells)))
      as [Hsize|Hsize].
    + rewrite uniques_direction_run, uniques_direction_spec_run by done.
      by apply uniques_tail_agree.
    + by rewrite uniques_direction_duplicates,
         uniques_direction_spec_duplicates by done.
  - intros Hn Hpending Hres.
    destruct (decide (size (used_at g cells) = length (uniques_at g cells)))
      as [Hsize|Hsize]; [|by apply uniques_direction_duplicates].
    rewrite uniques_direction_run by done.
    unfold uniques_tail. rewrite Hpending.
    erewrite bind_ok by reflexivity.
    rewrite bool_decide_eq_true_2 by done.
    by apply constrain_cells_sum_nil_bind.
  - intros Hn Hpending Hres Hsize.
    rewrite uniques_direction_run by done.
    unfold uniques_tail, mbind at 1 3, M_bind.
    destruct (substract_loop _ _ _ g) as [[changed'|e] g']; [|done].
    by rewrite bool_decide_eq_true_2 by done.
Qed.

Lemma substract_loop_empty g l changed :
  cell_positions g l → substract_loop ∅ l changed g = (Ok changed, g).
Proof.
  unfold substract_loop. intros Hl. revert changed.
  induction Hl as [|i l [c Hc] _ IH]; intros changed; [done|].
  simpl. erewrite bind_ok; [apply IH|].
  erewrite bind_ok; [|by apply substract_cell].
  rewrite difference_empty_L, with_candidates_same by done.
  by rewrite bool_decide_eq_false_2 by (intros H; by apply H).
Qed.

(** A run none of whose cells is resolved, with an infeasible target. *)
Lemma uniques_direction_infeasible n cells changed g :
  n ≠ 0 →
  uniques_at g cells = [] →
  ¬ (triangular (Z.of_nat (length (pending_at g cells))) ≤ n
     ≤ triangular_prime (Z.of_nat (length (pending_at g cells)))) →
  uniques_direction set_iter n cells changed g = (Raise AssertionError, g).
Proof.
  intros Hn Huniques Hpre.
  assert (Hused : used_at g cells = ∅) by (unfold used_at; by rewrite Huniques).
  rewrite uniques_direction_run; [|done|by rewrite Hused, Huniques].
  unfold uniques_tail, residual_at. rewrite Hused, elements_empty. simpl.
  rewrite Z.sub_0_r.
  erewrite bind_ok;
    [|apply substract_loop_empty, cell_positions_pending_at].
  rewrite bool_decide_eq_true_2 by done.
  erewrite bind_raise; [done|]. by apply constrain_cells_sum_violation.
Qed.

Lemma foldM_singleton {A S} (body : S → A → M S) s a g :
  foldM body s [a] g = body s a g.
Proof.
  simpl. unfold mbind, M_bind. by destruct (body s a g) as [[s'|e] g'].
Qed.

Lemma discard_from_uniques_one_clue g row column v h south east :
  clues g = [Ok (row, column, (v, h))] →
  items_south_of g row column = Ok south →
  items_east_of g row column = Ok east →
  discard_from_uniques set_iter g
  = (changed ← uniques_direction set_iter v south false;
     uniques_direction set_iter h east changed) g.
Proof.
  intros Hclues Hsouth Heast. unfold discard_from_uniques.
  erewrite bind_ok; [|by apply read_ok]. rewrite Hclues.
  rewrite foldM_singleton.
  erewrite bind_ok; [|by apply read_ok]. cbv beta iota.
  erewrite bind_ok; [|by apply read_ok].
  erewrite bind_ok; [|by apply read_ok].
  reflexivity.
Qed.

Section Propagation.

Variable cell_set_iter : gset nat → list nat.

(** C5. The narrowing checks triangular(K) <= N <= triangular'(K) before
    it touches any cell: a violation raises AssertionError with the store
    as it was, and a call that satisfies it returns; a single run of two
    unresolved cells with target 1 makes Pass A, hence the propagation,
    raise it with no candidate removed. *)
Theorem feasibility_checked_first :
  (∀ n cells g,
     ¬ (triangular (Z.of_nat (length cells)) ≤ n
        ≤ triangular_prime (Z.of_nat (length cells))) →
     constrain_cells_sum n cells g = (Raise AssertionError, g))
  ∧ (∀ n cells g,
       cell_positions g cells →
       triangular (Z.of_nat (length cells)) ≤ n
       ≤ triangular_prime (Z.of_nat (length cells)) →
       ∃ changed g', constrain_cells_sum n cells g = (Ok changed, g'))
  ∧ (∀ c1 c2 fuel,
       size c1 ≠ 1%nat → size c2 ≠ 1%nat →
       let across := mkKakuro 3 1 [Clue 0 1; Cell c1; Cell c2] in
       let down := mkKakuro 1 3 [Clue 1 0; Cell c1; Cell c2] in
       discard_from_uniques set_iter across = (Raise AssertionError, across)
       ∧ solve_loop set_iter cell_set_iter (S fuel) across
         = (Raise AssertionError, across)
       ∧ discard_from_uniques set_iter down = (Raise AssertionError, down)
       ∧ solve_loop set_iter cell_set_iter (S fuel) down
         = (Raise AssertionError, down)).
Proof.
  split; [|split].
  - apply constrain_cells_sum_violation.
  - intros n cells g Hcells Hpre.
    destruct (constrain_cells_sum_feasible n cells g Hcells Hpre) as [ch Hch].
    eauto.
  - intros c1 c2 fuel H1 H2 across down.
    assert (Hu1 : is_unique c1 = false)
      by (unfold is_unique; by rewrite bool_decide_eq_false_2).
    assert (Hu2 : is_unique c2 = false)
      by (unfold is_unique; by rewrite bool_decide_eq_false_2).
    assert (Hacross : discard_from_uniques set_iter across
                      = (Raise AssertionError, across)).
    { rewrite (discard_from_uniques_one_clue across 0 0 0 1 []
                 [1%nat; 2%nat]) by reflexivity.
      erewrite bind_ok by reflexivity.
      apply uniques_direction_infeasible; [done| |].
      - unfold uniques_at, contiguous. simpl.
        rewrite !filter_cons. unfold unique_at. simpl.
        by rewrite Hu1, Hu2.
      - unfold pending_at, contiguous. simpl.
        rewrite !filter_cons. unfold unique_at. simpl.
        rewrite Hu1, Hu2. simpl. intros [Hlo _]. vm_compute in Hlo.
        by apply Hlo. }
    assert (Hdown : discard_from_uniques set_iter down
                    = (Raise AssertionError, down)).
    { rewrite (discard_from_uniques_one_clue down 0 0 1 0
                 [1%nat; 2%nat] []) by reflexivity.
      erewrite bind_raise; [done|].
      apply uniques_direction_infeasible; [done| |].
      - unfold uniques_at, contiguous. simpl.
        rewrite !filter_cons. unfold unique_at. simpl.
        by rewrite Hu1, Hu2.
      - unfold pending_at, contiguous. simpl.
        rewrite !filter_cons. unfold unique_at. simpl.
        rewrite Hu1, Hu2. simpl. intros [Hlo _]. vm_compute in Hlo.
        by apply Hlo. }
    repeat split; try done.
    + simpl. by erewrite bind_raise.
    + simpl. by erewrite bind_raise.
Qed.

End Propagation.

(** ** The solved-check *)

Lemma items_south_of_run g idx :
  well_formed g → (idx < length (data g))%nat →
  ∃ south,
    items_south_of g (row_of g idx) (column_of g idx) = Ok south
    ∧ contiguous g south = south_run g idx.
Proof.
  intros Hwf Hidx.
  destruct (well_formed_position g idx Hwf Hidx) as (Hw & Hr & Hc & Hpos).
  unfold items_south_of, data_slice.
  rewrite in_grid_true by lia. simpl.
  rewrite bool_decide_eq_false_2 by lia.
  eexists. split; [done|].
  rewrite (contiguous_forward_slice g _ None _ (Z.of_nat (length (data g))))
    by (done || lia).
  unfold south_run. rewrite Nat2Z.id, firstn_all. f_equal. lia.
Qed.

Lemma items_east_of_run g idx :
  well_formed g → (idx < length (data g))%nat →
  ∃ east,
    items_east_of g (row_of g idx) (column_of g idx) = Ok east
    ∧ contiguous g east = east_run g idx.
Proof.
  intros Hwf Hidx.
  destruct (well_formed_position g idx Hwf Hidx) as (Hw & Hr & Hc & Hpos).
  destruct Hwf as (_ & _ & Hlen).
  unfold items_east_of, data_slice.
  rewrite in_grid_true by lia. simpl.
  eexists. split; [done|].
  assert (Hrow : (row_of g idx + 1) * width g ≤ width g * height g) by nia.
  rewrite (contiguous_forward_slice g _ (Some _) _
             ((row_of g idx + 1) * width g)).
  - unfold east_run. f_equal. lia.
  - lia.
  - lia.
  - nia.
  - unfold adjust_index. case_cmp; lia.
Qed.

(** Every cell of the grid is resolved. *)
Definition all_resolved (g : Kakuro) : Prop :=
  ∀ i c, data g !! i = Some (Cell c) → size c = 1%nat.

Lemma all_cells_unique_spec g :
  all_cells_unique g = true ↔ all_resolved g.
Proof.
  unfold all_cells_unique, all_resolved. rewrite forallb_forall. split.
  - intros Hall i c Hi.
    assert (Hin : In (Cell c) (data g))
      by (apply list_elem_of_In; by eapply list_elem_of_lookup_2).
    apply Hall in Hin. unfold is_unique in Hin.
    by apply bool_decide_eq_true in Hin.
  - intros Hall [c|v h] Hin; [|done].
    apply list_elem_of_In, list_elem_of_lookup in Hin as [i Hi].
    unfold is_unique. apply bool_decide_eq_true. by eapply Hall.
Qed.

Lemma all_resolved_unique_at g l :
  all_resolved g → cell_positions g l →
  Forall (λ i, unique_at g i = true) l.
Proof.
  intros Hall Hl. eapply list.Forall_impl; [exact Hl|].
  intros i [c Hc]. unfold unique_at, is_unique. rewrite Hc.
  apply bool_decide_eq_true. by eapply Hall.
Qed.

Lemma neighbor_values_resolved g items :
  all_resolved g →
  neighbor_values set_iter g items = Ok (value_at g <$> contiguous g items).
Proof.
  intros Hall. unfold neighbor_values.
  apply mapM_cell_unique_value, all_resolved_unique_at; [done|].
  apply cell_positions_contiguous.
Qed.

(** The test [is_solved] applies to one clue, on the two runs. *)
Definition clue_check (g : Kakuro) (e : nat * Z * Z) : bool :=
  let '(idx, v, h) := e in
  let vneighbors := value_at g <$> south_run g idx in
  let hneighbors := value_at g <$> east_run g idx in
  negb (has_duplicates hneighbors || has_duplicates vneighbors)
  && negb (bool_decide (v ≠ sum vneighbors)
           || bool_decide (h ≠ sum hneighbors)).

Lemma is_solved_clues_eval g entries :
  well_formed g → all_resolved g →
  Forall (λ e, (e.1.1 < length (data g))%nat) entries →
  is_solved_clues set_iter g
    ((λ '(idx, v, h), Ok (row_of g idx, column_of g idx, (v, h))) <$> entries)
  = Ok (forallb (clue_check g) entries).
Proof.
  intros Hwf Hall Hentries.
  induction Hentries as [|[[idx v] h] entries Hidx _ IH]; [done|].
  simpl in Hidx. rewrite fmap_cons. cbn [is_solved_clues].
  destruct (items_south_of_run g idx Hwf Hidx) as (south & Hsouth & Hsrun).
  destruct (items_east_of_run g idx Hwf Hidx) as (east & Heast & Herun).
  cbn [mbind outcome_bind]. rewrite Hsouth. cbn [mbind outcome_bind].
  rewrite neighbor_values_resolved, Hsrun by done. cbn [mbind outcome_bind].
  rewrite Heast. cbn [mbind outcome_bind].
  rewrite neighbor_values_resolved, Herun by done. cbn [mbind outcome_bind].
  rewrite IH. cbn [forallb clue_check].
  destruct (has_duplicates (value_at g <$> east_run g idx)
            || has_duplicates (value_at g <$> south_run g idx)); [done|].
  by destruct (bool_decide (v ≠ sum (value_at g <$> south_run g idx))
               || bool_decide (h ≠ sum (value_at g <$> east_run g idx))).
Qed.

Lemma clue_entries_in_range g :
  Forall (λ e, (e.1.1 < length (data g))%nat) (clue_entries g).
Proof.
  apply list.Forall_forall. intros [[idx v] h] Hin.
  apply elem_of_clue_entries in Hin. simpl. by eapply lookup_lt_Some.
Qed.

Lemma is_solved_eval g :
  well_formed g →
  is_solved set_iter g
  = Ok (all_cells_unique g && forallb (clue_check g) (clue_entries g)).
Proof.
  intros Hwf. unfold is_solved.
  destruct (all_cells_unique g) eqn:Hall; [|done].
  rewrite clues_well_formed by done.
  apply is_solved_clues_eval; [done| |apply clue_entries_in_range].
  by apply all_cells_unique_spec.
Qed.

Lemma size_list_to_set_le (l : list Z) :
  (size (list_to_set l : gset Z) ≤ length l)%nat.
Proof.
  induction l as [|x l IH]; [by rewrite list_to_set_nil, size_empty|].
  rewrite list_to_set_cons. simpl.
  destruct (decide (x ∈ (list_to_set l : gset Z))) as [Hx|Hx].
  - rewrite (subseteq_union_1_L {[ x ]}) by set_solver. lia.
  - rewrite size_union by set_solver. rewrite size_singleton. lia.
Qed.

Lemma has_duplicates_false l : has_duplicates l = false ↔ NoDup l.
Proof.
  unfold has_duplicates. rewrite bool_decide_eq_false. split.
  - intros Hsize. assert (Heq : length l = size (list_to_set l : gset Z)).
    { destruct (decide (length l = size (list_to_set l : gset Z))); [done|].
      by destruct Hsize. }
    clear Hsize. induction l as [|x l IH]; [constructor|].
    rewrite list_to_set_cons in Heq. simpl in Heq.
    pose proof (size_list_to_set_le l) as Hle.
    destruct (decide (x ∈ (list_to_set l : gset Z))) as [Hx|Hx].
    + rewrite (subseteq_union_1_L {[ x ]}) in Heq by set_solver. lia.
    + rewrite size_union, size_singleton in Heq by set_solver.
      constructor; [by rewrite elem_of_list_to_set in Hx|].
      apply IH. lia.
  - intros Hnodup Hne. apply Hne. symmetry. by apply size_list_to_set.
Qed.

(** The run holds pairwise-distinct resolved values that sum to [target]. *)
Definition run_solved (g : Kakuro) (run : list nat) (target : Z) : Prop :=
  ∃ values,
    Forall2 (λ i x, data g !! i = Some (Cell {[ x ]})) run values
    ∧ NoDup values ∧ sum values = target.

Lemma resolved_values g run :
  all_resolved g → cell_positions g run →
  Forall2 (λ i x, data g !! i = Some (Cell {[ x ]})) run (value_at g <$> run).
Proof.
  intros Hall Hrun. apply Forall2_fmap_r, Forall_Forall2_diag.
  eapply list.Forall_impl; [exact Hrun|]. intros i [c Hc].
  pose proof (Hall i c Hc) as Hsize.
  apply size_1_elem_of in Hsize as [x Hx]. apply leibniz_equiv in Hx.
  subst c. unfold compose, value_at. cbv beta. rewrite Hc. cbv beta iota.
  by rewrite the_value_singleton.
Qed.

Lemma values_determined g run values :
  Forall2 (λ i x, data g !! i = Some (Cell {[ x ]})) run values →
  values = value_at g <$> run.
Proof.
  induction 1 as [|i x run values Hi _ IH]; [done|].
  rewrite fmap_cons. f_equal; [|done].
  unfold value_at. rewrite Hi. cbv beta iota.
  by rewrite the_value_singleton.
Qed.

Lemma run_check_spec g run target :
  all_resolved g → cell_positions g run →
  (has_duplicates (value_at g <$> run) = false
   ∧ target = sum (value_at g <$> run))
  ↔ run_solved g run target.
Proof.
  intros Hall Hrun. split.
  - intros [Hdup Hsum]. exists (value_at g <$> run).
    split; [by apply resolved_values|].
    split; [by apply has_duplicates_false|done].
  - intros (values & Hvalues & Hnodup & Hsum).
    apply values_determined in Hvalues. subst values.
    split; [by apply has_duplicates_false|done].
Qed.

Lemma cell_positions_south_run g idx :
  well_formed g → (idx < length (data g))%nat →
  cell_positions g (south_run g idx).
Proof.
  intros Hwf Hidx.
  destruct (items_south_of_run g idx Hwf Hidx) as (south & _ & <-).
  apply cell_positions_contiguous.
Qed.

Lemma cell_positions_east_run g idx :
  well_formed g → (idx < length (data g))%nat →
  cell_positions g (east_run g idx).
Proof.
  intros Hwf Hidx.
  destruct (items_east_of_run g idx Hwf Hidx) as (east & _ & <-).
  apply cell_positions_contiguous.
Qed.

Lemma clue_check_spec g idx v h :
  well_formed g → all_resolved g → (idx < length (data g))%nat →
  clue_check g (idx, v, h) = true
  ↔ run_solved g (south_run g idx) v ∧ run_solved g (east_run g idx) h.
Proof.
  intros Hwf Hall Hidx.
  rewrite <- !run_check_spec
    by (done || by apply cell_positions_south_run
             || by apply cell_positions_east_run).
  unfold clue_check.
  rewrite andb_true_iff, !negb_true_iff, !orb_false_iff.
  rewrite !bool_decide_eq_false.
  split.
  - intros [[Hh Hv] [Hvs Hhs]]. repeat split; try done.
    + destruct (decide (v = sum (value_at g <$> south_run g idx))); [done|].
      by destruct Hvs.
    + destruct (decide (h = sum (value_at g <$> east_run g idx))); [done|].
      by destruct Hhs.
  - intros [[Hv Hvs] [Hh Hhs]]. repeat split; try done.
    + intros Hne. by apply Hne.
    + intros Hne. by apply Hne.
Qed.

(** C3 (amended). On a grid whose dimensions fit its data the solved-check
    returns true exactly when every cell holds one candidate and, for
    every clue, the run south of it and the run east of it each hold
    pairwise-distinct values that sum to the target of that direction --
    a target of 0 included; it never fails. *)
Theorem solved_check_iff g :
  well_formed g →
  (is_solved set_iter g = Ok true
   ↔ all_resolved g
     ∧ ∀ i v h, data g !! i = Some (Clue v h) →
         run_solved g (south_run g i) v ∧ run_solved g (east_run g i) h)
  ∧ (is_solved set_iter g = Ok true ∨ is_solved set_iter g = Ok false).
Proof.
  intros Hwf. rewrite is_solved_eval by done. split.
  - split.
    + intros [= Hb]. apply andb_true_iff in Hb as [Hall Hclues].
      apply all_cells_unique_spec in Hall. split; [done|].
      intros i v h Hi. rewrite forallb_forall in Hclues.
      apply clue_check_spec; [done|done|by eapply lookup_lt_Some|].
      apply Hclues, list_elem_of_In. by apply elem_of_clue_entries.
    + intros [Hall Hclues]. f_equal. apply andb_true_iff.
      split; [by apply all_cells_unique_spec|].
      apply forallb_forall. intros [[idx v] h] Hin.
      apply list_elem_of_In, elem_of_clue_entries in Hin.
      apply clue_check_spec; [done|done|by eapply lookup_lt_Some|].
      by apply Hclues.
  - destruct (all_cells_unique g && forallb (clue_check g) (clue_entries g));
      auto.
Qed.

(** ** The search *)

Definition cands_at (g : Kakuro) (i : nat) : gset Z :=
  match data g !! i with
  | Some (Cell c) => c
  | _ => ∅
  end.

(** The cells [crack] works on and the combinations it tries, in order. *)
Definition crack_pending (g : Kakuro) : list nat :=
  filter (λ i, unique_at g i = false) (cell_entries g).

Definition crack_combinations (g : Kakuro) : list (list Z) :=
  product ((λ i, set_iter (cands_at g i)) <$> crack_pending g).

(** The store after the cells [pending_cells] were given, one by one, the
    digits of [combination]. *)
Definition assigned (combination : list Z) (pending_cells : list nat)
    (g : Kakuro) : Kakuro :=
  foldl (λ g xc, with_candidates xc.2 {[ xc.1 ]} g) g
        (zip combination pending_cells).

Lemma assign_run combination pending_cells g :
  assign combination pending_cells g
  = (Ok (), assigned combination pending_cells g).
Proof.
  unfold assign, assigned. generalize (zip combination pending_cells).
  intros l. revert g. induction l as [|xc l IH]; intros g; [done|].
  simpl. erewrite bind_ok by reflexivity. apply IH.
Qed.

Lemma with_candidates_commute i j s t g :
  i ≠ j →
  with_candidates i s (with_candidates j t g)
  = with_candidates j t (with_candidates i s g).
Proof.
  intros Hij. unfold with_candidates. simpl. f_equal.
  by apply list_alter_alter_ne.
Qed.

Lemma with_candidates_overwrite i s t g :
  with_candidates i s (with_candidates i t g) = with_candidates i s g.
Proof.
  unfold with_candidates. simpl. f_equal.
  rewrite list_alter_alter_eq. apply list_alter_ext; [|done].
  by intros [c|v h] _.
Qed.

Lemma assigned_nil_r combination g : assigned combination [] g = g.
Proof. unfold assigned. by destruct combination. Qed.

Lemma assigned_cons x combination p pending_cells g :
  assigned (x :: combination) (p :: pending_cells) g
  = assigned combination pending_cells (with_candidates p {[ x ]} g).
Proof. done. Qed.

Lemma with_candidates_assigned p s combination pending_cells g :
  p ∉ pending_cells →
  with_candidates p s (assigned combination pending_cells g)
  = assigned combination pending_cells (with_candidates p s g).
Proof.
  revert combination g.
  induction pending_cells as [|q pending_cells IH]; intros combination g Hp.
  - by rewrite !assigned_nil_r.
  - destruct combination as [|x combination]; [done|].
    rewrite !assigned_cons, IH by set_solver.
    rewrite with_candidates_commute; [done|set_solver].
Qed.

Lemma assigned_overwrite c1 c2 pending_cells g :
  NoDup pending_cells →
  length c1 = length pending_cells → length c2 = length pending_cells →
  assigned c2 pending_cells (assigned c1 pending_cells g)
  = assigned c2 pending_cells g.
Proof.
  intros Hnodup. revert c1 c2 g.
  induction Hnodup as [|p pending_cells Hp _ IH]; intros c1 c2 g H1 H2.
  - by rewrite !assigned_nil_r.
  - destruct c1 as [|x c1], c2 as [|y c2]; simplify_eq/=.
    rewrite !assigned_cons, with_candidates_assigned by done.
    rewrite with_candidates_overwrite. by apply IH.
Qed.

Lemma assigned_keeps_cell combination pending_cells g i c :
  data g !! i = Some (Cell c) →
  ∃ c', data (assigned combination pending_cells g) !! i = Some (Cell c').
Proof.
  revert combination g c.
  induction pending_cells as [|q pending_cells IH]; intros combination g c Hi.
  - rewrite assigned_nil_r. eauto.
  - destruct combination as [|z combination]; [eauto|].
    rewrite assigned_cons.
    destruct (decide (q = i)) as [->|Hne].
    + eapply IH, with_candidates_lookup, Hi.
    + eapply IH. by rewrite with_candidates_lookup_ne.
Qed.

Lemma assigned_lookup combination pending_cells g k i x c :
  NoDup pending_cells →
  pending_cells !! k = Some i → combination !! k = Some x →
  data g !! i = Some (Cell c) →
  data (assigned combination pending_cells g) !! i = Some (Cell {[ x ]}).
Proof.
  intros Hnodup. revert combination g k c.
  induction Hnodup as [|p pending_cells Hp _ IH];
    intros combination g k c Hk Hx Hi; [done|].
  destruct combination as [|y combination]; [done|].
  rewrite assigned_cons. destruct k as [|k]; simplify_eq/=.
  - rewrite <- with_candidates_assigned by done.
    destruct (assigned_keeps_cell combination pending_cells g i c Hi)
      as [c' Hc'].
    by eapply with_candidates_lookup.
  - assert (p ≠ i).
    { intros ->. apply Hp. by eapply list_elem_of_lookup_2. }
    eapply IH; [done..|]. by rewrite with_candidates_lookup_ne.
Qed.

Lemma well_formed_with_candidates i s g :
  well_formed g → well_formed (with_candidates i s g).
Proof.
  unfold well_formed, with_candidates. simpl. by rewrite length_alter.
Qed.

Lemma well_formed_assigned combination pending_cells g :
  well_formed g → well_formed (assigned combination pending_cells g).
Proof.
  unfold assigned. generalize (zip combination pending_cells).
  intros l. revert g. induction l as [|xc l IH]; intros g Hwf; [done|].
  simpl. by apply IH, well_formed_with_candidates.
Qed.

Lemma product_length {A} (pools : list (list A)) c :
  c ∈ product pools → length c = length pools.
Proof.
  revert c. induction pools as [|pool pools IH]; intros c; simpl.
  - by intros ->%list_elem_of_singleton.
  - rewrite list_elem_of_In, in_flat_map.
    intros (x & _ & Hc). apply in_map_iff in Hc as (c' & <- & Hc').
    simpl. f_equal. by apply IH, list_elem_of_In.
Qed.

Lemma NoDup_cell_entries g : NoDup (cell_entries g).
Proof.
  unfold cell_entries, enumerate. generalize 0%nat.
  induction (data g) as [|e d IH]; intros n; simpl; [constructor|].
  destruct e as [c|v h]; simpl; [|apply IH].
  constructor; [|apply IH].
  rewrite list_elem_of_omap. intros ([j [c'|v h]] & Hin & Heq); simplify_eq.
  apply elem_of_enumerate_from in Hin as [Hle _]. lia.
Qed.

Lemma NoDup_crack_pending g : NoDup (crack_pending g).
Proof. apply list.NoDup_filter, NoDup_cell_entries. Qed.

Lemma cell_positions_cell_entries g : cell_positions g (cell_entries g).
Proof.
  apply list.Forall_forall. intros i Hi. by apply elem_of_cell_entries.
Qed.

Lemma cell_positions_crack_pending g : cell_positions g (crack_pending g).
Proof.
  apply list.Forall_forall. intros i Hi.
  apply list_elem_of_filter in Hi as [_ Hi]. by apply elem_of_cell_entries.
Qed.

Lemma pending_of_cells g l :
  cell_positions g l →
  pending_of g ((λ idx, Ok (row_of g idx, column_of g idx, idx)) <$> l)
  = Ok (filter (λ i, unique_at g i = false) l).
Proof.
  induction 1 as [|i l [c Hc] _ IH]; [done|].
  rewrite fmap_cons. cbn [pending_of mbind outcome_bind].
  unfold cell_is_unique, candidates_of. rewrite Hc.
  cbn [mbind outcome_bind]. rewrite IH. cbn [mbind outcome_bind].
  assert (Hu : unique_at g i = is_unique c)
    by (unfold unique_at; by rewrite Hc).
  rewrite filter_cons.
  destruct (is_unique c).
  - by rewrite decide_False by (by rewrite Hu).
  - by rewrite decide_True by (by rewrite Hu).
Qed.

Lemma pending_of_eval g :
  well_formed g → pending_of g (cells g) = Ok (crack_pending g).
Proof.
  intros Hwf. rewrite cells_well_formed by done.
  apply pending_of_cells, cell_positions_cell_entries.
Qed.

Lemma cell_iter_eval g l :
  cell_positions g l →
  mapM (cell_iter set_iter g) l = Ok ((λ i, set_iter (cands_at g i)) <$> l).
Proof.
  intros Hl. apply mapM_ok. eapply list.Forall_impl; [exact Hl|].
  intros i [c Hc]. unfold cell_iter, candidates_of, cands_at. by rewrite Hc.
Qed.

(** The value of the solved-check, as a boolean. *)
Definition solved_b (g : Kakuro) : bool :=
  all_cells_unique g && forallb (clue_check g) (clue_entries g).

(** The body of the loop of [crack]. *)
Definition crack_body (pending_cells : list nat)
    (solutions : list (list Z)) (combination : list Z) : M (list (list Z)) :=
  _ ← assign combination pending_cells;
  solved ← read (is_solved set_iter);
  mret (if (solved : bool) then solutions ++ [combination] else solutions).

Lemma crack_loop g0 pending_cells combinations solutions g :
  well_formed g0 → NoDup pending_cells →
  Forall (λ c, length c = length pending_cells) combinations →
  (g = g0 ∨ ∃ c, length c = length pending_cells
                 ∧ g = assigned c pending_cells g0) →
  foldM (crack_body pending_cells) solutions combinations g
  = (Ok (solutions
         ++ filter (λ c, solved_b (assigned c pending_cells g0) = true)
                   combinations),
     from_option (λ c, assigned c pending_cells g0) g (list.last combinations)).
Proof.
  intros Hwf Hnodup Hlen. revert solutions g.
  induction Hlen as [|c combinations Hc _ IH]; intros solutions g Hg.
  - simpl. by rewrite app_nil_r.
  - assert (Hstep : assigned c pending_cells g = assigned c pending_cells g0).
    { destruct Hg as [->|(c' & Hc' & ->)]; [done|].
      by apply assigned_overwrite. }
    cbn [foldM]. erewrite bind_ok.
    2:{ unfold crack_body. erewrite bind_ok by apply assign_run.
        erewrite bind_ok; [done|]. apply read_ok. rewrite Hstep.
        apply is_solved_eval. by apply well_formed_assigned. }
    rewrite Hstep. fold (solved_b (assigned c pending_cells g0)).
    rewrite IH by eauto. f_equal.
    + f_equal. rewrite filter_cons.
      case_decide as Hs; [|apply not_true_is_false in Hs]; rewrite Hs.
      * by rewrite <- app_assoc.
      * done.
    + rewrite last_cons. by destruct (list.last combinations).
Qed.

Lemma crack_run g :
  well_formed g →
  crack set_iter g
  = match filter (λ c, solved_b (assigned c (crack_pending g) g) = true)
                 (crack_combinations g) with
    | [] => (Ok false,
             from_option (λ c, assigned c (crack_pending g) g) g
                         (list.last (crack_combinations g)))
    | first :: _ => (Ok true, assigned first (crack_pending g) g)
    end.
Proof.
  intros Hwf. unfold crack.
  erewrite bind_ok; [|by apply read_ok, pending_of_eval].
  erewrite bind_ok;
    [|apply read_ok, cell_iter_eval, cell_positions_crack_pending].
  fold (crack_combinations g).
  assert (Hlen : Forall (λ c, length c = length (crack_pending g))
                        (crack_combinations g)).
  { apply list.Forall_forall. intros c Hc.
    apply product_length in Hc. by rewrite length_fmap in Hc. }
  erewrite bind_ok.
  2:{ apply (crack_loop g (crack_pending g) (crack_combinations g) [] g);
        [done|apply NoDup_crack_pending|done|by left]. }
  rewrite app_nil_l.
  destruct (filter _ (crack_combinations g)) as [|first rest] eqn:Hsol;
    [done|].
  erewrite bind_ok by apply assign_run. f_equal.
  assert (Hfirst : first ∈ crack_combinations g).
  { assert (Hin : first ∈ first :: rest) by left.
    rewrite <- Hsol in Hin. by apply list_elem_of_filter in Hin as [_ ?]. }
  rewrite list.Forall_forall in Hlen.
  destruct (list.last (crack_combinations g)) as [c|] eqn:Hlast; simpl; [|done].
  apply assigned_overwrite; [apply NoDup_crack_pending| |by apply Hlen].
  apply Hlen. by eapply last_Some_elem_of.
Qed.

Lemma filter_none {A} (P : A → Prop) `{∀ x, Decision (P x)} (l : list A) :
  Forall (λ x, ¬ P x) l → filter P l = [].
Proof.
  induction 1 as [|x l Hx _ IH]; [done|].
  by rewrite filter_cons, decide_False.
Qed.

Lemma is_solved_true_iff g :
  well_formed g → is_solved set_iter g = Ok true ↔ solved_b g = true.
Proof.
  intros Hwf. rewrite is_solved_eval by done. fold (solved_b g).
  split; [by intros [= ->]|by intros ->].
Qed.

Lemma set_iter_nil s : set_iter s = [] ↔ s = ∅.
Proof.
  split.
  - intros Hnil. pose proof (set_iter_perm s) as Hperm.
    rewrite Hnil in Hperm. apply Permutation_nil_l in Hperm.
    symmetry in Hperm.
    by apply elements_empty_inv, leibniz_equiv in Hperm.
  - intros ->. pose proof (set_iter_perm ∅) as Hperm.
    rewrite elements_empty in Hperm. by apply Permutation_nil_r in Hperm.
Qed.

Lemma product_nil {A} (pools : list (list A)) :
  product pools = [] ↔ [] ∈ pools.
Proof.
  induction pools as [|pool pools IH]; simpl.
  - split; [done|]. by intros ?%elem_of_nil.
  - rewrite elem_of_cons. split.
    + intros Hnil. destruct pool as [|x pool]; [by left|]. right.
      apply IH. simpl in Hnil. apply app_eq_nil in Hnil as [Hnil _].
      by apply map_eq_nil in Hnil.
    + intros [<-|Hin]; [done|]. apply IH in Hin. rewrite Hin. simpl.
      by induction pool.
Qed.

(** C7. On a grid all of whose cells are unique the search has no pending
    cell and no candidate to try (the only combination is the empty one),
    leaves the grid as it is and returns what the solved-check returns. *)
Theorem crack_all_unique g :
  well_formed g → all_resolved g →
  pending_of g (cells g) = Ok []
  ∧ crack_combinations g = [[]]
  ∧ crack set_iter g = (is_solved set_iter g, g).
Proof.
  intros Hwf Hall. rewrite pending_of_eval by done.
  assert (Hpending : crack_pending g = []).
  { unfold crack_pending. apply filter_none, list.Forall_forall.
    intros i Hi Hfalse.
    pose proof (all_resolved_unique_at g _ Hall
                  (cell_positions_cell_entries g)) as Hunique.
    rewrite list.Forall_forall in Hunique. rewrite Hunique in Hfalse; done. }
  assert (Hcombos : crack_combinations g = [[]]).
  { unfold crack_combinations. by rewrite Hpending. }
  split; [by rewrite Hpending|]. split; [done|].
  rewrite crack_run, is_solved_eval by done.
  rewrite Hcombos, Hpending, filter_cons, assigned_nil_r.
  fold (solved_b g). case_decide as Hs.
  - rewrite Hs. by rewrite assigned_nil_r.
  - apply not_true_is_false in Hs. rewrite Hs. simpl.
    by rewrite assigned_nil_r.
Qed.

(** ** Pass B on one run *)

Section PassB.

Variable cell_set_iter : gset nat → list nat.
Hypothesis cell_set_iter_perm : ∀ s, cell_set_iter s ≡ₚ elements s.

(** What remains of the target [n] in Pass B: the resolved digits are
    summed as a tuple, not as a set. *)
Definition residual_b (g : Kakuro) (n : Z) (cells : list nat) : Z :=
  n - sum (value_at g <$> uniques_at g cells).

(** The loop of Pass B over the pending cells of one run. *)
Definition single_clues_loop (n : Z) (pending : gset nat) (changed : bool)
  : M bool :=
  foldM (λ changed cell,
           let neighbors := pending ∖ {[ cell ]} in
           c ← read (λ g, candidates_of g cell);
           pools ← read (λ g, mapM (cell_iter set_iter g)
                                   (cell_set_iter neighbors));
           b ← substract cell (unsupported n c pools);
           mret (b || changed))
        changed (cell_set_iter pending).

Lemma size_list_to_set_pos (l : list nat) :
  (0 < size (list_to_set l : gset nat))%nat ↔ l ≠ [].
Proof.
  destruct l as [|x l].
  - rewrite list_to_set_nil, size_empty. split; [lia|done].
  - split; [done|]. intros _.
    assert (Hx : size (list_to_set (x :: l) : gset nat) ≠ 0%nat); [|lia].
    rewrite size_non_empty_iff, list_to_set_cons. set_solver.
Qed.

Lemma single_clues_direction_run n cells changed g :
  n ≠ 0 →
  single_clues_direction set_iter cell_set_iter n (contiguous g cells)
    changed g
  = if bool_decide ((pending_at g cells ≠ [] ∧ 0 < residual_b g n cells)
                    ∨ (pending_at g cells = [] ∧ residual_b g n cells = 0))
    then if bool_decide (residual_b g n cells = 0) then (Ok changed, g)
         else single_clues_loop (residual_b g n cells)
                (list_to_set (pending_at g cells)) changed g
    else (Raise AssertionError, g).
Proof.
  intros Hn. unfold single_clues_direction.
  case_bool_decide; [done|].
  erewrite bind_ok;
    [|apply read_ok, partition_unique_cells, cell_positions_contiguous].
  cbv beta iota. fold (pending_at g cells) (uniques_at g cells).
  erewrite bind_ok;
    [|apply read_ok, mapM_cell_unique_value, uniques_at_unique].
  fold (residual_b g n cells).
  pose proof (size_list_to_set_pos (pending_at g cells)) as Hpos.
  destruct (decide ((pending_at g cells ≠ [] ∧ 0 < residual_b g n cells)
                    ∨ (pending_at g cells = [] ∧ residual_b g n cells = 0)))
    as [Hcond|Hcond].
  - rewrite (bool_decide_eq_true_2 (_ ∨ _)) by done.
    erewrite bind_ok.
    2:{ apply read_ok. unfold assert.
        destruct Hcond as [[Hp Hr]|[Hp Hr]].
        - rewrite (bool_decide_eq_true_2 (0 < size _)%nat) by by apply Hpos.
          by rewrite (bool_decide_eq_true_2 (0 < residual_b g n cells)).
        - rewrite (bool_decide_eq_false_2 (0 < size _)%nat)
            by (rewrite Hpos; intros Hne; by apply Hne).
          rewrite (bool_decide_eq_true_2 (size _ = 0%nat))
            by (rewrite Hp; apply size_empty).
          by rewrite (bool_decide_eq_true_2 (residual_b g n cells = 0)). }
    by case_bool_decide.
  - rewrite (bool_decide_eq_false_2 (_ ∨ _)) by done.
    erewrite bind_raise; [done|].
    unfold read, assert.
    destruct (decide (pending_at g cells = [])) as [Hp|Hp].
    + rewrite (bool_decide_eq_false_2 (0 < size _)%nat)
        by (rewrite Hpos; intros Hne; by apply Hne).
      rewrite (bool_decide_eq_false_2 (residual_b g n cells = 0)); [|tauto].
      by rewrite andb_false_r.
    + rewrite (bool_decide_eq_false_2 (0 < residual_b g n cells)); [|tauto].
      rewrite (bool_decide_eq_false_2 (size _ = 0%nat)); [by rewrite andb_false_r|].
      apply Hpos in Hp. lia.
Qed.

(** *** The whole pass: resolved cells are never touched *)

(** [g'] is [g] narrowed, with the cells resolved in [g] left as they are. *)
Definition keeps_resolved (g g' : Kakuro) : Prop :=
  shrinks g g' ∧ ∀ i, unique_at g i = true → data g' !! i = data g !! i.

Lemma keeps_resolved_refl g : keeps_resolved g g.
Proof. by split. Qed.

Lemma shrinks_is_Cell g g' i :
  shrinks g g' →
  from_option is_Cell false (data g' !! i)
  = from_option is_Cell false (data g !! i).
Proof.
  intros (_ & _ & Hd).
  destruct (data g !! i) as [e|] eqn:Hi.
  - destruct (Forall2_lookup_l _ _ _ _ _ Hd Hi) as (e' & -> & He).
    by destruct e, e'.
  - apply Forall2_length in Hd. apply lookup_ge_None in Hi.
    by rewrite (proj2 (lookup_ge_None _ _)) by lia.
Qed.

Lemma shrinks_contiguous g g' items :
  shrinks g g' → contiguous g' items = contiguous g items.
Proof.
  intros Hs. unfold contiguous.
  induction items as [|i items IH]; [done|]. simpl.
  by rewrite (shrinks_is_Cell g g' i Hs), IH.
Qed.

Lemma shrinks_items_south_of g g' row column :
  shrinks g g' → items_south_of g' row column = items_south_of g row column.
Proof.
  intros (Hw & Hh & Hd). apply Forall2_length in Hd.
  unfold items_south_of, in_grid, data_slice. by rewrite Hw, Hh, Hd.
Qed.

Lemma shrinks_items_east_of g g' row column :
  shrinks g g' → items_east_of g' row column = items_east_of g row column.
Proof.
  intros (Hw & Hh & Hd). apply Forall2_length in Hd.
  unfold items_east_of, in_grid, data_slice. by rewrite Hw, Hh, Hd.
Qed.

Lemma keeps_resolved_unique_at g g' i :
  keeps_resolved g g' → unique_at g i = true → unique_at g' i = true.
Proof.
  intros [_ Hk] Hi. unfold unique_at. rewrite (Hk i Hi). exact Hi.
Qed.

Lemma keeps_resolved_value_at g g' i :
  keeps_resolved g g' → unique_at g i = true → value_at g' i = value_at g i.
Proof. intros [_ Hk] Hi. unfold value_at. by rewrite (Hk i Hi). Qed.

Lemma keeps_resolved_with_candidates g g' cell c s :
  keeps_resolved g g' →
  data g' !! cell = Some (Cell c) → unique_at g cell = false → s ⊆ c →
  keeps_resolved g (with_candidates cell s g').
Proof.
  intros [Hs Hk] Hc Hpending Hsub. split.
  - etrans; [exact Hs|]. by eapply shrinks_with_candidates.
  - intros i Hi. destruct (decide (cell = i)) as [->|Hne]; [congruence|].
    rewrite with_candidates_lookup_ne by done. by apply Hk.
Qed.

Lemma elem_of_cell_set_iter (s : gset nat) i : i ∈ cell_set_iter s ↔ i ∈ s.
Proof. by rewrite (cell_set_iter_perm s), elem_of_elements. Qed.

Lemma single_clues_loop_keeps g n (pending : gset nat) changed g' :
  keeps_resolved g g' →
  (∀ i, i ∈ pending →
     unique_at g i = false ∧ ∃ c, data g !! i = Some (Cell c)) →
  post (single_clues_loop n pending changed) g'
       (λ _ g'', keeps_resolved g g'') (λ _ _, False).
Proof.
  intros Hg' Hpending. unfold single_clues_loop.
  assert (Hlist : ∀ i, i ∈ cell_set_iter pending → i ∈ pending)
    by (intros i; by rewrite elem_of_cell_set_iter).
  revert Hlist. generalize (cell_set_iter pending). intros l Hl.
  revert changed g' Hg'.
  induction l as [|cell l IH]; intros changed g' Hg'; [by apply post_ret|].
  cbn [foldM]. apply post_bind.
  destruct (Hpending cell) as [Hcell [c0 Hc0]]; [apply Hl; by left|].
  destruct (shrinks_lookup_cell g g' cell c0 (proj1 Hg') Hc0) as (c & Hc & _).
  apply post_bind, post_read;
    [|intros e; unfold candidates_of; by rewrite Hc].
  intros c1 Hc1. unfold candidates_of in Hc1. rewrite Hc in Hc1.
  injection Hc1 as <-.
  apply post_bind, post_read.
  2:{ intros e. rewrite cell_iter_eval; [done|].
      apply list.Forall_forall. intros i Hi.
      apply elem_of_cell_set_iter, elem_of_difference in Hi as [Hi _].
      destruct (Hpending i Hi) as [_ [ci Hci]].
      destruct (shrinks_lookup_cell g g' i ci (proj1 Hg') Hci)
        as (ci' & Hci' & _). eauto. }
  intros pools _. apply post_bind. unfold post.
  rewrite (substract_cell cell _ g' c Hc). cbn [mret M_ret].
  apply IH; [intros i Hi; apply Hl; by right|].
  eapply keeps_resolved_with_candidates; [done|done|done|set_solver].
Qed.

Lemma post_read_ok {A B} (f : Kakuro → outcome A) (k : A → M B) g a Q E :
  f g = Ok a → post (k a) g Q E → post (read f ≫= k) g Q E.
Proof.
  intros Hf Hk. unfold post. erewrite bind_ok by by apply read_ok. exact Hk.
Qed.

Lemma single_clues_direction_keeps g g' n items changed :
  keeps_resolved g g' →
  post (single_clues_direction set_iter cell_set_iter n
          (contiguous g items) changed) g'
       (λ _ g'', keeps_resolved g g'') (λ e _, e = AssertionError).
Proof.
  intros Hg'. destruct (decide (n = 0)) as [->|Hn].
  { unfold single_clues_direction. by apply post_ret. }
  rewrite <- (shrinks_contiguous g g' items) by apply Hg'.
  unfold post. rewrite single_clues_direction_run by done.
  case_bool_decide; [|done]. case_bool_decide; [done|].
  eapply (post_mono _ _ _ _ (λ _ _, False)).
  - apply (single_clues_loop_keeps g); [done|].
    intros i Hi. apply elem_of_list_to_set in Hi.
    apply list_elem_of_filter in Hi as [Hu Hi].
    pose proof (cell_positions_contiguous g' items) as Hcells.
    unfold cell_positions in Hcells. rewrite list.Forall_forall in Hcells.
    destruct (Hcells i Hi) as [c' Hc']. split.
    + destruct (unique_at g i) eqn:Hgi; [|done].
      by rewrite (keeps_resolved_unique_at g g' i Hg' Hgi) in Hu.
    + pose proof (shrinks_is_Cell g g' i (proj1 Hg')) as Hlayout.
      rewrite Hc' in Hlayout. simpl in Hlayout.
      destruct (data g !! i) as [[c|v h]|]; try done. eauto.
  - done.
  - by intros e g'' [].
Qed.

(** Every cell of the run is resolved. *)
Definition run_resolved (g : Kakuro) (run : list nat) : Prop :=
  Forall (λ i, unique_at g i = true) run.

Lemma filter_all {A} (P : A → Prop) `{∀ x, Decision (P x)} (l : list A) :
  Forall P l → filter P l = l.
Proof.
  induction 1 as [|x l Hx _ IH]; [done|].
  by rewrite filter_cons, decide_True, IH.
Qed.

Lemma single_clues_direction_violated g g' n items changed :
  keeps_resolved g g' → n ≠ 0 →
  run_resolved g (contiguous g items) →
  sum (value_at g <$> contiguous g items) ≠ n →
  single_clues_direction set_iter cell_set_iter n (contiguous g items)
    changed g'
  = (Raise AssertionError, g').
Proof.
  intros Hg' Hn Hrun Hsum.
  rewrite <- (shrinks_contiguous g g' items) by apply Hg'.
  rewrite single_clues_direction_run by done.
  assert (Hrun' : Forall (λ i, unique_at g' i = true) (contiguous g' items)).
  { rewrite (shrinks_contiguous g g' items) by apply Hg'.
    eapply list.Forall_impl; [exact Hrun|]. intros i Hi.
    by eapply keeps_resolved_unique_at. }
  assert (Hpending : pending_at g' items = []).
  { unfold pending_at. apply filter_none.
    eapply list.Forall_impl; [exact Hrun'|]. intros i Hi. by rewrite Hi. }
  assert (Hres : residual_b g' n items ≠ 0).
  { unfold residual_b, uniques_at. rewrite filter_all by done.
    rewrite (shrinks_contiguous g g' items) by apply Hg'.
    assert (Hvalues : value_at g' <$> contiguous g items
                      = value_at g <$> contiguous g items).
    { apply Forall_fmap_ext. eapply list.Forall_impl; [exact Hrun|].
      intros i Hi. by apply keeps_resolved_value_at. }
    rewrite Hvalues. lia. }
  rewrite bool_decide_eq_false_2; [done|].
  intros [[Hp _]|[_ Hr]]; [by apply Hp|by apply Hres].
Qed.

(** The body of the loop of [discard_from_single_clues]. *)
Definition single_clues_body (changed : bool)
    (item : outcome (Z * Z * (Z * Z))) : M bool :=
  '(row, column, (v, h)) ← read (λ _, item);
  south ← read (λ g, items_south_of g row column);
  east ← read (λ g, items_east_of g row column);
  vstrip ← read (λ g, Ok (contiguous g south));
  hstrip ← read (λ g, Ok (contiguous g east));
  changed ← single_clues_direction set_iter cell_set_iter v vstrip changed;
  single_clues_direction set_iter cell_set_iter h hstrip changed.

Lemma discard_from_single_clues_fold g :
  discard_from_single_clues set_iter cell_set_iter g
  = foldM single_clues_body false (clues g) g.
Proof. done. Qed.

Lemma single_clues_body_keeps g g' idx v h changed :
  well_formed g → (idx < length (data g))%nat →
  keeps_resolved g g' →
  post (single_clues_body changed
          (Ok (row_of g idx, column_of g idx, (v, h)))) g'
       (λ _ g'', keeps_resolved g g'') (λ e _, e = AssertionError).
Proof.
  intros Hwf Hidx Hg'.
  destruct (items_south_of_ok g idx Hwf Hidx) as [south Hsouth].
  destruct (items_east_of_ok g idx Hwf Hidx) as [east Heast].
  unfold single_clues_body.
  eapply post_read_ok; [done|]. cbv beta iota.
  eapply post_read_ok;
    [by rewrite (shrinks_items_south_of g g') by apply Hg'|].
  eapply post_read_ok;
    [by rewrite (shrinks_items_east_of g g') by apply Hg'|].
  eapply post_read_ok; [done|].
  eapply post_read_ok; [done|].
  rewrite !(shrinks_contiguous g g') by apply Hg'.
  apply post_bind. eapply post_then.
  - by apply single_clues_direction_keeps.
  - intros changed' g'' Hg''. by apply single_clues_direction_keeps.
Qed.

Lemma single_clues_body_violated g g' idx v h south east changed :
  well_formed g → (idx < length (data g))%nat →
  keeps_resolved g g' →
  items_south_of g (row_of g idx) (column_of g idx) = Ok south →
  items_east_of g (row_of g idx) (column_of g idx) = Ok east →
  (v ≠ 0 ∧ run_resolved g (contiguous g south)
   ∧ sum (value_at g <$> contiguous g south) ≠ v)
  ∨ (h ≠ 0 ∧ run_resolved g (contiguous g east)
     ∧ sum (value_at g <$> contiguous g east) ≠ h) →
  ∃ g'', single_clues_body changed
           (Ok (row_of g idx, column_of g idx, (v, h))) g'
         = (Raise AssertionError, g'').
Proof.
  intros Hwf Hidx Hg' Hsouth Heast Hbad.
  unfold single_clues_body.
  erewrite bind_ok; [|by apply read_ok]. cbv beta iota.
  erewrite bind_ok;
    [|apply read_ok; by rewrite (shrinks_items_south_of g g') by apply Hg'].
  erewrite bind_ok;
    [|apply read_ok; by rewrite (shrinks_items_east_of g g') by apply Hg'].
  erewrite bind_ok; [|by apply read_ok].
  erewrite bind_ok; [|by apply read_ok].
  rewrite !(shrinks_contiguous g g') by apply Hg'.
  destruct Hbad as [(Hv & Hrun & Hsum)|(Hh & Hrun & Hsum)].
  - exists g'. erewrite bind_raise; [done|].
    by apply single_clues_direction_violated.
  - pose proof (single_clues_direction_keeps g g' v south changed Hg') as Hv.
    unfold post in Hv. unfold mbind at 1, M_bind.
    destruct (single_clues_direction set_iter cell_set_iter v
                (contiguous g south) changed g') as [[changed'|e] g''].
    + exists g''. by apply single_clues_direction_violated.
    + exists g''. by rewrite Hv.
Qed.

Lemma foldM_raises {A S} (body : S → A → M S) (I : Kakuro → Prop)
    (l : list A) (a0 : A) s g :
  (∀ s a g, a ∈ l → I g →
     post (body s a) g (λ _ g', I g') (λ e _, e = AssertionError)) →
  a0 ∈ l →
  (∀ s g, I g → ∃ g', body s a0 g = (Raise AssertionError, g')) →
  I g →
  ∃ g', foldM body s l g = (Raise AssertionError, g').
Proof.
  intros Hbody Ha0 Hraise. revert s g.
  induction l as [|a l IH]; intros s g HI; [by apply elem_of_nil in Ha0|].
  cbn [foldM].
  apply elem_of_cons in Ha0 as [<-|Ha0].
  - destruct (Hraise s g HI) as [g' Hg']. exists g'. by erewrite bind_raise.
  - pose proof (Hbody s a g (list_elem_of_here _ _) HI) as Hstep.
    unfold post in Hstep. unfold mbind, M_bind.
    destruct (body s a g) as [[s'|e] g1].
    + apply IH; [|done|done].
      intros s0 a1 g0 Ha1. apply Hbody. by right.
    + exists g1. by rewrite Hstep.
Qed.

(** C9. Pass B asserts, for every run with a nonzero target, that pending
    cells remain and the residual target is positive, or that no pending
    cell remains and the residual target is 0: a run for which this fails
    raises AssertionError when it is processed, and a run for which it
    holds is processed without error.  Hence a pass over a grid that holds
    a fully resolved run whose digits do not sum to its nonzero target
    ends in AssertionError, not in a returned value. *)
Theorem pass_b_assertion :
  (∀ n cells changed g,
     n ≠ 0 →
     (¬ ((pending_at g cells ≠ [] ∧ 0 < residual_b g n cells)
         ∨ (pending_at g cells = [] ∧ residual_b g n cells = 0)) →
      single_clues_direction set_iter cell_set_iter n (contiguous g cells)
        changed g
      = (Raise AssertionError, g))
     ∧ ((pending_at g cells ≠ [] ∧ 0 < residual_b g n cells)
        ∨ (pending_at g cells = [] ∧ residual_b g n cells = 0) →
        ∃ changed' g',
          single_clues_direction set_iter cell_set_iter n
            (contiguous g cells) changed g
          = (Ok changed', g')))
  ∧ (∀ g idx v h,
       well_formed g →
       data g !! idx = Some (Clue v h) →
       (v ≠ 0 ∧ run_resolved g (south_run g idx)
        ∧ sum (value_at g <$> south_run g idx) ≠ v)
       ∨ (h ≠ 0 ∧ run_resolved g (east_run g idx)
          ∧ sum (value_at g <$> east_run g idx) ≠ h) →
       ∃ g', discard_from_single_clues set_iter cell_set_iter g
             = (Raise AssertionError, g')).
Proof.
  split.
  - intros n cells changed g Hn. rewrite single_clues_direction_run by done.
    split.
    + intros Hcond. by rewrite bool_decide_eq_false_2.
    + intros Hcond. rewrite bool_decide_eq_true_2 by done.
      case_bool_decide; [eauto|].
      pose proof (single_clues_loop_keeps g (residual_b g n cells)
                    (list_to_set (pending_at g cells)) changed g
                    (keeps_resolved_refl g)) as Hloop.
      unfold post in Hloop.
      destruct (single_clues_loop _ _ _ g) as [[changed'|e] g'];
        [eauto|].
      exfalso. apply Hloop. intros i Hi.
      apply elem_of_list_to_set, list_elem_of_filter in Hi as [Hu Hi].
      split; [done|].
      pose proof (cell_positions_contiguous g cells) as Hcells.
      unfold cell_positions in Hcells. rewrite list.Forall_forall in Hcells.
      by apply Hcells.
  - intros g idx v h Hwf Hclue Hbad.
    assert (Hidx : (idx < length (data g))%nat) by by eapply lookup_lt_Some.
    destruct (items_south_of_run g idx Hwf Hidx) as (south & Hsouth & Hsrun).
    destruct (items_east_of_run g idx Hwf Hidx) as (east & Heast & Herun).
    rewrite discard_from_single_clues_fold, clues_well_formed by done.
    apply (foldM_raises single_clues_body (keeps_resolved g) _
             (Ok (row_of g idx, column_of g idx, (v, h)))).
    + intros changed item g' Hitem Hg'.
      apply list_elem_of_fmap in Hitem as ([[idx' v'] h'] & -> & Hin).
      apply elem_of_clue_entries in Hin.
      apply single_clues_body_keeps; [done| |done].
      by eapply lookup_lt_Some.
    + apply list_elem_of_fmap. exists (idx, v, h). split; [done|].
      by apply elem_of_clue_entries.
    + intros changed g' Hg'.
      eapply single_clues_body_violated; [done..|].
      by rewrite Hsrun, Herun.
    + apply keeps_resolved_refl.
Qed.

End PassB.

End Properties.

(** ** The search and the order of each set object

    Python iterates a set in the order of its hash table, and that order
    belongs to the set object: two equal sets that were built differently
    may be iterated in different orders.  [crack] iterates the candidate
    set of each pending cell once, when [product] reads its pools.  Here
    that order is given cell by cell: [cell_order i s] lists the members of
    the set [s] held by the Cell at position [i].  The solved-check only
    iterates sets of one digit, for which there is one order. *)

Section SearchByCell.

Variable set_iter : gset Z → list Z.
Variable cell_order : nat → gset Z → list Z.

(** The candidates of the Cell at position [i], as its set is iterated. *)
Definition cell_iter_at (g : Kakuro) (i : nat) : outcome (list Z) :=
  c ← candidates_of g i; Ok (cell_order i c).

(** [crack]; the [print] of the number of solutions is left out. *)
Definition crack_at : M bool :=
  pending_cells ← read (λ g, pending_of g (cells g));
  candidates ← read (λ g, mapM (cell_iter_at g) pending_cells);
  let cartesian := product candidates in
  solutions ←
    foldM (λ solutions combination,
             _ ← assign combination pending_cells;
             solved ← read (is_solved set_iter);
             mret (if (solved : bool) then solutions ++ [combination]
                   else solutions))
          [] cartesian;
  match solutions with
  | [] => mret false
  | first :: _ => _ ← assign first pending_cells; mret true
  end.

(** The combinations [crack] tries, in order: the rightmost pending cell
    advances fastest, each cell through its candidates in the order of its
    own set. *)
Definition crack_at_combinations (g : Kakuro) : list (list Z) :=
  product ((λ i, cell_order i (cands_at g i)) <$> crack_pending g).

End SearchByCell.

(** With one order for all equal sets this is [crack] as above. *)
Lemma crack_at_by_value set_iter g :
  crack_at set_iter (λ _, set_iter) g = crack set_iter g.
Proof. reflexivity. Qed.

Section SearchByCellProperties.

Variable set_iter : gset Z → list Z.
Hypothesis set_iter_perm : ∀ s, set_iter s ≡ₚ elements s.
Variable cell_order : nat → gset Z → list Z.
Hypothesis cell_order_perm : ∀ i s, cell_order i s ≡ₚ elements s.

Lemma cell_iter_at_eval g l :
  cell_positions g l →
  mapM (cell_iter_at cell_order g) l
  = Ok ((λ i, cell_order i (cands_at g i)) <$> l).
Proof.
  intros Hl. apply mapM_ok. eapply list.Forall_impl; [exact Hl|].
  intros i [c Hc]. unfold cell_iter_at, candidates_of, cands_at.
  by rewrite Hc.
Qed.

Lemma crack_at_run g :
  well_formed g →
  crack_at set_iter cell_order g
  = match filter (λ c, solved_b (assigned c (crack_pending g) g) = true)
                 (crack_at_combinations cell_order g) with
    | [] => (Ok false,
             from_option (λ c, assigned c (crack_pending g) g) g
                         (list.last (crack_at_combinations cell_order g)))
    | first :: _ => (Ok true, assigned first (crack_pending g) g)
    end.
Proof.
  intros Hwf. unfold crack_at.
  erewrite bind_ok; [|by apply read_ok, pending_of_eval].
  erewrite bind_ok;
    [|apply read_ok, cell_iter_at_eval, cell_positions_crack_pending].
  fold (crack_at_combinations cell_order g).
  assert (Hlen : Forall (λ c, length c = length (crack_pending g))
                        (crack_at_combinations cell_order g)).
  { apply list.Forall_forall. intros c Hc.
    apply product_length in Hc. by rewrite length_fmap in Hc. }
  erewrite bind_ok.
  2:{ apply (crack_loop set_iter set_iter_perm g (crack_pending g)
               (crack_at_combinations cell_order g) [] g);
        [done|apply NoDup_crack_pending|done|by left]. }
  rewrite app_nil_l.
  destruct (filter _ (crack_at_combinations cell_order g))
    as [|first rest] eqn:Hsol; [done|].
  erewrite bind_ok by apply assign_run. f_equal.
  assert (Hfirst : first ∈ crack_at_combinations cell_order g).
  { assert (Hin : first ∈ first :: rest) by left.
    rewrite <- Hsol in Hin. by apply list_elem_of_filter in Hin as [_ ?]. }
  rewrite list.Forall_forall in Hlen.
  destruct (list.last (crack_at_combinations cell_order g)) as [c|] eqn:Hlast;
    simpl; [|done].
  apply (assigned_overwrite set_iter set_iter_perm);
    [apply NoDup_crack_pending| |by apply Hlen].
  apply Hlen. by eapply last_Some_elem_of.
Qed.

Lemma cell_order_nil i s : cell_order i s = [] ↔ s = ∅.
Proof.
  split.
  - intros Hnil. pose proof (cell_order_perm i s) as Hperm.
    rewrite Hnil in Hperm. apply Permutation_nil_l in Hperm.
    symmetry in Hperm.
    by apply elements_empty_inv, leibniz_equiv in Hperm.
  - intros ->. pose proof (cell_order_perm i ∅) as Hperm.
    rewrite elements_empty in Hperm. by apply Permutation_nil_r in Hperm.
Qed.

(** C4 (amended). [crack] on a grid whose dimensions fit its data, for
    whatever order each cell's set is iterated in: when no combination of
    the candidates of the non-unique cells satisfies the solved-check it
    returns false, leaving those cells with the last combination tried --
    or the grid as it was when there is no combination at all, which is
    when a cell has no candidate; when some combination satisfies the
    check it commits the first such one in enumeration order and returns
    true.  The enumeration is the product of the cells' candidates, each
    cell's in the order of its own set. *)
Theorem crack_outcome g :
  well_formed g →
  ((∀ c, c ∈ crack_at_combinations cell_order g →
      is_solved set_iter (assigned c (crack_pending g) g) ≠ Ok true) →
   crack_at set_iter cell_order g
   = (Ok false,
      from_option (λ c, assigned c (crack_pending g) g) g
                  (list.last (crack_at_combinations cell_order g))))
  ∧ (∀ l1 c l2,
       crack_at_combinations cell_order g = l1 ++ c :: l2 →
       is_solved set_iter (assigned c (crack_pending g) g) = Ok true →
       (∀ c', c' ∈ l1 →
          is_solved set_iter (assigned c' (crack_pending g) g) ≠ Ok true) →
       crack_at set_iter cell_order g
       = (Ok true, assigned c (crack_pending g) g))
  ∧ (∀ c k i, c ∈ crack_at_combinations cell_order g →
       crack_pending g !! k = Some i →
       ∃ x, c !! k = Some x ∧ x ∈ cands_at g i
            ∧ data (assigned c (crack_pending g) g) !! i = Some (Cell {[ x ]}))
  ∧ (crack_at_combinations cell_order g = []
     ↔ ∃ i, i ∈ crack_pending g ∧ cands_at g i = ∅)
  ∧ pending_of g (cells g) = Ok (crack_pending g)
  ∧ crack_at_combinations cell_order g
    = product ((λ i, cell_order i (cands_at g i)) <$> crack_pending g).
Proof.
  intros Hwf.
  assert (Hsat : ∀ c, is_solved set_iter (assigned c (crack_pending g) g)
                      = Ok true
                      ↔ solved_b (assigned c (crack_pending g) g) = true).
  { intros c. apply (is_solved_true_iff set_iter set_iter_perm).
    by apply well_formed_assigned. }
  split; [|split; [|split; [|split; [|split; [by apply pending_of_eval|done]]]]].
  - intros Hnone. rewrite crack_at_run by done.
    rewrite filter_none; [done|].
    apply list.Forall_forall. intros c Hc Htrue. by apply (Hnone c), Hsat.
  - intros l1 c l2 Hsplit Hc Hl1. rewrite crack_at_run by done.
    rewrite Hsplit, list.filter_app, filter_cons.
    rewrite (filter_none _ l1).
    + case_decide as Hs; [done|]. exfalso. by apply Hs, Hsat.
    + apply list.Forall_forall. intros c' Hc' Htrue.
      by apply (Hl1 c'), Hsat.
  - intros c k i Hc Hk.
    pose proof (product_length _ _ Hc) as Hlen. rewrite length_fmap in Hlen.
    destruct (lookup_lt_is_Some_2 c k) as [x Hx].
    { rewrite Hlen. by eapply lookup_lt_Some. }
    exists x. split; [done|].
    assert (Hi : i ∈ crack_pending g) by by eapply list_elem_of_lookup_2.
    pose proof (cell_positions_crack_pending g) as Hcells.
    unfold cell_positions in Hcells. rewrite list.Forall_forall in Hcells.
    destruct (Hcells i Hi) as [ci Hci].
    split.
    2:{ by eapply (assigned_lookup set_iter set_iter_perm);
          [apply NoDup_crack_pending|..]. }
    clear -Hc Hk Hx cell_order_perm. unfold crack_at_combinations in Hc.
    revert c k Hc Hk Hx.
    induction (crack_pending g) as [|p pending IH]; intros c k Hc Hk Hx;
      [done|].
    rewrite fmap_cons in Hc. simpl in Hc.
    apply list_elem_of_In, in_flat_map in Hc as (y & Hy & Hc).
    apply in_map_iff in Hc as (c' & <- & Hc').
    destruct k as [|k]; simplify_eq/=.
    + apply list_elem_of_In in Hy. rewrite (cell_order_perm _ _) in Hy.
      by apply elem_of_elements in Hy.
    + eapply IH; [by apply list_elem_of_In|done..].
  - unfold crack_at_combinations. rewrite product_nil, list_elem_of_fmap.
    split.
    + intros (i & Hnil & Hi). exists i. split; [done|].
      by apply (cell_order_nil i).
    + intros (i & Hi & Hempty). exists i. split; [|done].
      symmetry. by apply cell_order_nil.
Qed.

End SearchByCellProperties.

(** ** The statements at concrete grids

    Here the iteration order of a set is the one of [elements]. *)

Lemma elements_order_Z (s : gset Z) : elements s ≡ₚ elements s.
Proof. reflexivity. Defined.

Lemma elements_order_nat (s : gset nat) : elements s ≡ₚ elements s.
Proof. reflexivity. Defined.

(** The solved-check as the specification states it: only the directions
    with a nonzero target are looked at. *)
Definition solved_as_stated (g : Kakuro) : Prop :=
  all_resolved g
  ∧ ∀ i v h, data g !! i = Some (Clue v h) →
      (v ≠ 0 → run_solved g (south_run g i) v)
      ∧ (h ≠ 0 → run_solved g (east_run g i) h).

(** C3, as stated, fails: a resolved cell right of a clue whose horizontal
    target is 0 makes the check return false, although every run of a
    nonzero direction is fine. *)
Lemma solved_check_zero_target_fails :
  well_formed (mkKakuro 2 2 [Clue 0 5; Cell {[ 5 ]}; Clue 0 0; Cell {[ 3 ]}])
  ∧ solved_as_stated
      (mkKakuro 2 2 [Clue 0 5; Cell {[ 5 ]}; Clue 0 0; Cell {[ 3 ]}])
  ∧ is_solved elements
      (mkKakuro 2 2 [Clue 0 5; Cell {[ 5 ]}; Clue 0 0; Cell {[ 3 ]}])
    = Ok false.
Proof.
  split; [|split].
  - unfold well_formed. simpl. lia.
  - split.
    + intros [|[|[|[|i]]]] c Hi; cbn in Hi; try discriminate Hi;
        injection Hi as <-; apply size_singleton.
    + intros [|[|[|[|i]]]] v h Hi; cbn in Hi; try discriminate Hi;
        injection Hi as <- <-.
      * split; [done|]. intros _. exists [5].
        split; [|split; [|done]].
        -- change (east_run _ 0) with [1%nat]. by repeat constructor.
        -- apply NoDup_singleton.
      * done.
  - vm_compute. reflexivity.
Qed.

Lemma solved_check_iff_witness :
  is_solved elements (mkKakuro 2 1 [Clue 0 3; Cell {[ 3 ]}]) = Ok true
  ∧ all_resolved (mkKakuro 2 1 [Clue 0 3; Cell {[ 3 ]}]).
Proof.
  assert (Hwf : well_formed (mkKakuro 2 1 [Clue 0 3; Cell {[ 3 ]}])).
  { unfold well_formed. simpl. lia. }
  destruct (solved_check_iff elements elements_order_Z _ Hwf) as [Hiff _].
  assert (Hsolved : is_solved elements (mkKakuro 2 1 [Clue 0 3; Cell {[ 3 ]}])
                    = Ok true) by (vm_compute; reflexivity).
  split; [exact Hsolved|].
  apply Hiff in Hsolved. apply Hsolved.
Defined.

(** The members of a set of integers in ascending order: the order in
    which CPython iterates the sets of small integers of the grids
    below. *)
Fixpoint insert_ascending (x : Z) (l : list Z) : list Z :=
  match l with
  | [] => [x]
  | y :: l' => if x <=? y then x :: l else y :: insert_ascending x l'
  end.

Definition ascending (s : gset Z) : list Z :=
  foldr insert_ascending [] (elements s).

Lemma insert_ascending_perm x l : insert_ascending x l ≡ₚ x :: l.
Proof.
  induction l as [|y l IH]; [done|]. simpl.
  destruct (x <=? y); [done|]. rewrite IH. apply perm_swap.
Defined.

Lemma ascending_order (s : gset Z) : ascending s ≡ₚ elements s.
Proof.
  unfold ascending. induction (elements s) as [|x l IH]; [done|].
  simpl. rewrite insert_ascending_perm. by constructor.
Defined.

(** The order of the sets of the two cells that the loader builds from
    the tokens 91 and 19: the sets are equal, the first is iterated as
    9, 1 and the second as 1, 9. *)
Definition order_91_19 (i : nat) (s : gset Z) : list Z :=
  if decide (i = 1%nat) then reverse (ascending s) else ascending s.

Lemma order_91_19_perm i (s : gset Z) : order_91_19 i s ≡ₚ elements s.
Proof.
  unfold order_91_19. case_decide.
  - rewrite reverse_Permutation. apply ascending_order.
  - apply ascending_order.
Defined.

(** C4, as stated, fails: a cell without candidates gives no combination
    to try; [crack] returns false and the cell holds no digit at all. *)
Lemma crack_empty_candidates :
  well_formed (mkKakuro 1 1 [Cell ∅])
  ∧ crack_pending (mkKakuro 1 1 [Cell ∅]) = [0%nat]
  ∧ crack_at_combinations (λ _, ascending) (mkKakuro 1 1 [Cell ∅]) = []
  ∧ crack_at elements (λ _, ascending) (mkKakuro 1 1 [Cell ∅])
    = (Ok false, mkKakuro 1 1 [Cell ∅])
  ∧ ¬ ∃ x, data (mkKakuro 1 1 [Cell ∅]) !! 0%nat = Some (Cell {[ x ]}).
Proof.
  split; [unfold well_formed; simpl; lia|].
  split; [vm_compute; reflexivity|].
  split; [vm_compute; reflexivity|].
  split; [vm_compute; reflexivity|].
  intros [x Hx].
  change (Some (Cell ∅) = Some (Cell {[ x ]})) in Hx.
  apply (f_equal (λ o, match o with
                       | Some (Cell c) => c
                       | _ => ∅
                       end)) in Hx.
  cbv beta iota in Hx.
  assert (Hin : x ∈ (∅ : gset Z)) by (rewrite Hx; by apply elem_of_singleton).
  by apply not_elem_of_empty in Hin.
Qed.

(** Two cells with candidates 1, 2, iterated in this order: with target 3
    the combinations (1,1), (1,2), (2,1), (2,2) are tried and (1,2) is
    committed; with target 9 none passes and the cells are left with the
    last one, (2,2).  The two cells of the tokens 91 and 19 with target 7:
    the combinations (9,1), (9,9), (1,1), (1,9) are tried, none passes
    and the cells are left with 1 and 9. *)
Lemma crack_outcome_witness :
  crack_at elements (λ _, ascending)
    (mkKakuro 3 1 [Clue 0 3; Cell {[ 1; 2 ]}; Cell {[ 1; 2 ]}])
  = (Ok true, mkKakuro 3 1 [Clue 0 3; Cell {[ 1 ]}; Cell {[ 2 ]}])
  ∧ crack_at elements (λ _, ascending)
      (mkKakuro 3 1 [Clue 0 9; Cell {[ 1; 2 ]}; Cell {[ 1; 2 ]}])
    = (Ok false, mkKakuro 3 1 [Clue 0 9; Cell {[ 2 ]}; Cell {[ 2 ]}])
  ∧ crack_at_combinations order_91_19
      (mkKakuro 3 1 [Clue 0 7; Cell {[ 1; 9 ]}; Cell {[ 1; 9 ]}])
    = [[9; 1]; [9; 9]; [1; 1]; [1; 9]]
  ∧ crack_at elements order_91_19
      (mkKakuro 3 1 [Clue 0 7; Cell {[ 1; 9 ]}; Cell {[ 1; 9 ]}])
    = (Ok false, mkKakuro 3 1 [Clue 0 7; Cell {[ 1 ]}; Cell {[ 9 ]}]).
Proof.
  split; [|split; [|split]].
  - assert (Hwf : well_formed
              (mkKakuro 3 1 [Clue 0 3; Cell {[ 1; 2 ]}; Cell {[ 1; 2 ]}])).
    { unfold well_formed. simpl. lia. }
    destruct (crack_outcome elements elements_order_Z
                (λ _, ascending) (λ _, ascending_order) _ Hwf)
      as (_ & Hfirst & _).
    rewrite (Hfirst [[1; 1]] [1; 2] [[2; 1]; [2; 2]]).
    + vm_compute. reflexivity.
    + vm_compute. reflexivity.
    + vm_compute. reflexivity.
    + intros c' Hc'. apply list_elem_of_singleton in Hc'. subst c'.
      vm_compute. discriminate.
  - assert (Hwf : well_formed
              (mkKakuro 3 1 [Clue 0 9; Cell {[ 1; 2 ]}; Cell {[ 1; 2 ]}])).
    { unfold well_formed. simpl. lia. }
    destruct (crack_outcome elements elements_order_Z
                (λ _, ascending) (λ _, ascending_order) _ Hwf)
      as (Hnone & _).
    rewrite Hnone; [vm_compute; reflexivity|].
    intros c Hc.
    assert (Hcombos :
      crack_at_combinations (λ _, ascending)
        (mkKakuro 3 1 [Clue 0 9; Cell {[ 1; 2 ]}; Cell {[ 1; 2 ]}])
      = [[1; 1]; [1; 2]; [2; 1]; [2; 2]]) by (vm_compute; reflexivity).
    rewrite Hcombos in Hc.
    repeat (apply elem_of_cons in Hc as [->|Hc]; [vm_compute; discriminate|]).
    by apply elem_of_nil in Hc.
  - vm_compute. reflexivity.
  - assert (Hwf : well_formed
              (mkKakuro 3 1 [Clue 0 7; Cell {[ 1; 9 ]}; Cell {[ 1; 9 ]}])).
    { unfold well_formed. simpl. lia. }
    destruct (crack_outcome elements elements_order_Z
                order_91_19 order_91_19_perm _ Hwf)
      as (Hnone & _).
    rewrite Hnone; [vm_compute; reflexivity|].
    intros c Hc.
    assert (Hcombos :
      crack_at_combinations order_91_19
        (mkKakuro 3 1 [Clue 0 7; Cell {[ 1; 9 ]}; Cell {[ 1; 9 ]}])
      = [[9; 1]; [9; 9]; [1; 1]; [1; 9]]) by (vm_compute; reflexivity).
    rewrite Hcombos in Hc.
    repeat (apply elem_of_cons in Hc as [->|Hc]; [vm_compute; discriminate|]).
    by apply elem_of_nil in Hc.
Defined.

Lemma feasibility_checked_first_witness :
  constrain_cells_sum 1 [1%nat; 2%nat]
    (mkKakuro 3 1 [Clue 0 1; Cell (range_set 1 10); Cell (range_set 1 10)])
  = (Raise AssertionError,
     mkKakuro 3 1 [Clue 0 1; Cell (range_set 1 10); Cell (range_set 1 10)])
  ∧ discard_from_uniques elements
      (mkKakuro 3 1 [Clue 0 1; Cell (range_set 1 10); Cell (range_set 1 10)])
    = (Raise AssertionError,
       mkKakuro 3 1 [Clue 0 1; Cell (range_set 1 10); Cell (range_set 1 10)]).
Proof.
  destruct (feasibility_checked_first elements elements_order_Z elements)
    as (Hviolation & _ & Hscenario).
  split.
  - apply Hviolation. intros [Hlo _]. vm_compute in Hlo. by apply Hlo.
  - apply (Hscenario (range_set 1 10) (range_set 1 10) 0%nat);
      vm_compute; discriminate.
Defined.

(** C6, as stated, fails: with one cell pending and residual target 0 the
    narrowing is not invoked (it would raise); the run, and the pass,
    return false. *)
Lemma pass_a_zero_residual_skips :
  pending_at (mkKakuro 3 1 [Clue 0 3; Cell {[ 3 ]}; Cell {[ 1; 2 ]}])
             [1%nat; 2%nat] = [2%nat]
  ∧ residual_at (mkKakuro 3 1 [Clue 0 3; Cell {[ 3 ]}; Cell {[ 1; 2 ]}])
                3 [1%nat; 2%nat] = 0
  ∧ uniques_direction elements 3 [1%nat; 2%nat] false
      (mkKakuro 3 1 [Clue 0 3; Cell {[ 3 ]}; Cell {[ 1; 2 ]}])
    = (Ok false, mkKakuro 3 1 [Clue 0 3; Cell {[ 3 ]}; Cell {[ 1; 2 ]}])
  ∧ uniques_direction_spec elements 3 [1%nat; 2%nat] false
      (mkKakuro 3 1 [Clue 0 3; Cell {[ 3 ]}; Cell {[ 1; 2 ]}])
    = (Raise AssertionError,
       mkKakuro 3 1 [Clue 0 3; Cell {[ 3 ]}; Cell {[ 1; 2 ]}])
  ∧ discard_from_uniques elements
      (mkKakuro 3 1 [Clue 0 3; Cell {[ 3 ]}; Cell {[ 1; 2 ]}])
    = (Ok false, mkKakuro 3 1 [Clue 0 3; Cell {[ 3 ]}; Cell {[ 1; 2 ]}]).
Proof. repeat split; vm_compute; reflexivity. Qed.

Lemma pass_a_residual_witness :
  uniques_direction elements 6 [1%nat; 2%nat] false
    (mkKakuro 3 1 [Clue 0 6; Cell (range_set 1 10); Cell (range_set 1 10)])
  = uniques_direction_spec elements 6 [1%nat; 2%nat] false
      (mkKakuro 3 1 [Clue 0 6; Cell (range_set 1 10); Cell (range_set 1 10)])
  ∧ uniques_direction elements 5 [1%nat; 2%nat] false
      (mkKakuro 3 1 [Clue 0 5; Cell {[ 1 ]}; Cell {[ 2 ]}])
    = (Raise AssertionError,
       mkKakuro 3 1 [Clue 0 5; Cell {[ 1 ]}; Cell {[ 2 ]}]).
Proof.
  split.
  - destruct (pass_a_residual elements elements_order_Z 6 [1%nat; 2%nat] false
                (mkKakuro 3 1 [Clue 0 6; Cell (range_set 1 10);
                               Cell (range_set 1 10)]))
      as (Hagree & _ & _).
    apply Hagree. intros [_ Hres]. vm_compute in Hres. discriminate.
  - destruct (pass_a_residual elements elements_order_Z 5 [1%nat; 2%nat] false
                (mkKakuro 3 1 [Clue 0 5; Cell {[ 1 ]}; Cell {[ 2 ]}]))
      as (_ & Hcontradiction & _).
    apply Hcontradiction.
    + discriminate.
    + vm_compute. reflexivity.
    + vm_compute. discriminate.
Defined.

Lemma crack_all_unique_witness :
  crack elements (mkKakuro 2 1 [Clue 0 3; Cell {[ 3 ]}])
  = (is_solved elements (mkKakuro 2 1 [Clue 0 3; Cell {[ 3 ]}]),
     mkKakuro 2 1 [Clue 0 3; Cell {[ 3 ]}]).
Proof.
  apply (crack_all_unique elements elements_order_Z).
  - unfold well_formed. simpl. lia.
  - intros [|[|i]] c Hi; cbn in Hi; try discriminate Hi.
    injection Hi as <-. apply size_singleton.
Defined.

Lemma pass_b_assertion_witness :
  single_clues_direction elements elements 3
    (contiguous (mkKakuro 3 1 [Clue 0 3; Cell {[ 4 ]}; Cell (range_set 1 10)])
                [1%nat; 2%nat])
    false
    (mkKakuro 3 1 [Clue 0 3; Cell {[ 4 ]}; Cell (range_set 1 10)])
  = (Raise AssertionError,
     mkKakuro 3 1 [Clue 0 3; Cell {[ 4 ]}; Cell (range_set 1 10)])
  ∧ ∃ g', discard_from_single_clues elements elements
            (mkKakuro 3 1 [Clue 0 5; Cell {[ 1 ]}; Cell {[ 2 ]}])
          = (Raise AssertionError, g').
Proof.
  destruct (pass_b_assertion elements elements_order_Z
              elements elements_order_nat) as [Hrun Hpass].
  split.
  - apply (Hrun 3 [1%nat; 2%nat] false); [discriminate|].
    intros [[_ Hres]|[Hpending _]].
    + vm_compute in Hres. discriminate.
    + vm_compute in Hpending. discriminate.
  - apply (Hpass _ 0%nat 0 5).
    + unfold well_formed. simpl. lia.
    + reflexivity.
    + right. split; [discriminate|].
      change (east_run _ 0) with [1%nat; 2%nat]. split.
      * by repeat constructor.
      * vm_compute. discriminate.
Defined.

(** * Further properties of the program *)

(** ** The two arithmetic helpers *)

Lemma sum_snoc l x : sum (l ++ [x]) = sum l + x.
Proof. induction l as [|y l IH]; simpl; lia. Qed.

Lemma seqZ_snoc (m : Z) (k : nat) :
  seqZ m (Z.of_nat (S k)) = seqZ m (Z.of_nat k) ++ [m + Z.of_nat k].
Proof.
  replace (Z.of_nat (S k)) with (Z.of_nat k + 1) by lia.
  rewrite seqZ_app by lia. f_equal.
Qed.

Lemma twice_sum_seqZ (k : nat) :
  2 * sum (seqZ 1 (Z.of_nat k)) = Z.of_nat k * (Z.of_nat k + 1).
Proof.
  induction k as [|k IH]; [done|].
  rewrite seqZ_snoc, sum_snoc, Nat2Z.inj_succ. nia.
Qed.

Lemma sum_complement (base : Z) (l : list Z) :
  sum ((λ i, base - i) <$> l) = Z.of_nat (length l) * base - sum l.
Proof.
  induction l as [|x l IH]; [done|].
  rewrite fmap_cons. cbn [sum foldr length]. fold (sum ((λ i, base - i) <$> l)).
  fold (sum l). rewrite IH, Nat2Z.inj_succ. lia.
Qed.

Lemma triangular_sum_nat (k : nat) :
  triangular (Z.of_nat k) = sum (seqZ 1 (Z.of_nat k)).
Proof.
  unfold triangular. rewrite <- twice_sum_seqZ, Z.mul_comm.
  by rewrite Z.div_mul.
Qed.

Lemma triangular_is_sum_of n : 0 ≤ n → triangular n = sum (seqZ 1 n).
Proof.
  intros Hn. rewrite <- (Z2Nat.id n) by done. apply triangular_sum_nat.
Qed.

(** X1. The source returns the float n*(n+1)/2.  Every integer up to 2^53
    is a float, so as long as the quotient does not exceed 2^53 -- for n
    below 2^27 -- the float returned is this integer, and it is
    1 + 2 + ... + n, as the docstring says.  (From n = 2^27 + 1 on the
    float is rounded and is no longer the sum.) *)
Theorem triangular_is_sum n :
  0 ≤ n → triangular n ≤ 2 ^ 53 → triangular n = sum (seqZ 1 n).
Proof. intros Hn _. by apply triangular_is_sum_of. Qed.

Lemma triangular_is_sum_witness : triangular 4 = 1 + (2 + (3 + (4 + 0))).
Proof. apply (triangular_is_sum 4); [lia|]. vm_compute. discriminate. Defined.

(** X2. The source subtracts the float of [triangular] from n*10.  As long
    as [triangular n] does not exceed 2^53 -- for n below 2^27 -- both
    operands and the difference are integers that are floats, nothing is
    rounded, and [triangular_prime n] is (10-1) + (10-2) + ... + (10-n):
    for n up to 9 the sum of the n largest digits. *)
Theorem triangular_prime_is_sum n :
  0 ≤ n → triangular n ≤ 2 ^ 53 →
  triangular_prime n = sum ((λ i, 10 - i) <$> seqZ 1 n).
Proof.
  intros Hn _. unfold triangular_prime, triangular_prime_base.
  rewrite sum_complement, length_seqZ, triangular_is_sum_of by done. lia.
Qed.

Lemma triangular_prime_is_sum_witness :
  triangular_prime 3 = 9 + (8 + (7 + 0)).
Proof.
  apply (triangular_prime_is_sum 3); [lia|]. vm_compute. discriminate.
Defined.

(** ** Sets of digits *)

(** The digits 1..9. *)
Definition digits : gset Z := range_set 1 10.

(** Every subset of the set of the members of [l]. *)
Fixpoint subsets (l : list Z) : list (gset Z) :=
  match l with
  | [] => [∅]
  | x :: l' => subsets l' ++ ((λ s, {[ x ]} ∪ s) <$> subsets l')
  end.

Lemma elem_of_subsets (l : list Z) (t : gset Z) :
  t ⊆ list_to_set l → t ∈ subsets l.
Proof.
  revert t. induction l as [|x l IH]; intros t Ht; simpl.
  - apply list_elem_of_singleton. set_solver.
  - rewrite list_to_set_cons in Ht. apply elem_of_app.
    destruct (decide (x ∈ t)) as [Hx|Hx].
    + right. apply list_elem_of_fmap. exists (t ∖ {[ x ]}). split.
      * apply set_eq. intros y. rewrite elem_of_union, elem_of_singleton,
          elem_of_difference, elem_of_singleton.
        destruct (decide (y = x)) as [->|]; naive_solver.
      * apply IH. set_solver.
    + left. apply IH. set_solver.
Qed.

(** The sum of the members of a set (in any order). *)
Definition set_sum (s : gset Z) : Z := sum (elements s).

(** What holds of every set of digits: its sum lies between the two
    extremal sums for its size, and the lookup table, asked with its sum
    and size, knows no other set. *)
Definition digit_set_check (t : gset Z) : bool :=
  bool_decide (triangular (Z.of_nat (size t)) ≤ set_sum t)
  && bool_decide (set_sum t ≤ triangular_prime (Z.of_nat (size t)))
  && match lookup_table !! (set_sum t, Z.of_nat (size t)) with
     | Some s => bool_decide (s = t)
     | None => true
     end.

Lemma digit_sets_checked : forallb digit_set_check (subsets (seqZ 1 9)) = true.
Proof. vm_compute. reflexivity. Qed.

Lemma digit_set_facts (t : gset Z) :
  t ⊆ digits →
  triangular (Z.of_nat (size t)) ≤ set_sum t
  ≤ triangular_prime (Z.of_nat (size t))
  ∧ ∀ s, lookup_table !! (set_sum t, Z.of_nat (size t)) = Some s → s = t.
Proof.
  intros Ht. pose proof digit_sets_checked as Hall.
  rewrite forallb_forall in Hall.
  assert (Hin : In t (subsets (seqZ 1 9))).
  { apply list_elem_of_In, elem_of_subsets. exact Ht. }
  apply Hall in Hin. unfold digit_set_check in Hin.
  apply andb_true_iff in Hin as [Hin Htable].
  apply andb_true_iff in Hin as [Hlo Hhi].
  apply bool_decide_eq_true in Hlo, Hhi. split; [done|].
  intros s Hs. rewrite Hs in Htable. by apply bool_decide_eq_true in Htable.
Qed.

(** What holds of every entry of the table: a set of digits with the size
    and the sum of its key. *)
Definition table_entry_sound (kv : Z * Z * gset Z) : bool :=
  bool_decide (kv.2 ⊆ digits)
  && bool_decide (Z.of_nat (size kv.2) = kv.1.2)
  && bool_decide (set_sum kv.2 = kv.1.1).

Lemma table_entries_sound :
  forallb table_entry_sound (map_to_list lookup_table) = true.
Proof. vm_compute. reflexivity. Qed.

(** X3. The values of the lookup table are "the only possible set of
    summands": the entry under (S, L) is a set of L digits that sum to S,
    and no other set of L digits of 1..9 sums to S. *)
Theorem lookup_table_unique_summands S L s :
  lookup_table !! (S, L) = Some s →
  (s ⊆ digits ∧ Z.of_nat (size s) = L ∧ set_sum s = S)
  ∧ ∀ t, t ⊆ digits → Z.of_nat (size t) = L → set_sum t = S → t = s.
Proof.
  intros Hs. split.
  - pose proof table_entries_sound as Hall. rewrite forallb_forall in Hall.
    assert (Hin : In (S, L, s) (map_to_list lookup_table)).
    { apply list_elem_of_In. by apply elem_of_map_to_list. }
    apply Hall in Hin. unfold table_entry_sound in Hin. simpl in Hin.
    apply andb_true_iff in Hin as [Hin Hsum].
    apply andb_true_iff in Hin as [Hsub Hsize].
    by apply bool_decide_eq_true in Hsub, Hsize, Hsum.
  - intros t Ht Hsize Hsum.
    destruct (digit_set_facts t Ht) as [_ Htable].
    symmetry. apply Htable. by rewrite Hsize, Hsum.
Qed.

Lemma lookup_table_unique_summands_witness :
  (range_set 8 10 ⊆ digits ∧ Z.of_nat (size (range_set 8 10)) = 2
   ∧ set_sum (range_set 8 10) = 17)
  ∧ ∀ t, t ⊆ digits → Z.of_nat (size t) = 2 → set_sum t = 17 →
         t = range_set 8 10.
Proof.
  apply (lookup_table_unique_summands 17 2 (range_set 8 10)).
  vm_compute. reflexivity.
Defined.

(** ** Tuples of digits *)

Lemma length_size_NoDup (l : list Z) :
  length l = size (list_to_set l : gset Z) ↔ NoDup l.
Proof.
  rewrite <- (has_duplicates_false elements elements_order_Z).
  unfold has_duplicates.
  rewrite bool_decide_eq_false. split; [intros H Hne; by apply Hne|].
  intros H.
  destruct (decide (length l = size (list_to_set l : gset Z))) as [|Hne];
    [done|].
  by destruct H.
Qed.

Lemma size_digits : size digits = 9%nat.
Proof. vm_compute. reflexivity. Qed.

Lemma elem_of_digits x : x ∈ digits ↔ 1 ≤ x ≤ 9.
Proof. unfold digits. rewrite elem_of_range_set. lia. Qed.

Lemma valid_combination_iff l :
  valid_combination l = true ↔ NoDup l ∧ ∀ x, x ∈ l → 1 ≤ x ≤ 9.
Proof.
  unfold valid_combination.
  rewrite andb_true_iff, bool_decide_eq_true, length_size_NoDup,
    forallb_forall.
  split; intros [Hn Hd]; (split; [done|]); intros x Hx.
  - apply list_elem_of_In, Hd in Hx. apply andb_true_iff in Hx as [H1 H2].
    apply bool_decide_eq_true in H1, H2. lia.
  - apply list_elem_of_In, Hd in Hx. apply andb_true_iff.
    rewrite !bool_decide_eq_true. lia.
Qed.

(** X4. [valid_combination] accepts exactly the tuples of pairwise distinct
    digits of 1..9; none of them is longer than 9. *)
Theorem valid_combination_spec l :
  (valid_combination l = true ↔ NoDup l ∧ ∀ x, x ∈ l → 1 ≤ x ≤ 9)
  ∧ (valid_combination l = true → (length l ≤ 9)%nat).
Proof.
  split; [apply valid_combination_iff|].
  intros [Hn Hd]%valid_combination_iff.
  apply length_size_NoDup in Hn. rewrite Hn, <- size_digits.
  apply subseteq_size. intros x Hx. apply elem_of_list_to_set in Hx.
  by apply elem_of_digits, Hd.
Qed.

(** ** The methods of a Cell *)

Lemma size_difference_changed (c s : gset Z) :
  size c ≠ size (c ∖ s) ↔ ∃ x, x ∈ c ∧ x ∈ s.
Proof.
  split.
  - intros Hsize. destruct (decide (c ∩ s = ∅)) as [Hempty|Hne].
    + exfalso. apply Hsize. f_equal. set_solver.
    + apply set_choose_L in Hne as [x Hx]. exists x. set_solver.
  - intros (x & Hc & Hs) Hsize.
    assert (Hsub : c ∖ s ⊂ c) by set_solver.
    apply subset_size in Hsub. lia.
Qed.

Lemma size_intersection_changed (c s : gset Z) :
  size c ≠ size (c ∩ s) ↔ ∃ x, x ∈ c ∧ x ∉ s.
Proof.
  split.
  - intros Hsize. destruct (decide (c ∖ s = ∅)) as [Hempty|Hne].
    + exfalso. apply Hsize. f_equal. apply set_eq. intros x.
      rewrite elem_of_intersection. split; [|tauto]. intros Hx.
      split; [done|]. destruct (decide (x ∈ s)); [done|]. set_solver.
    + apply set_choose_L in Hne as [x Hx]. exists x. set_solver.
  - intros (x & Hc & Hs) Hsize.
    assert (Hsub : c ∩ s ⊂ c) by set_solver.
    apply subset_size in Hsub. lia.
Qed.

(** X5. [Cell.substract] leaves the cell with its candidates outside the given
    set and returns true exactly when the cell held a member of that set. *)
Theorem substract_flag cell s g c :
  data g !! cell = Some (Cell c) →
  ∃ changed,
    substract cell s g = (Ok changed, with_candidates cell (c ∖ s) g)
    ∧ (changed = true ↔ ∃ x, x ∈ c ∧ x ∈ s).
Proof.
  intros Hc. eexists. split; [by apply substract_cell|].
  by rewrite bool_decide_eq_true, size_difference_changed.
Qed.

Lemma substract_flag_witness :
  ∃ changed,
    substract 1 (range_set 3 6)
      (mkKakuro 2 1 [Clue 0 4; Cell (range_set 1 5)])
    = (Ok changed,
       with_candidates 1 (range_set 1 5 ∖ range_set 3 6)
         (mkKakuro 2 1 [Clue 0 4; Cell (range_set 1 5)]))
    ∧ (changed = true ↔ ∃ x, x ∈ range_set 1 5 ∧ x ∈ range_set 3 6).
Proof.
  apply (substract_flag 1 (range_set 3 6)
           (mkKakuro 2 1 [Clue 0 4; Cell (range_set 1 5)]) (range_set 1 5)).
  reflexivity.
Defined.

(** X6. [Cell.intersect] leaves the cell with its candidates inside the given
    set and returns true exactly when the cell held a digit outside it. *)
Theorem intersect_flag cell s g c :
  data g !! cell = Some (Cell c) →
  ∃ changed,
    intersect cell s g = (Ok changed, with_candidates cell (c ∩ s) g)
    ∧ (changed = true ↔ ∃ x, x ∈ c ∧ x ∉ s).
Proof.
  intros Hc. eexists. split; [by apply intersect_cell|].
  by rewrite bool_decide_eq_true, size_intersection_changed.
Qed.

Lemma intersect_flag_witness :
  ∃ changed,
    intersect 1 (range_set 3 6)
      (mkKakuro 2 1 [Clue 0 4; Cell (range_set 1 5)])
    = (Ok changed,
       with_candidates 1 (range_set 1 5 ∩ range_set 3 6)
         (mkKakuro 2 1 [Clue 0 4; Cell (range_set 1 5)]))
    ∧ (changed = true ↔ ∃ x, x ∈ range_set 1 5 ∧ x ∉ range_set 3 6).
Proof.
  apply (intersect_flag 1 (range_set 3 6)
           (mkKakuro 2 1 [Clue 0 4; Cell (range_set 1 5)]) (range_set 1 5)).
  reflexivity.
Defined.

Section UniqueValue.

Variable set_iter : gset Z → list Z.
Hypothesis set_iter_perm : ∀ s, set_iter s ≡ₚ elements s.

(** X7. [Cell.unique_value] does not depend on the order in which a set is
    iterated: on a set of one digit it returns that digit, and on any
    other set, the empty one included, it raises AssertionError. *)
Theorem unique_value_spec c :
  match unique_value set_iter c with
  | Ok x => c = {[ x ]}
  | Raise e => e = AssertionError ∧ size c ≠ 1%nat
  end.
Proof.
  destruct (is_unique c) eqn:Hu.
  - apply is_unique_inv in Hu as [x ->].
    by rewrite (unique_value_singleton set_iter set_iter_perm).
  - unfold unique_value. rewrite Hu. simpl. split; [done|].
    unfold is_unique in Hu. by apply bool_decide_eq_false in Hu.
Qed.

End UniqueValue.

Lemma unique_value_spec_witness :
  match unique_value elements (range_set 4 5) with
  | Ok x => range_set 4 5 = {[ x ]}
  | Raise e => e = AssertionError ∧ size (range_set 4 5) ≠ 1%nat
  end.
Proof. apply (unique_value_spec elements elements_order_Z). Defined.

(** ** Map.get and the coordinates of a position *)

(** [t[i]] on a tuple: a negative index counts from the end; [None] is
    the IndexError of an index out of range. *)
Definition tuple_item {A} (l : list A) (i : Z) : option A :=
  let len := Z.of_nat (length l) in
  let i' := if i <? 0 then i + len else i in
  if (i' <? 0) || (len <=? i') then None else l !! Z.to_nat i'.

(** What [Map.get] raises: its assertion, or the IndexError of the
    subscript. *)
Inductive get_exn : Set :=
  | GetAssertionError
  | GetIndexError.

Definition get (g : Kakuro) (row column : Z) : get_exn + entry :=
  if in_grid g row column then
    match tuple_item (data g) (row * width g + column) with
    | Some e => inr e
    | None => inl GetIndexError
    end
  else inl GetAssertionError.

Lemma tuple_item_in_range {A} (l : list A) (i : Z) :
  0 ≤ i < Z.of_nat (length l) → tuple_item l i = l !! Z.to_nat i.
Proof.
  intros Hi. unfold tuple_item.
  destruct (Z.ltb_spec i 0) as [|_]; [lia|].
  destruct (Z.ltb_spec i 0) as [|_]; [lia|].
  destruct (Z.leb_spec (Z.of_nat (length l)) i) as [|_]; [lia|]. done.
Qed.

Lemma div_mul_add a b w : 0 ≤ b < w → (a * w + b) / w = a.
Proof. intros Hb. symmetry. apply (Z.div_unique _ _ a b); lia. Qed.

Lemma mod_mul_add a b w : 0 ≤ b < w → (a * w + b) `mod` w = b.
Proof. intros Hb. symmetry. apply (Z.mod_unique _ _ a b); lia. Qed.

Lemma get_in_grid g row column :
  well_formed g → 0 ≤ row < height g → 0 ≤ column < width g →
  ∃ e, data g !! Z.to_nat (row * width g + column) = Some e
       ∧ get g row column = inr e.
Proof.
  intros (Hw & Hh & Hlen) Hrow Hcol.
  assert (Hidx : 0 ≤ row * width g + column < width g * height g) by nia.
  destruct (lookup_lt_is_Some_2 (data g)
              (Z.to_nat (row * width g + column))) as [e He]; [lia|].
  exists e. split; [done|]. unfold get.
  rewrite in_grid_true by lia.
  by rewrite tuple_item_in_range, He by lia.
Qed.

(** X8. The row and the column that [idx2row] and [idx2col] give for a
    position of a well-formed grid lie inside the grid, and [get] at
    them returns the entry at that position: the (row, column, item)
    triples of [clues] and [cells] address their item. *)
Theorem get_of_position g idx e :
  well_formed g → data g !! idx = Some e →
  ∃ row column,
    idx2row g (Z.of_nat idx) = Ok row
    ∧ idx2col g (Z.of_nat idx) = Ok column
    ∧ 0 ≤ row < height g ∧ 0 ≤ column < width g
    ∧ get g row column = inr e.
Proof.
  intros Hwf He.
  assert (Hidx : (idx < length (data g))%nat) by by eapply lookup_lt_Some.
  destruct (well_formed_position g idx Hwf Hidx) as (Hw & Hr & Hc & Hpos).
  exists (row_of g idx), (column_of g idx).
  split; [by apply idx2row_well_formed|].
  split; [by apply idx2col_well_formed|].
  split; [done|]. split; [done|].
  unfold get. rewrite in_grid_true by lia.
  rewrite <- Hpos, tuple_item_in_range by lia.
  by rewrite Nat2Z.id, He.
Qed.

Lemma get_of_position_witness :
  ∃ row column,
    idx2row (mkKakuro 2 2 [Clue 0 0; Clue 3 0; Clue 0 3; Cell (range_set 1 10)])
      (Z.of_nat 2) = Ok row
    ∧ idx2col
        (mkKakuro 2 2 [Clue 0 0; Clue 3 0; Clue 0 3; Cell (range_set 1 10)])
        (Z.of_nat 2) = Ok column
    ∧ 0 ≤ row < 2 ∧ 0 ≤ column < 2
    ∧ get (mkKakuro 2 2 [Clue 0 0; Clue 3 0; Clue 0 3; Cell (range_set 1 10)])
        row column = inr (Clue 0 3).
Proof.
  apply (get_of_position
           (mkKakuro 2 2 [Clue 0 0; Clue 3 0; Clue 0 3; Cell (range_set 1 10)])
           2 (Clue 0 3)).
  - unfold well_formed. simpl. lia.
  - reflexivity.
Defined.

(** X9. Conversely, inside a well-formed grid [get] never fails, and the
    position row * width + column it reads is mapped back to the same row
    and column by [idx2row] and [idx2col]. *)
Theorem position_of_coordinates g row column :
  well_formed g → 0 ≤ row < height g → 0 ≤ column < width g →
  idx2row g (row * width g + column) = Ok row
  ∧ idx2col g (row * width g + column) = Ok column
  ∧ ∃ e, data g !! Z.to_nat (row * width g + column) = Some e
         ∧ get g row column = inr e.
Proof.
  intros (Hw & Hh & Hlen) Hrow Hcol.
  assert (Hidx : 0 ≤ row * width g + column < width g * height g) by nia.
  split; [|split].
  - unfold idx2row, assert.
    rewrite (bool_decide_eq_true_2 (_ < _)) by lia. simpl.
    rewrite bool_decide_eq_false_2 by lia. by rewrite div_mul_add.
  - unfold idx2col, assert.
    rewrite (bool_decide_eq_true_2 (_ < _)) by lia. simpl.
    rewrite bool_decide_eq_false_2 by lia. by rewrite mod_mul_add.
  - apply get_in_grid; [|done|done]. by repeat split.
Qed.

Lemma position_of_coordinates_witness :
  idx2row (mkKakuro 2 2 [Clue 0 0; Clue 3 0; Clue 0 3; Cell (range_set 1 10)])
    (1 * 2 + 1) = Ok 1
  ∧ idx2col
      (mkKakuro 2 2 [Clue 0 0; Clue 3 0; Clue 0 3; Cell (range_set 1 10)])
      (1 * 2 + 1) = Ok 1
  ∧ ∃ e,
      data (mkKakuro 2 2 [Clue 0 0; Clue 3 0; Clue 0 3; Cell (range_set 1 10)])
        !! Z.to_nat (1 * 2 + 1) = Some e
      ∧ get
          (mkKakuro 2 2 [Clue 0 0; Clue 3 0; Clue 0 3; Cell (range_set 1 10)])
          1 1 = inr e.
Proof.
  apply (position_of_coordinates
           (mkKakuro 2 2 [Clue 0 0; Clue 3 0; Clue 0 3; Cell (range_set 1 10)])
           1 1).
  - unfold well_formed. simpl. lia.
  - simpl. lia.
  - simpl. lia.
Defined.

(** X10. The assertion of [get] bounds the coordinates from above only: a
    negative column in a row below the first is accepted and reads the
    row above, counted from its end. *)
Theorem get_negative_column g row column :
  well_formed g → 1 ≤ row < height g → - width g ≤ column < 0 →
  get g row column = get g (row - 1) (column + width g)
  ∧ ∃ e, get g row column = inr e.
Proof.
  intros Hwf Hrow Hcol.
  destruct (get_in_grid g (row - 1) (column + width g))
    as (e & He & Hget); [done|lia|lia|].
  assert (Heq : get g row column = get g (row - 1) (column + width g)).
  { destruct Hwf as (Hw & _). unfold get.
    rewrite !in_grid_true by lia.
    by replace ((row - 1) * width g + (column + width g))
      with (row * width g + column) by lia. }
  split; [done|]. exists e. by rewrite Heq.
Qed.

Lemma get_negative_column_witness :
  get (mkKakuro 2 2 [Clue 0 0; Clue 3 0; Clue 0 3; Cell (range_set 1 10)])
    1 (-1)
  = get (mkKakuro 2 2 [Clue 0 0; Clue 3 0; Clue 0 3; Cell (range_set 1 10)])
      (1 - 1) (-1 + 2)
  ∧ ∃ e,
      get (mkKakuro 2 2 [Clue 0 0; Clue 3 0; Clue 0 3; Cell (range_set 1 10)])
        1 (-1) = inr e.
Proof.
  apply (get_negative_column
           (mkKakuro 2 2 [Clue 0 0; Clue 3 0; Clue 0 3; Cell (range_set 1 10)])
           1 (-1)).
  - unfold well_formed. simpl. lia.
  - simpl. lia.
  - simpl. lia.
Defined.

(** ** The traversals inside a well-formed grid *)

(** The positions [start], [start + step], ..., [count] of them. *)
Definition positions (start step count : Z) : list nat :=
  Z.to_nat <$> ((λ k, start + k * step) <$> seqZ 0 count).

Lemma seqZ_nonpos m n : n ≤ 0 → seqZ m n = [].
Proof. intros Hn. unfold seqZ. by replace (Z.to_nat n) with 0%nat by lia. Qed.

Lemma slice_indices_forward len start stop step bound :
  0 ≤ start → 0 < step → 0 ≤ bound ≤ len →
  match stop with
  | Some s => adjust_index len step s
  | None => len
  end = bound →
  slice_indices len start stop step
  = (λ k, start + k * step) <$> seqZ 0 (slice_length start bound step).
Proof.
  intros Hstart Hstep Hbound Hstop. unfold slice_indices.
  assert (Hstop' :
    match stop with
    | Some s => adjust_index len step s
    | None => if step <? 0 then -1 else len
    end = bound).
  { destruct stop; [done|]. destruct (Z.ltb_spec step 0); [lia|done]. }
  rewrite Hstop'. clear Hstop Hstop'.
  destruct (decide (start < len)) as [Hlt|Hge].
  - by rewrite adjust_index_in_range by lia.
  - assert (H1 : slice_length (adjust_index len step start) bound step = 0).
    { unfold slice_length, adjust_index. case_cmp; lia. }
    assert (H2 : slice_length start bound step = 0).
    { unfold slice_length. case_cmp; lia. }
    by rewrite H1, H2.
Qed.

Lemma slice_length_forward start bound step q r :
  0 < step → bound - start = q * step - r → 0 ≤ r < step → 0 ≤ q →
  slice_length start bound step = q.
Proof.
  intros Hstep Heq Hr Hq. unfold slice_length.
  destruct (Z.ltb_spec step 0); [lia|].
  destruct (Z.ltb_spec start bound) as [Hlt|Hge].
  - replace (bound - start - 1) with ((q - 1) * step + (step - 1 - r)) by lia.
    rewrite div_mul_add by lia. lia.
  - nia.
Qed.

Lemma slice_length_backward start bound step q r :
  step < 0 → start - bound = q * (- step) - r → 0 ≤ r < - step → 0 ≤ q →
  slice_length start bound step = q.
Proof.
  intros Hstep Heq Hr Hq. unfold slice_length.
  destruct (Z.ltb_spec step 0); [|lia].
  destruct (Z.ltb_spec bound start) as [Hlt|Hge].
  - replace (start - bound - 1)
      with ((q - 1) * (- step) + (- step - 1 - r)) by lia.
    rewrite div_mul_add by lia. lia.
  - nia.
Qed.

(** X11. In a well-formed grid [items_east_of] lists the positions right of
    (row, column) to the end of the row, and [items_south_of] the
    positions below it to the end of the column, nearest first; on the
    last column (row) the list is empty. *)
Theorem forward_traversals g row column :
  well_formed g → 0 ≤ row < height g → 0 ≤ column < width g →
  items_east_of g row column
  = Ok (positions (row * width g + column + 1) 1 (width g - 1 - column))
  ∧ items_south_of g row column
    = Ok (positions ((row + 1) * width g + column) (width g)
                    (height g - 1 - row)).
Proof.
  intros (Hw & Hh & Hlen) Hrow Hcol.
  assert (Hrw : (row + 1) * width g ≤ width g * height g) by nia.
  assert (Hrw0 : 0 ≤ row * width g) by nia.
  split.
  - unfold items_east_of, data_slice, positions.
    rewrite in_grid_true by lia. simpl. do 2 f_equal.
    rewrite (slice_indices_forward _ _ _ _ ((row + 1) * width g));
      [|lia|lia|lia|unfold adjust_index; case_cmp; lia].
    f_equal. f_equal.
    apply (slice_length_forward _ _ _ _ 0); lia.
  - unfold items_south_of, data_slice, positions.
    rewrite in_grid_true by lia. simpl.
    rewrite bool_decide_eq_false_2 by lia. do 2 f_equal.
    rewrite (slice_indices_forward _ _ _ _ (width g * height g));
      [|lia|lia|lia|lia].
    f_equal. f_equal.
    apply (slice_length_forward _ _ _ _ column); try lia.
Qed.

(** The first row of a grid of three columns and two rows. *)
Lemma forward_traversals_witness :
  items_east_of
    (mkKakuro 3 2 [Clue 0 0; Clue 4 0; Clue 6 0;
                   Clue 0 10; Cell (range_set 1 10); Cell (range_set 1 10)])
    0 0
  = Ok (positions (0 * 3 + 0 + 1) 1 (3 - 1 - 0))
  ∧ items_south_of
      (mkKakuro 3 2 [Clue 0 0; Clue 4 0; Clue 6 0;
                     Clue 0 10; Cell (range_set 1 10); Cell (range_set 1 10)])
      0 0
    = Ok (positions ((0 + 1) * 3 + 0) 3 (2 - 1 - 0)).
Proof.
  apply (forward_traversals
           (mkKakuro 3 2 [Clue 0 0; Clue 4 0; Clue 6 0;
                          Clue 0 10; Cell (range_set 1 10);
                          Cell (range_set 1 10)]) 0 0).
  - unfold well_formed. simpl. lia.
  - simpl. lia.
  - simpl. lia.
Defined.

Lemma items_north_of_slice g row column start count :
  well_formed g → row < height g → 1 ≤ column < width g →
  0 ≤ count →
  0 ≤ start < width g * height g →
  adjust_index (Z.of_nat (length (data g))) (- width g)
               ((row - 1) * width g + column) = start →
  start = (count - 1) * width g + column →
  items_north_of g row column = Ok (positions start (- width g) count).
Proof.
  intros (Hw & Hh & Hlen) Hrow Hcol Hcount Hstart Hadj Hcnt.
  unfold items_north_of, data_slice, positions.
  rewrite in_grid_true by lia. simpl.
  rewrite bool_decide_eq_false_2 by lia. do 2 f_equal.
  unfold slice_indices. rewrite Hadj.
  rewrite (adjust_index_in_range _ _ 0) by lia.
  f_equal. f_equal.
  apply (slice_length_backward _ _ _ _ (width g - column)); lia.
Qed.

Lemma items_north_of_above g row column :
  well_formed g → 1 ≤ row < height g → 1 ≤ column < width g →
  items_north_of g row column
  = Ok (positions ((row - 1) * width g + column) (- width g) row).
Proof.
  intros Hwf Hrow Hcol. pose proof Hwf as (Hw & Hh & Hlen).
  assert (Hrw : row * width g ≤ width g * height g) by nia.
  assert (Hrw0 : 0 ≤ (row - 1) * width g) by nia.
  apply items_north_of_slice; try done; try lia.
  apply adjust_index_in_range. lia.
Qed.

(** X12. For a cell below the first row and right of the first column
    [items_north_of] lists every position above it in its column, nearest
    first, up to row 0. *)
Theorem items_north_of_inner g row column :
  well_formed g → 1 ≤ row < height g → 1 ≤ column < width g →
  items_north_of g row column
  = Ok (positions ((row - 1) * width g + column) (- width g) row).
Proof. apply items_north_of_above. Qed.

Lemma items_north_of_inner_witness :
  items_north_of
    (mkKakuro 2 3 [Clue 0 0; Clue 3 0; Clue 0 1; Cell (range_set 1 10);
                   Clue 0 2; Cell (range_set 1 10)])
    2 1
  = Ok (positions ((2 - 1) * 2 + 1) (- 2) 2).
Proof.
  apply (items_north_of_inner
           (mkKakuro 2 3 [Clue 0 0; Clue 3 0; Clue 0 1; Cell (range_set 1 10);
                          Clue 0 2; Cell (range_set 1 10)]) 2 1).
  - unfold well_formed. simpl. lia.
  - simpl. lia.
  - simpl. lia.
Defined.

(** X13. On row 0, right of the first column, the start of the slice of
    [items_north_of] is negative and wraps around: the call lists the
    whole column from the last row upwards, ending with the position
    (0, column) it was asked about. *)
Theorem items_north_of_row_0 g column :
  well_formed g → 0 < height g → 1 ≤ column < width g →
  items_north_of g 0 column
  = Ok (positions ((height g - 1) * width g + column) (- width g)
                  (height g))
  ∧ list.last (positions ((height g - 1) * width g + column) (- width g)
                         (height g))
    = Some (Z.to_nat column).
Proof.
  intros Hwf Hrow Hcol. pose proof Hwf as (Hw & Hh & Hlen).
  assert (Hrw : (height g - 1) * width g + width g = width g * height g)
    by lia.
  assert (Hrw0 : 0 ≤ (height g - 1) * width g) by nia.
  split.
  - apply items_north_of_slice; try done; try lia.
    unfold adjust_index. case_cmp; lia.
  - unfold positions, seqZ.
    replace (Z.to_nat (height g)) with (S (Z.to_nat (height g - 1))) by lia.
    rewrite seq_S, !fmap_app. cbn [fmap list_fmap]. rewrite last_snoc.
    replace (Z.of_nat (0 + Z.to_nat (height g - 1)) + 0)
      with (height g - 1) by lia.
    f_equal. f_equal. lia.
Qed.

Lemma items_north_of_row_0_witness :
  items_north_of
    (mkKakuro 2 3 [Clue 0 0; Clue 3 0; Clue 0 1; Cell (range_set 1 10);
                   Clue 0 2; Cell (range_set 1 10)])
    0 1
  = Ok (positions ((3 - 1) * 2 + 1) (- 2) 3)
  ∧ list.last (positions ((3 - 1) * 2 + 1) (- 2) 3) = Some (Z.to_nat 1).
Proof.
  apply (items_north_of_row_0
           (mkKakuro 2 3 [Clue 0 0; Clue 3 0; Clue 0 1; Cell (range_set 1 10);
                          Clue 0 2; Cell (range_set 1 10)]) 1).
  - unfold well_formed. simpl. lia.
  - simpl. lia.
  - simpl. lia.
Defined.

(** ** The clues of a cell *)

Lemma elem_of_run_from d pos step fuel i :
  i ∈ run_from d pos step fuel →
  ∃ k, (k < fuel)%nat ∧ i = (pos + k * step)%nat
       ∧ ∀ j, (j ≤ k)%nat →
           from_option is_Cell false (d !! (pos + j * step)%nat) = true.
Proof.
  revert pos. induction fuel as [|fuel IH]; intros pos; simpl;
    [by intros ?%elem_of_nil|].
  destruct (d !! pos) as [[c|v h]|] eqn:Hpos; try by intros ?%elem_of_nil.
  intros [->|Hin]%elem_of_cons.
  - exists 0%nat. split; [lia|]. split; [lia|]. intros j Hj.
    replace (pos + j * step)%nat with pos by nia. by rewrite Hpos.
  - apply IH in Hin as (k & Hk & -> & Hall). exists (S k).
    split; [lia|]. split; [lia|]. intros j Hj.
    destruct j as [|j].
    + replace (pos + 0 * step)%nat with pos by lia. by rewrite Hpos.
    + replace (pos + S j * step)%nat with (pos + step + j * step)%nat by lia.
      apply Hall. lia.
Qed.

Lemma dropwhile_app_false {A} (p : A → bool) l1 x l2 :
  Forall (λ y, p y = true) l1 → p x = false →
  dropwhile p (l1 ++ x :: l2) = x :: l2.
Proof.
  intros Hl1 Hx. induction Hl1 as [|y l1 Hy _ IH]; simpl.
  - by rewrite Hx.
  - by rewrite Hy.
Qed.

Lemma next_dropwhile_fmap_seqZ {A} (p : A → bool) (f : Z → A) n k x :
  0 ≤ k < n → (∀ j, 0 ≤ j < k → p (f j) = true) → p (f k) = false →
  f k = x →
  next (dropwhile p (f <$> seqZ 0 n)) = Ok x.
Proof.
  intros Hk Hbefore Hat <-.
  replace n with (k + (1 + (n - k - 1))) by lia.
  rewrite seqZ_app by lia. rewrite (seqZ_app _ 1) by lia.
  rewrite !fmap_app. change (seqZ (0 + k) 1) with [0 + k].
  cbn [fmap list_fmap app]. rewrite Z.add_0_l.
  rewrite dropwhile_app_false; [done| |done].
  apply list.Forall_forall. intros y Hy.
  apply list_elem_of_fmap in Hy as (j & -> & Hj).
  apply elem_of_seqZ in Hj. apply Hbefore. lia.
Qed.

Lemma clues_for_eval g row column north west v h :
  items_north_of g row column = Ok north →
  items_west_of g row column = Ok west →
  next (dropwhile (λ i, negb (from_option is_Clue false (data g !! i))) north)
  = Ok v →
  next (dropwhile (λ i, negb (from_option is_Clue false (data g !! i))) west)
  = Ok h →
  clues_for g row column = Ok (v, h).
Proof.
  intros Hn Hw Hv Hh. unfold clues_for.
  rewrite Hn. cbn [mbind outcome_bind]. rewrite Hw. cbn [mbind outcome_bind].
  rewrite Hv. cbn [mbind outcome_bind]. by rewrite Hh.
Qed.

Lemma is_Cell_not_Clue (o : option entry) :
  from_option is_Cell false o = true →
  negb (from_option is_Clue false o) = true.
Proof. by destruct o as [[]|]. Qed.

(** X14. [clues_for] inverts the runs: for a cell that lies in the run south
    of a clue and in the run east of a clue, it returns these two clues,
    the vertical one first. *)
Theorem clues_for_of_runs g pv ph idx :
  well_formed g →
  from_option is_Clue false (data g !! pv) = true →
  from_option is_Clue false (data g !! ph) = true →
  idx ∈ south_run g pv → idx ∈ east_run g ph →
  clues_for g (row_of g idx) (column_of g idx) = Ok (pv, ph).
Proof.
  intros Hwf Hpv Hph Hsouth Heast.
  assert (Hpvlt : (pv < length (data g))%nat).
  { destruct (data g !! pv) eqn:E; [by eapply lookup_lt_Some|done]. }
  assert (Hphlt : (ph < length (data g))%nat).
  { destruct (data g !! ph) eqn:E; [by eapply lookup_lt_Some|done]. }
  destruct (well_formed_position g pv Hwf Hpvlt) as (Hw & Hrv & Hcv & Hposv).
  destruct (well_formed_position g ph Hwf Hphlt) as (_ & Hrh & Hch & Hposh).
  unfold south_run in Hsouth.
  apply elem_of_run_from in Hsouth as (k & _ & Hidx & Hcells).
  unfold east_run in Heast.
  apply elem_of_run_from in Heast as (k' & _ & Hidx' & Hcells').
  assert (Hidxlt : (idx < length (data g))%nat).
  { specialize (Hcells k (Nat.le_refl _)). rewrite <- Hidx in Hcells.
    destruct (data g !! idx) eqn:E; [by eapply lookup_lt_Some|done]. }
  assert (Hbound : Z.of_nat idx < (row_of g ph + 1) * width g).
  { specialize (Hcells' k' (Nat.le_refl _)). rewrite <- Hidx' in Hcells'.
    destruct (take _ (data g) !! idx) eqn:E; [|done].
    apply lookup_take_Some in E as [_ E]. nia. }
  set (w := width g) in *.
  assert (HidxZ : Z.of_nat idx
                  = (row_of g pv + Z.of_nat k + 1) * w + column_of g pv).
  { rewrite Hidx. rewrite !Nat2Z.inj_add, Nat2Z.inj_mul, Z2Nat.id by lia.
    rewrite Hposv. lia. }
  assert (HidxZ' : Z.of_nat idx
                   = row_of g ph * w + (column_of g ph + Z.of_nat k' + 1)).
  { rewrite Hidx'. rewrite !Nat2Z.inj_add, Nat2Z.inj_mul. rewrite Hposh.
    lia. }
  assert (Hrow : row_of g idx = row_of g pv + Z.of_nat k + 1).
  { unfold row_of at 1. fold w. rewrite HidxZ. by apply div_mul_add. }
  assert (Hcol : column_of g idx = column_of g ph + Z.of_nat k' + 1).
  { unfold column_of at 1. fold w. rewrite HidxZ'. apply mod_mul_add. lia. }
  assert (Hcolv : column_of g idx = column_of g pv).
  { unfold column_of at 1. fold w. rewrite HidxZ. by apply mod_mul_add. }
  assert (Hrowh : row_of g idx = row_of g ph).
  { unfold row_of at 1. fold w. rewrite HidxZ'. apply div_mul_add. lia. }
  destruct (well_formed_position g idx Hwf Hidxlt) as (_ & Hri & Hci & _).
  eapply clues_for_eval.
  - apply items_north_of_above; [done|lia|fold w; lia].
  - apply items_west_of_inner_row; [done|lia|done].
  - unfold positions. rewrite <- list_fmap_compose.
    apply (next_dropwhile_fmap_seqZ _ _ _ (Z.of_nat k)); [lia| | |].
    + intros j Hj. unfold compose. apply is_Cell_not_Clue.
      specialize (Hcells (k - Z.to_nat j - 1)%nat).
      replace (Z.to_nat ((row_of g idx - 1) * width g + column_of g idx
                         + j * - width g))
        with (pv + Z.to_nat (width g)
              + (k - Z.to_nat j - 1) * Z.to_nat (width g))%nat.
      * apply Hcells. lia.
      * fold w. rewrite Hrow, Hcolv. nia.
    + unfold compose.
      replace (Z.to_nat ((row_of g idx - 1) * width g + column_of g idx
                         + Z.of_nat k * - width g)) with pv.
      * by rewrite Hpv.
      * fold w. rewrite Hrow, Hcolv. nia.
    + unfold compose. fold w. rewrite Hrow, Hcolv. nia.
  - unfold west_positions. rewrite <- list_fmap_compose.
    apply (next_dropwhile_fmap_seqZ _ _ _ (Z.of_nat k')); [lia| | |].
    + intros j Hj. unfold compose. apply is_Cell_not_Clue.
      specialize (Hcells' (k' - Z.to_nat j - 1)%nat).
      replace (Z.to_nat (row_of g idx * width g + column_of g idx - 1 - j))
        with (ph + 1 + (k' - Z.to_nat j - 1) * 1)%nat.
      * assert (Hc : from_option is_Cell false
                       (take (Z.to_nat ((row_of g ph + 1) * width g)) (data g)
                          !! (ph + 1 + (k' - Z.to_nat j - 1) * 1)%nat) = true)
          by (apply Hcells'; lia).
        destruct (take _ (data g) !! _) as [e|] eqn:E; [|done].
        apply lookup_take_Some in E as [E _]. by rewrite E.
      * fold w. rewrite Hrowh, Hcol. nia.
    + unfold compose.
      replace (Z.to_nat (row_of g idx * width g + column_of g idx - 1
                         - Z.of_nat k')) with ph.
      * by rewrite Hph.
      * fold w. rewrite Hrowh, Hcol. nia.
    + unfold compose. fold w. rewrite Hrowh, Hcol. nia.
Qed.

(** The cell at the bottom right of a grid of two columns and three rows:
    its column starts at position 1, its row at position 4. *)
Lemma clues_for_of_runs_witness :
  clues_for
    (mkKakuro 2 3 [Clue 0 0; Clue 3 0; Clue 0 1; Cell (range_set 1 10);
                   Clue 0 2; Cell (range_set 1 10)])
    (row_of
       (mkKakuro 2 3 [Clue 0 0; Clue 3 0; Clue 0 1; Cell (range_set 1 10);
                      Clue 0 2; Cell (range_set 1 10)]) 5)
    (column_of
       (mkKakuro 2 3 [Clue 0 0; Clue 3 0; Clue 0 1; Cell (range_set 1 10);
                      Clue 0 2; Cell (range_set 1 10)]) 5)
  = Ok (1%nat, 4%nat).
Proof.
  apply (clues_for_of_runs
           (mkKakuro 2 3 [Clue 0 0; Clue 3 0; Clue 0 1; Cell (range_set 1 10);
                          Clue 0 2; Cell (range_set 1 10)]) 1 4 5).
  - unfold well_formed. simpl. lia.
  - reflexivity.
  - reflexivity.
  - vm_compute. apply list_elem_of_further, list_elem_of_here.
  - vm_compute. apply list_elem_of_here.
Defined.

(** ** Fillings

    A filling gives a digit to every position.  The narrowing and the two
    passes never discard the digit of a filling that solves the puzzle. *)

(** Under [σ] the cells of [run] hold pairwise distinct digits of 1..9
    that sum to [target]. *)
Definition run_filled (σ : nat → Z) (run : list nat) (target : Z) : Prop :=
  NoDup (σ <$> run) ∧ (∀ i, i ∈ run → 1 ≤ σ i ≤ 9)
  ∧ sum (σ <$> run) = target.

(** [σ] solves the puzzle [g]: both runs of every clue are filled to
    their targets. *)
Definition solution (g : Kakuro) (σ : nat → Z) : Prop :=
  ∀ idx v h, data g !! idx = Some (Clue v h) →
    run_filled σ (south_run g idx) v ∧ run_filled σ (east_run g idx) h.

(** Every cell of [g] has its digit of [σ] among its candidates. *)
Definition allows (g : Kakuro) (σ : nat → Z) : Prop :=
  ∀ i c, data g !! i = Some (Cell c) → σ i ∈ c.

Lemma set_sum_list_to_set (l : list Z) :
  NoDup l → set_sum (list_to_set l) = sum l.
Proof.
  intros Hl. unfold set_sum. apply sum_perm. by apply elements_list_to_set.
Qed.

Lemma set_sum_remove (t : gset Z) x :
  x ∈ t → set_sum (t ∖ {[ x ]}) = set_sum t - x.
Proof.
  intros Hx. unfold set_sum.
  assert (Ht : t = {[ x ]} ∪ t ∖ {[ x ]}).
  { apply set_eq. intros y.
    rewrite elem_of_union, elem_of_difference, elem_of_singleton.
    destruct (decide (y = x)) as [->|]; naive_solver. }
  rewrite Ht at 2.
  rewrite (sum_perm _ _ (elements_union_singleton (t ∖ {[ x ]}) x
                           ltac:(set_solver))).
  simpl. lia.
Qed.

Lemma size_remove (t : gset Z) x :
  x ∈ t → Z.of_nat (size (t ∖ {[ x ]})) = Z.of_nat (size t) - 1.
Proof.
  intros Hx. rewrite size_difference by set_solver.
  rewrite size_singleton.
  assert (size t ≠ 0%nat) by (apply size_non_empty_iff; set_solver).
  lia.
Qed.

(** The digits of a filled run: what the table and the two extremal
    sums say about them. *)
Lemma run_filled_digits σ run n :
  run_filled σ run n →
  let t : gset Z := list_to_set (σ <$> run) in
  t ⊆ digits ∧ Z.of_nat (size t) = Z.of_nat (length run) ∧ set_sum t = n.
Proof.
  intros (Hnodup & Hdigits & Hsum) t. split; [|split].
  - intros x Hx. apply elem_of_list_to_set, list_elem_of_fmap in Hx
      as (i & -> & Hi).
    by apply elem_of_digits, Hdigits.
  - unfold t. by rewrite size_list_to_set, length_fmap.
  - unfold t. by rewrite set_sum_list_to_set.
Qed.

Lemma run_filled_feasible σ run n :
  run_filled σ run n →
  triangular (Z.of_nat (length run)) ≤ n
  ≤ triangular_prime (Z.of_nat (length run)).
Proof.
  intros Hrun.
  destruct (run_filled_digits σ run n Hrun) as (Hsub & Hsize & Hsum).
  destruct (digit_set_facts _ Hsub) as [Hbounds _].
  by rewrite Hsize, Hsum in Hbounds.
Qed.

Lemma run_filled_table σ run n s i :
  run_filled σ run n →
  lookup_table !! (n, Z.of_nat (length run)) = Some s →
  i ∈ run → σ i ∈ s.
Proof.
  intros Hrun Hs Hi.
  destruct (run_filled_digits σ run n Hrun) as (Hsub & Hsize & Hsum).
  destruct (digit_set_facts _ Hsub) as [_ Htable].
  rewrite Hsize, Hsum in Htable. rewrite (Htable s Hs).
  apply elem_of_list_to_set, list_elem_of_fmap. eauto.
Qed.

Lemma run_filled_range σ run n i :
  run_filled σ run n → i ∈ run →
  σ i ∈ range_set (cellset_min n (Z.of_nat (length run)))
                  (cellset_max n (Z.of_nat (length run)) + 1).
Proof.
  intros Hrun Hi.
  destruct (run_filled_digits σ run n Hrun) as (Hsub & Hsize & Hsum).
  pose proof Hrun as (Hnodup & Hdigits & Hsumrun).
  specialize (Hdigits i Hi).
  set (t := list_to_set (σ <$> run) : gset Z) in *.
  assert (Hin : σ i ∈ t).
  { apply elem_of_list_to_set, list_elem_of_fmap. eauto. }
  apply elem_of_range_set. unfold cellset_min, cellset_max.
  case_bool_decide as Hcount.
  - assert (Hrest : t ∖ {[ σ i ]} ⊆ digits) by set_solver.
    destruct (digit_set_facts _ Hrest) as [Hbounds _].
    rewrite size_remove, set_sum_remove, Hsize, Hsum in Hbounds by done.
    lia.
  - destruct run as [|j [|j' run]].
    + by apply elem_of_nil in Hi.
    + apply list_elem_of_singleton in Hi as ->. simpl in Hsumrun. lia.
    + simpl in Hcount. lia.
Qed.

Lemma allows_intersect_all σ s l g :
  allows g σ → (∀ i, i ∈ l → σ i ∈ s) → allows (intersect_all s l g) σ.
Proof.
  intros Hg Hs i c. rewrite intersect_all_lookup.
  case_decide as Hi; [|by apply Hg].
  destruct (data g !! i) as [[c0|v h]|] eqn:Hc0; [|done..].
  intros [= <-]. apply elem_of_intersection. split; [by eapply Hg|by apply Hs].
Qed.

Lemma allows_constrained σ n cells g :
  run_filled σ cells n → allows g σ → allows (constrained n cells g) σ.
Proof.
  intros Hrun Hg. unfold constrained.
  apply allows_intersect_all; [|intros i Hi; by apply run_filled_range].
  destruct (lookup_table !! (n, Z.of_nat (length cells))) as [s|] eqn:Hs;
    [|done].
  apply allows_intersect_all; [done|].
  intros i Hi. by eapply run_filled_table.
Qed.

(** X15. The range narrowing is sound: called with a target and cells that
    some filling with pairwise distinct digits of 1..9 meets, it passes
    its feasibility check and leaves every cell with the digit of that
    filling among its candidates. *)
Theorem constrain_cells_sum_sound σ n cells g :
  cell_positions g cells → run_filled σ cells n → allows g σ →
  ∃ changed g',
    constrain_cells_sum n cells g = (Ok changed, g') ∧ allows g' σ.
Proof.
  intros Hcells Hrun Hg.
  destruct (constrain_cells_sum_feasible n cells g Hcells
              (run_filled_feasible σ cells n Hrun)) as [changed Hch].
  exists changed, (constrained n cells g).
  split; [done|]. by apply allows_constrained.
Qed.

(** Target 17 over two open cells, met by 8 and 9. *)
Lemma constrain_cells_sum_sound_witness :
  ∃ changed g',
    constrain_cells_sum 17 [1%nat; 2%nat]
      (mkKakuro 3 1 [Clue 0 17; Cell (range_set 1 10); Cell (range_set 1 10)])
    = (Ok changed, g')
    ∧ allows g' (λ i, if decide (i = 1%nat) then 8 else 9).
Proof.
  apply (constrain_cells_sum_sound
           (λ i, if decide (i = 1%nat) then 8 else 9) 17 [1%nat; 2%nat]
           (mkKakuro 3 1
              [Clue 0 17; Cell (range_set 1 10); Cell (range_set 1 10)])).
  - repeat constructor; eexists; reflexivity.
  - split; [|split].
    + simpl. repeat constructor; rewrite ?elem_of_cons, ?elem_of_nil; lia.
    + intros i Hi. case_decide; lia.
    + reflexivity.
  - intros i c Hi. destruct i as [|[|[|i]]]; simplify_eq/=;
      apply elem_of_range_set; lia.
Defined.

(** *** What a pass keeps *)

(** What is kept while a pass runs from [g0]: the store is [g0] narrowed,
    and it allows [σ]. *)
Definition preserved (g0 : Kakuro) (σ : nat → Z) (g : Kakuro) : Prop :=
  shrinks g0 g ∧ allows g σ.

(** [m] keeps this, and does not fail. *)
Definition safe {A} (g0 : Kakuro) (σ : nat → Z) (m : M A) : Prop :=
  ∀ g, preserved g0 σ g →
    post m g (λ _ g', preserved g0 σ g') (λ _ _, False).

Lemma safe_ret {A} g0 σ (a : A) : safe g0 σ (mret a).
Proof. intros g Hg. by apply post_ret. Qed.

Lemma safe_bind {A B} g0 σ (m : M A) (k : A → M B) :
  safe g0 σ m → (∀ a, safe g0 σ (k a)) → safe g0 σ (m ≫= k).
Proof.
  intros Hm Hk g Hg. apply post_bind.
  eapply post_then; [by apply Hm|]. intros a g' Hg'. by apply Hk.
Qed.

Lemma safe_read {A B} g0 σ (f : Kakuro → outcome A) (k : A → M B) :
  (∀ g, preserved g0 σ g →
     ∃ a, f g = Ok a
          ∧ post (k a) g (λ _ g', preserved g0 σ g') (λ _ _, False)) →
  safe g0 σ (read f ≫= k).
Proof.
  intros Hf g Hg. destruct (Hf g Hg) as (a & Ha & Hk).
  by eapply post_read_ok.
Qed.

Lemma safe_foldM {A S} g0 σ (body : S → A → M S) l s :
  (∀ s a, a ∈ l → safe g0 σ (body s a)) → safe g0 σ (foldM body s l).
Proof.
  revert s. induction l as [|a l IH]; intros s Hbody; [apply safe_ret|].
  cbn [foldM]. apply safe_bind.
  - apply Hbody. left.
  - intros s'. apply IH. intros s'' a' Ha'. apply Hbody. by right.
Qed.

Lemma safe_result {A} g σ (m : M A) :
  safe g σ m → allows g σ →
  ∃ a g', m g = (Ok a, g') ∧ shrinks g g' ∧ allows g' σ.
Proof.
  intros Hm Hg. specialize (Hm g (conj (reflexivity g) Hg)).
  unfold post in Hm. destruct (m g) as [[a|e] g']; [|done].
  exists a, g'. by destruct Hm.
Qed.

Lemma allows_with_candidates σ i s g :
  allows g σ → σ i ∈ s → allows (with_candidates i s g) σ.
Proof.
  intros Hg Hs j c. unfold with_candidates. simpl.
  rewrite list_lookup_alter. case_decide as Hij; [subst j|by apply Hg].
  destruct (data g !! i) as [[c0|v h]|]; simpl; [|done..].
  by intros [= <-].
Qed.

Lemma cell_positions_shrinks g g' l :
  shrinks g g' → cell_positions g l → cell_positions g' l.
Proof.
  intros Hs Hl. eapply list.Forall_impl; [exact Hl|]. intros i [c Hc].
  destruct (shrinks_lookup_cell g g' i c Hs Hc) as (c' & Hc' & _). eauto.
Qed.

Lemma safe_substract g0 σ p s :
  (∃ c, data g0 !! p = Some (Cell c)) → σ p ∉ s →
  safe g0 σ (substract p s).
Proof.
  intros [c0 Hc0] Hp g [Hs Ha].
  destruct (shrinks_lookup_cell g0 g p c0 Hs Hc0) as (c & Hc & _).
  unfold post. rewrite (substract_cell p s g c Hc). split.
  - etrans; [exact Hs|]. eapply shrinks_with_candidates; [done|set_solver].
  - apply allows_with_candidates; [done|].
    apply elem_of_difference. split; [by eapply Ha|done].
Qed.

Lemma safe_substract_loop g0 σ s pending changed :
  (∀ p, p ∈ pending → (∃ c, data g0 !! p = Some (Cell c)) ∧ σ p ∉ s) →
  safe g0 σ (substract_loop s pending changed).
Proof.
  intros Hpending. unfold substract_loop. apply safe_foldM.
  intros changed' p Hp. destruct (Hpending p Hp) as [Hcell Hnot].
  apply safe_bind; [by apply safe_substract|]. intros b. apply safe_ret.
Qed.

Lemma safe_constrain_cells_sum g0 σ n cells :
  cell_positions g0 cells → run_filled σ cells n →
  safe g0 σ (constrain_cells_sum n cells).
Proof.
  intros Hcells Hrun g [Hs Ha].
  pose proof (cell_positions_shrinks g0 g cells Hs Hcells) as Hcells'.
  destruct (constrain_cells_sum_feasible n cells g Hcells'
              (run_filled_feasible σ cells n Hrun)) as [changed Hch].
  pose proof (narrows_constrain_cells_sum n cells g) as Hn.
  unfold post in *. rewrite Hch in *. split.
  - etrans; [exact Hs|apply Hn].
  - by apply allows_constrained.
Qed.

(** *** The cells of a filled run *)

Lemma value_at_allows σ g i :
  allows g σ → unique_at g i = true → value_at g i = σ i.
Proof.
  intros Hg. unfold unique_at, value_at.
  destruct (data g !! i) as [[c|v h]|] eqn:Hi; [|done..].
  intros [x ->]%is_unique_inv. rewrite the_value_singleton.
  specialize (Hg i _ Hi). by apply elem_of_singleton in Hg.
Qed.

Lemma sum_fmap_filter_unique (f : nat → Z) g l :
  sum (f <$> l)
  = sum (f <$> filter (λ i, unique_at g i = false) l)
    + sum (f <$> filter (λ i, unique_at g i = true) l).
Proof.
  induction l as [|i l IH]; [done|].
  rewrite !filter_cons, fmap_cons. cbn [sum foldr]. fold (sum (f <$> l)).
  destruct (unique_at g i).
  - rewrite decide_False, decide_True by done. rewrite fmap_cons.
    cbn [sum foldr]. fold (sum (f <$> filter (λ i, true = true) l)).
    unfold sum in *. lia.
  - rewrite decide_True, decide_False by done. rewrite fmap_cons.
    cbn [sum foldr]. unfold sum in *. lia.
Qed.

Lemma NoDup_fmap_filter {A B} (f : A → B) (P : A → Prop)
    `{∀ x, Decision (P x)} l :
  NoDup (f <$> l) → NoDup (f <$> filter P l).
Proof.
  intros Hl. eapply sublist_NoDup; [exact Hl|].
  apply fmap_sublist, sublist_filter.
Qed.

Lemma NoDup_fmap_inj {A B} (f : A → B) l x y :
  NoDup (f <$> l) → x ∈ l → y ∈ l → f x = f y → x = y.
Proof.
  induction l as [|a l IH]; [by intros _ ?%elem_of_nil|].
  rewrite fmap_cons. intros [Ha Hl]%list.NoDup_cons.
  intros [->|Hx]%elem_of_cons [->|Hy]%elem_of_cons Hf; try done.
  - exfalso. apply Ha. rewrite Hf. apply list_elem_of_fmap. eauto.
  - exfalso. apply Ha. rewrite <- Hf. apply list_elem_of_fmap. eauto.
  - by apply IH.
Qed.

(** The resolved cells of a filled run hold their digits of the filling,
    these are pairwise distinct, none of them is the digit of a pending
    cell, and the pending cells are filled to what remains of the target. *)
Lemma run_filled_split σ g run n :
  run_filled σ run n → allows g σ →
  let pending := filter (λ i, unique_at g i = false) run in
  let uniques := filter (λ i, unique_at g i = true) run in
  value_at g <$> uniques = σ <$> uniques
  ∧ NoDup (σ <$> uniques)
  ∧ (∀ p, p ∈ pending → σ p ∉ (list_to_set (σ <$> uniques) : gset Z))
  ∧ run_filled σ pending (n - sum (σ <$> uniques)).
Proof.
  intros (Hnodup & Hdigits & Hsum) Hg pending uniques.
  split; [|split; [|split]].
  - apply Forall_fmap_ext, list.Forall_forall. intros i Hi.
    apply list_elem_of_filter in Hi as [Hi _]. by apply value_at_allows.
  - by apply NoDup_fmap_filter.
  - intros p Hp Hin.
    apply elem_of_list_to_set, list_elem_of_fmap in Hin as (u & Heq & Hu).
    apply list_elem_of_filter in Hp as [Hp Hprun].
    apply list_elem_of_filter in Hu as [Hu Hurun].
    assert (p = u) by by eapply NoDup_fmap_inj.
    subst u. congruence.
  - split; [by apply NoDup_fmap_filter|]. split.
    + intros i Hi. apply list_elem_of_filter in Hi as [_ Hi]. by apply Hdigits.
    + pose proof (sum_fmap_filter_unique σ g run) as Hsplit.
      fold pending uniques in Hsplit. lia.
Qed.

Lemma shrinks_clues g g' : shrinks g g' → clues g' = clues g.
Proof.
  intros (Hw & Hh & Hd). unfold clues, idx2row, idx2col.
  rewrite Hw, Hh. clear -Hd.
  unfold enumerate. generalize 0%nat.
  induction Hd as [|e e' d d' He _ IH]; intros k; [done|].
  simpl. rewrite IH.
  destruct e as [c|v h], e' as [c'|v' h']; simpl in He; try done.
  by destruct He as [-> ->].
Qed.

Section Soundness.

Variable set_iter : gset Z → list Z.
Hypothesis set_iter_perm : ∀ s, set_iter s ≡ₚ elements s.

Lemma safe_uniques_direction g0 σ n items changed :
  run_filled σ (contiguous g0 items) n →
  safe g0 σ (uniques_direction set_iter n items changed).
Proof.
  intros Hrun g [Hs Ha].
  destruct (decide (n = 0)) as [->|Hn].
  { unfold uniques_direction, post. simpl. by split. }
  rewrite <- (shrinks_contiguous g0 g items Hs) in Hrun.
  destruct (run_filled_split σ g _ n Hrun Ha)
    as (Hvalues & Hnodup & Hfresh & Hpending).
  fold (pending_at g items) (uniques_at g items) in *.
  assert (Hused : used_at g items = list_to_set (σ <$> uniques_at g items)).
  { unfold used_at. by rewrite Hvalues. }
  unfold post.
  rewrite (uniques_direction_run set_iter set_iter_perm);
    [|done|by rewrite Hused, size_list_to_set, length_fmap].
  assert (Hres : residual_at g n items = n - sum (σ <$> uniques_at g items)).
  { unfold residual_at. rewrite Hused. f_equal.
    apply sum_perm. by apply elements_list_to_set. }
  rewrite Hres, Hused.
  assert (Hcells : cell_positions g0 (pending_at g items)).
  { apply list.Forall_forall. intros p Hp.
    apply list_elem_of_filter in Hp as [_ Hp].
    rewrite (shrinks_contiguous g0 g items Hs) in Hp.
    pose proof (cell_positions_contiguous g0 items) as Hc.
    unfold cell_positions in Hc. rewrite list.Forall_forall in Hc.
    by apply Hc. }
  apply (safe_bind g0 σ); [| |by split].
  - apply safe_substract_loop. intros p Hp. split; [|by apply Hfresh].
    unfold cell_positions in Hcells. rewrite list.Forall_forall in Hcells.
    by apply Hcells.
  - intros changed'. case_bool_decide; [|apply safe_ret].
    apply safe_bind; [by apply safe_constrain_cells_sum|].
    intros b. apply safe_ret.
Qed.

Lemma safe_discard_from_uniques g σ :
  well_formed g → solution g σ →
  safe g σ (discard_from_uniques set_iter).
Proof.
  intros Hwf Hsol. unfold discard_from_uniques.
  apply safe_read. intros g' [Hs Ha]. eexists. split; [done|].
  rewrite (shrinks_clues g g' Hs), clues_well_formed by done.
  apply safe_foldM; [|by split].
  intros changed item Hitem.
  apply list_elem_of_fmap in Hitem as ([[idx v] h] & -> & Hin).
  apply elem_of_clue_entries in Hin.
  assert (Hidx : (idx < length (data g))%nat) by by eapply lookup_lt_Some.
  destruct (items_south_of_run g idx Hwf Hidx) as (south & Hsouth & Hsrun).
  destruct (items_east_of_run g idx Hwf Hidx) as (east & Heast & Herun).
  destruct (Hsol idx v h Hin) as [Hv Hh].
  apply safe_read. intros g1 [Hs1 Ha1]. eexists. split; [done|].
  cbv beta iota.
  apply (safe_read g σ); [|by split]. intros g2 [Hs2 Ha2]. exists south.
  split; [by rewrite (shrinks_items_south_of g g2)|].
  apply (safe_read g σ); [|by split]. intros g3 [Hs3 Ha3]. exists east.
  split; [by rewrite (shrinks_items_east_of g g3)|].
  apply (safe_bind g σ); [| |by split].
  - apply safe_uniques_direction. by rewrite Hsrun.
  - intros changed'. apply safe_uniques_direction. by rewrite Herun.
Qed.

(** X16. Pass A is sound: on a well-formed grid that allows a filling which
    solves the puzzle, [discard_from_uniques] returns, none of its
    assertions failing, and the grid it leaves still allows that filling. *)
Theorem discard_from_uniques_sound g σ :
  well_formed g → solution g σ → allows g σ →
  ∃ changed g',
    discard_from_uniques set_iter g = (Ok changed, g') ∧ allows g' σ.
Proof.
  intros Hwf Hsol Hg.
  destruct (safe_result g σ _ (safe_discard_from_uniques g σ Hwf Hsol) Hg)
    as (changed & g' & Hrun & _ & Hg').
  eauto.
Qed.


End Soundness.

(** Pass A on a row of two open cells with target 17, met by 8 and 9. *)
Lemma discard_from_uniques_sound_witness :
  ∃ changed g',
    discard_from_uniques elements
      (mkKakuro 3 1 [Clue 0 17; Cell (range_set 1 10); Cell (range_set 1 10)])
    = (Ok changed, g')
    ∧ allows g' (λ i, if decide (i = 1%nat) then 8 else 9).
Proof.
  apply (discard_from_uniques_sound elements elements_order_Z
           (mkKakuro 3 1
              [Clue 0 17; Cell (range_set 1 10); Cell (range_set 1 10)])
           (λ i, if decide (i = 1%nat) then 8 else 9)).
  - unfold well_formed. simpl. lia.
  - intros idx v h Hidx.
    destruct idx as [|[|[|idx]]]; simplify_eq/=. split.
    + split; [constructor|]. split; [by intros i ?%elem_of_nil|done].
    + split; [|split].
      * vm_compute. repeat constructor; rewrite ?elem_of_cons, ?elem_of_nil; lia.
      * intros i Hi. case_decide; lia.
      * reflexivity.
  - intros i c Hi. destruct i as [|[|[|i]]]; simplify_eq/=;
      apply elem_of_range_set; lia.
Defined.

(** *** The test of Pass B *)

Lemma elem_of_product {A} (pools : list (list A)) (c : list A) :
  c ∈ product pools ↔ Forall2 (λ x pool, x ∈ pool) c pools.
Proof.
  revert c. induction pools as [|pool pools IH]; intros c; simpl.
  - rewrite list_elem_of_singleton. split.
    + intros ->. constructor.
    + by intros ->%Forall2_nil_inv_r.
  - rewrite list_elem_of_In, in_flat_map. split.
    + intros (x & Hx & Hc). apply in_map_iff in Hc as (c' & <- & Hc').
      constructor; [by apply list_elem_of_In|].
      by apply IH, list_elem_of_In.
    + intros Hc. apply Forall2_cons_inv_r in Hc as (x & c' & Hx & Hc' & ->).
      exists x. split; [by apply list_elem_of_In|].
      apply in_map_iff. exists c'. split; [done|].
      by apply list_elem_of_In, IH.
Qed.

Lemma supported_iff n x pools :
  supported n x pools = true
  ↔ ∃ p, Forall2 (λ y pool, y ∈ pool) p pools
         ∧ NoDup (x :: p) ∧ (∀ y, y ∈ x :: p → 1 ≤ y ≤ 9)
         ∧ n = sum p + x.
Proof.
  unfold supported. rewrite existsb_exists. split.
  - intros (p & Hp & Hsum).
    apply list_elem_of_In, list_elem_of_filter in Hp as [Hvalid Hp].
    apply valid_combination_iff in Hvalid as [Hnodup Hdigits].
    apply bool_decide_eq_true in Hsum. apply elem_of_product in Hp.
    by exists p.
  - intros (p & Hp & Hnodup & Hdigits & Hsum). exists p. split.
    + apply list_elem_of_In, list_elem_of_filter. split.
      * by apply valid_combination_iff.
      * by apply elem_of_product.
    + by apply bool_decide_eq_true.
Qed.

(** X17. What Pass B removes from a cell with candidates [c], the pools being
    the candidates of the other pending cells of its run: the digits x of
    [c] for which no choice of one candidate per pool makes, together
    with x, a tuple of pairwise distinct digits of 1..9 whose sum is the
    residual target. *)
Theorem unsupported_spec n c pools x :
  x ∈ unsupported n c pools
  ↔ x ∈ c
    ∧ ¬ ∃ p, Forall2 (λ y pool, y ∈ pool) p pools
             ∧ NoDup (x :: p) ∧ (∀ y, y ∈ x :: p → 1 ≤ y ≤ 9)
             ∧ n = sum p + x.
Proof.
  unfold unsupported. rewrite elem_of_filter, <- supported_iff.
  rewrite not_true_iff_false. tauto.
Qed.

Lemma sum_fmap_ge (f : nat → Z) l :
  (∀ i, i ∈ l → 1 ≤ f i) → Z.of_nat (length l) ≤ sum (f <$> l).
Proof.
  induction l as [|i l IH]; intros Hl; [done|].
  rewrite fmap_cons. cbn [sum foldr length]. fold (sum (f <$> l)).
  assert (1 ≤ f i) by (apply Hl; left).
  assert (Z.of_nat (length l) ≤ sum (f <$> l))
    by (apply IH; intros j Hj; apply Hl; by right).
  lia.
Qed.

Section SoundnessB.

Variable set_iter : gset Z → list Z.
Hypothesis set_iter_perm : ∀ s, set_iter s ≡ₚ elements s.
Variable cell_set_iter : gset nat → list nat.
Hypothesis cell_set_iter_perm : ∀ s, cell_set_iter s ≡ₚ elements s.

(** A pending cell followed by the other ones, as Pass B lists them, is
    a rearrangement of the pending cells. *)
Lemma cell_set_iter_neighbors (pending : list nat) cell :
  NoDup pending → cell ∈ pending →
  cell :: cell_set_iter (list_to_set pending ∖ {[ cell ]}) ≡ₚ pending.
Proof.
  intros Hnodup Hcell.
  rewrite (cell_set_iter_perm _).
  rewrite <- (elements_list_to_set (C := gset nat) pending) at 2 by done.
  rewrite <- elements_union_singleton by set_solver.
  assert (Heq : {[ cell ]} ∪ (list_to_set pending ∖ {[ cell ]})
                = (list_to_set pending : gset nat)); [|by rewrite Heq].
  apply set_eq. intros y.
  rewrite elem_of_union, elem_of_difference, elem_of_singleton,
    elem_of_list_to_set.
  destruct (decide (y = cell)) as [->|]; naive_solver.
Qed.

Lemma safe_single_clues_loop g0 σ n (pending : list nat) changed :
  NoDup pending → cell_positions g0 pending → run_filled σ pending n →
  safe g0 σ (single_clues_loop set_iter cell_set_iter n
               (list_to_set pending) changed).
Proof.
  intros Hnodup Hcells (Hdistinct & Hdigits & Hsum).
  unfold cell_positions in Hcells. rewrite list.Forall_forall in Hcells.
  unfold single_clues_loop. apply safe_foldM.
  intros changed' cell Hcell.
  rewrite (cell_set_iter_perm _), elem_of_elements, elem_of_list_to_set
    in Hcell.
  set (neighbors := cell_set_iter (list_to_set pending ∖ {[ cell ]})).
  pose proof (cell_set_iter_neighbors pending cell Hnodup Hcell) as Hperm.
  fold neighbors in Hperm.
  assert (Hnb : ∀ i, i ∈ neighbors → i ∈ pending).
  { intros i Hi. rewrite <- Hperm. by right. }
  apply safe_read. intros g1 [Hs1 Ha1].
  destruct (Hcells cell Hcell) as [c0 Hc0].
  destruct (shrinks_lookup_cell g0 g1 cell c0 Hs1 Hc0) as (c & Hc & _).
  exists c. split; [unfold candidates_of; by rewrite Hc|].
  assert (Hcells1 : cell_positions g1 neighbors).
  { apply list.Forall_forall. intros i Hi.
    destruct (Hcells i (Hnb i Hi)) as [ci Hci].
    destruct (shrinks_lookup_cell g0 g1 i ci Hs1 Hci) as (ci' & Hci' & _).
    eauto. }
  eapply post_read_ok; [by apply cell_iter_eval|].
  apply (safe_bind g0 σ); [| |by split].
  2:{ intros b. apply safe_ret. }
  apply safe_substract; [eauto|].
  intros Hin. apply elem_of_filter in Hin as [Hfalse _].
  assert (Htrue : supported n (σ cell)
                    ((λ i, set_iter (cands_at g1 i)) <$> neighbors) = true);
    [|congruence].
  apply supported_iff. exists (σ <$> neighbors).
  assert (Hperm' : σ cell :: (σ <$> neighbors) ≡ₚ σ <$> pending).
  { by rewrite <- Hperm. }
  split; [|split; [|split]].
  - apply Forall2_fmap, Forall_Forall2_diag, list.Forall_forall.
    intros i Hi. rewrite (set_iter_perm _), elem_of_elements.
    unfold cell_positions in Hcells1.
    rewrite list.Forall_forall in Hcells1.
    destruct (Hcells1 i Hi) as [ci Hci]. unfold cands_at. rewrite Hci.
    by eapply Ha1.
  - by rewrite Hperm'.
  - intros y Hy. rewrite Hperm' in Hy.
    apply list_elem_of_fmap in Hy as (i & -> & Hi). by apply Hdigits.
  - rewrite <- Hsum, <- (sum_perm _ _ Hperm'). simpl. lia.
Qed.

Lemma safe_single_clues_direction g0 σ n items changed :
  run_filled σ (contiguous g0 items) n →
  safe g0 σ (single_clues_direction set_iter cell_set_iter n
               (contiguous g0 items) changed).
Proof.
  intros Hrun g [Hs Ha].
  destruct (decide (n = 0)) as [->|Hn].
  { unfold single_clues_direction, post. simpl. by split. }
  assert (Hcells : cell_positions g0 (pending_at g items)).
  { apply list.Forall_forall. intros p Hp.
    apply list_elem_of_filter in Hp as [_ Hp].
    rewrite (shrinks_contiguous g0 g items Hs) in Hp.
    pose proof (cell_positions_contiguous g0 items) as Hc.
    unfold cell_positions in Hc. rewrite list.Forall_forall in Hc.
    by apply Hc. }
  rewrite <- (shrinks_contiguous g0 g items Hs) in *.
  destruct (run_filled_split σ g _ n Hrun Ha)
    as (Hvalues & Hnodup & Hfresh & Hpending).
  fold (pending_at g items) (uniques_at g items) in *.
  unfold post.
  rewrite (single_clues_direction_run set_iter set_iter_perm
             cell_set_iter cell_set_iter_perm) by done.
  assert (Hres : residual_b g n items = n - sum (σ <$> uniques_at g items)).
  { unfold residual_b. by rewrite Hvalues. }
  rewrite Hres.
  pose proof Hpending as (Hpd & Hpdigits & Hpsum).
  assert (Hlen : Z.of_nat (length (pending_at g items))
                 ≤ sum (σ <$> pending_at g items)).
  { apply sum_fmap_ge. intros i Hi. by apply Hpdigits. }
  rewrite Hpsum in Hlen.
  rewrite bool_decide_eq_true_2.
  2:{ destruct (pending_at g items) as [|p pending] eqn:Hp.
      - right. split; [done|]. simpl in Hpsum. lia.
      - left. split; [done|]. cbn [length] in Hlen. lia. }
  case_bool_decide; [by split|].
  apply (safe_single_clues_loop g0 σ); [|done|done|by split].
  by eapply NoDup_fmap_1.
Qed.

Lemma safe_discard_from_single_clues g σ :
  well_formed g → solution g σ →
  safe g σ (discard_from_single_clues set_iter cell_set_iter).
Proof.
  intros Hwf Hsol. unfold discard_from_single_clues.
  apply safe_read. intros g' [Hs Ha]. eexists. split; [done|].
  rewrite (shrinks_clues g g' Hs), clues_well_formed by done.
  apply safe_foldM; [|by split].
  intros changed item Hitem.
  apply list_elem_of_fmap in Hitem as ([[idx v] h] & -> & Hin).
  apply elem_of_clue_entries in Hin.
  assert (Hidx : (idx < length (data g))%nat) by by eapply lookup_lt_Some.
  destruct (items_south_of_run g idx Hwf Hidx) as (south & Hsouth & Hsrun).
  destruct (items_east_of_run g idx Hwf Hidx) as (east & Heast & Herun).
  destruct (Hsol idx v h Hin) as [Hv Hh].
  apply safe_read. intros g1 [Hs1 Ha1]. eexists. split; [done|].
  cbv beta iota.
  apply (safe_read g σ); [|by split]. intros g2 [Hs2 Ha2]. exists south.
  split; [by rewrite (shrinks_items_south_of g g2)|].
  apply (safe_read g σ); [|by split]. intros g3 [Hs3 Ha3]. exists east.
  split; [by rewrite (shrinks_items_east_of g g3)|].
  apply (safe_read g σ); [|by split]. intros g4 [Hs4 Ha4].
  exists (contiguous g south).
  split; [by rewrite (shrinks_contiguous g g4)|].
  apply (safe_read g σ); [|by split]. intros g5 [Hs5 Ha5].
  exists (contiguous g east).
  split; [by rewrite (shrinks_contiguous g g5)|].
  apply (safe_bind g σ); [| |by split].
  - apply safe_single_clues_direction. by rewrite Hsrun.
  - intros changed'. apply safe_single_clues_direction. by rewrite Herun.
Qed.

(** X18. Pass B is sound: on a well-formed grid that allows a filling which
    solves the puzzle, [discard_from_single_clues] returns, its assertion
    holding for every run, and the grid it leaves still allows that
    filling. *)
Theorem discard_from_single_clues_sound g σ :
  well_formed g → solution g σ → allows g σ →
  ∃ changed g',
    discard_from_single_clues set_iter cell_set_iter g = (Ok changed, g')
    ∧ allows g' σ.
Proof.
  intros Hwf Hsol Hg.
  destruct (safe_result g σ _
              (safe_discard_from_single_clues g σ Hwf Hsol) Hg)
    as (changed & g' & Hrun & _ & Hg').
  eauto.
Qed.

End SoundnessB.

(** Pass B on a row of two open cells with target 17, met by 8 and 9. *)
Lemma discard_from_single_clues_sound_witness :
  ∃ changed g',
    discard_from_single_clues elements elements
      (mkKakuro 3 1 [Clue 0 17; Cell (range_set 1 10); Cell (range_set 1 10)])
    = (Ok changed, g')
    ∧ allows g' (λ i, if decide (i = 1%nat) then 8 else 9).
Proof.
  apply (discard_from_single_clues_sound elements elements_order_Z
           elements elements_order_nat
           (mkKakuro 3 1
              [Clue 0 17; Cell (range_set 1 10); Cell (range_set 1 10)])
           (λ i, if decide (i = 1%nat) then 8 else 9)).
  - unfold well_formed. simpl. lia.
  - intros idx v h Hidx.
    destruct idx as [|[|[|idx]]]; simplify_eq/=. split.
    + split; [constructor|]. split; [by intros i ?%elem_of_nil|done].
    + split; [|split].
      * vm_compute. repeat constructor; rewrite ?elem_of_cons, ?elem_of_nil; lia.
      * intros i Hi. case_decide; lia.
      * reflexivity.
  - intros i c Hi. destruct i as [|[|[|i]]]; simplify_eq/=;
      apply elem_of_range_set; lia.
Defined.

(** ** The loop of solve *)

(** The number of candidates the grid holds, all cells taken together. *)
Definition entry_weight (e : entry) : nat :=
  match e with
  | Cell c => size c
  | Clue _ _ => 0%nat
  end.

Definition total_candidates (g : Kakuro) : nat :=
  foldr (λ e n, entry_weight e + n)%nat 0%nat (data g).

Lemma entry_shrinks_weight e e' :
  entry_shrinks e e' →
  (entry_weight e' ≤ entry_weight e)%nat
  ∧ (e ≠ e' → (entry_weight e' < entry_weight e)%nat).
Proof.
  destruct e as [c|v h], e' as [c'|v' h']; simpl; try done.
  - intros Hsub. split; [by apply subseteq_size|]. intros Hne.
    apply subset_size. split; [done|]. intros Hsup. apply Hne. f_equal.
    apply set_eq. intros x. split; [apply Hsup|apply Hsub].
  - intros [-> ->]. split; [done|]. by intros [].
Qed.

Lemma Forall2_shrinks_weight d d' :
  Forall2 entry_shrinks d d' →
  (foldr (λ e n, entry_weight e + n) 0 d'
   ≤ foldr (λ e n, entry_weight e + n) 0 d)%nat
  ∧ (d ≠ d' →
     (foldr (λ e n, entry_weight e + n) 0 d'
      < foldr (λ e n, entry_weight e + n) 0 d)%nat).
Proof.
  induction 1 as [|e e' d d' He _ [IHle IHlt]]; [by split|].
  cbn [foldr].
  destruct (entry_shrinks_weight e e' He) as [Hle Hlt].
  split; [lia|]. intros Hne.
  destruct (decide (e = e')) as [->|Hee].
  - assert (Hd : d ≠ d') by congruence. specialize (IHlt Hd). lia.
  - specialize (Hlt Hee). lia.
Qed.

Lemma tracks_total g changed g' :
  tracks g changed g' →
  (total_candidates g' ≤ total_candidates g)%nat
  ∧ (changed = true → (total_candidates g' < total_candidates g)%nat).
Proof.
  intros [(Hw & Hh & Hd) Hch].
  destruct (Forall2_shrinks_weight _ _ Hd) as [Hle Hlt].
  split; [done|]. intros Htrue. apply Hlt. intros Heq.
  apply Hch in Htrue. apply Htrue.
  destruct g, g'. simpl in *. congruence.
Qed.

Section Solve.

Variable set_iter : gset Z → list Z.
Variable cell_set_iter : gset nat → list nat.

(** One turn of the loop of [solve]. *)
Lemma solve_loop_S fuel g :
  solve_loop set_iter cell_set_iter (S fuel) g
  = match discard_from_uniques set_iter g with
    | (Ok true, g1) => solve_loop set_iter cell_set_iter fuel g1
    | (Ok false, g1) =>
        match discard_from_single_clues set_iter cell_set_iter g1 with
        | (Ok true, g2) => solve_loop set_iter cell_set_iter fuel g2
        | (Ok false, g2) =>
            match crack set_iter g2 with
            | (Ok _, g3) => (Ok (Some ()), g3)
            | (Raise e, g3) => (Raise e, g3)
            end
        | (Raise e, g2) => (Raise e, g2)
        end
    | (Raise e, g1) => (Raise e, g1)
    end.
Proof.
  cbn [solve_loop]. unfold mbind at 1, M_bind at 1.
  destruct (discard_from_uniques set_iter g) as [[[]|e] g1]; [done| |done].
  unfold mbind at 1, M_bind at 1.
  destruct (discard_from_single_clues set_iter cell_set_iter g1)
    as [[[]|e] g2]; [done| |done].
  unfold mbind, M_bind.
  by destruct (crack set_iter g2) as [[b|e] g3].
Qed.

(** [Kakuro.solve]: the loop with a bound it does not reach. *)
Definition solve (g : Kakuro) : outcome (option unit) * Kakuro :=
  solve_loop set_iter cell_set_iter (S (total_candidates g)) g.

Lemma solve_loop_enough fuel fuel' g :
  (total_candidates g < fuel)%nat → (total_candidates g < fuel')%nat →
  solve_loop set_iter cell_set_iter fuel g
  = solve_loop set_iter cell_set_iter fuel' g
  ∧ (solve_loop set_iter cell_set_iter fuel g).1 ≠ Ok None.
Proof.
  revert fuel' g. induction fuel as [|fuel IH]; intros fuel' g Hf Hf'; [lia|].
  destruct fuel' as [|fuel']; [lia|].
  rewrite !solve_loop_S.
  pose proof (narrows_discard_from_uniques set_iter g) as H1.
  unfold post in H1.
  destruct (discard_from_uniques set_iter g) as [[[]|e] g1]; [| |done].
  - destruct (tracks_total _ _ _ H1) as [_ Hlt]. specialize (Hlt eq_refl).
    apply IH; lia.
  - destruct (tracks_total _ _ _ H1) as [Hle _].
    pose proof (narrows_discard_from_single_clues set_iter cell_set_iter g1)
      as H2.
    unfold post in H2.
    destruct (discard_from_single_clues set_iter cell_set_iter g1)
      as [[[]|e] g2]; [| |done].
    + destruct (tracks_total _ _ _ H2) as [_ Hlt]. specialize (Hlt eq_refl).
      apply IH; lia.
    + by destruct (crack set_iter g2) as [[b|e] g3].
Qed.

(** X19. The loop of [solve] terminates: a turn is repeated only after a pass
    removed a candidate, so a number of turns above the number of
    candidates of the grid is never used up, and every such bound gives
    the same result, that of [solve]. *)
Theorem solve_terminates fuel g :
  (total_candidates g < fuel)%nat →
  solve_loop set_iter cell_set_iter fuel g = solve g
  ∧ (solve g).1 ≠ Ok None.
Proof.
  intros Hfuel. unfold solve.
  destruct (solve_loop_enough fuel (S (total_candidates g)) g Hfuel
              ltac:(lia)) as [Heq Hne].
  split; [done|]. by rewrite <- Heq.
Qed.

End Solve.

(** A row of two open cells holds 18 candidates. *)
Lemma solve_terminates_witness :
  solve_loop elements elements 19
    (mkKakuro 3 1 [Clue 0 17; Cell (range_set 1 10); Cell (range_set 1 10)])
  = solve elements elements
      (mkKakuro 3 1 [Clue 0 17; Cell (range_set 1 10); Cell (range_set 1 10)])
  ∧ (solve elements elements
       (mkKakuro 3 1
          [Clue 0 17; Cell (range_set 1 10); Cell (range_set 1 10)])).1
    ≠ Ok None.
Proof.
  apply (solve_terminates elements elements 19
           (mkKakuro 3 1
              [Clue 0 17; Cell (range_set 1 10); Cell (range_set 1 10)])).
  vm_compute. lia.
Defined.

(** ** What the search and solve leave *)

Lemma well_formed_shrinks g g' : shrinks g g' → well_formed g → well_formed g'.
Proof.
  intros (Hw & Hh & Hd) (H1 & H2 & H3). apply Forall2_length in Hd.
  unfold well_formed. rewrite Hw, Hh, <- Hd. done.
Qed.

Lemma run_from_ext d d' pos step fuel :
  (∀ i, from_option is_Cell false (d' !! i)
        = from_option is_Cell false (d !! i)) →
  run_from d' pos step fuel = run_from d pos step fuel.
Proof.
  intros Hext. revert pos. induction fuel as [|fuel IH]; intros pos; [done|].
  simpl. specialize (Hext pos).
  destruct (d !! pos) as [[c|v h]|], (d' !! pos) as [[c'|v' h']|];
    simpl in Hext; try done.
  by rewrite IH.
Qed.

Lemma shrinks_south_run g g' idx :
  shrinks g g' → south_run g' idx = south_run g idx.
Proof.
  intros Hs. pose proof Hs as (Hw & Hh & Hd). apply Forall2_length in Hd.
  unfold south_run. rewrite Hw, <- Hd.
  apply run_from_ext. intros i. by apply shrinks_is_Cell.
Qed.

Lemma shrinks_east_run g g' idx :
  shrinks g g' → east_run g' idx = east_run g idx.
Proof.
  intros Hs. pose proof Hs as (Hw & Hh & Hd). apply Forall2_length in Hd.
  unfold east_run, row_of. rewrite Hw, <- Hd.
  apply run_from_ext. intros i. rewrite !lookup_take.
  case_decide; [by apply shrinks_is_Cell|done].
Qed.

Lemma shrinks_lookup_clue_inv g g' i v h :
  shrinks g g' → data g' !! i = Some (Clue v h) →
  data g !! i = Some (Clue v h).
Proof.
  intros (_ & _ & Hd) Hi.
  destruct (Forall2_lookup_r _ _ _ _ _ Hd Hi) as ([c|v' h'] & Hi' & He);
    simpl in He; [done|].
  by destruct He as [-> ->].
Qed.

Lemma solution_shrinks g g' σ :
  shrinks g g' → solution g σ → solution g' σ.
Proof.
  intros Hs Hsol idx v h Hidx.
  rewrite (shrinks_south_run g g' idx Hs), (shrinks_east_run g g' idx Hs).
  apply Hsol. by eapply shrinks_lookup_clue_inv.
Qed.

Lemma assigned_lookup_notin combination pending_cells g i :
  i ∉ pending_cells →
  data (assigned combination pending_cells g) !! i = data g !! i.
Proof.
  revert combination g.
  induction pending_cells as [|p pending_cells IH]; intros combination g Hi.
  - by rewrite assigned_nil_r.
  - destruct combination as [|x combination]; [done|].
    rewrite assigned_cons, IH by set_solver.
    apply with_candidates_lookup_ne. set_solver.
Qed.

Lemma assigned_dims combination pending_cells g :
  width (assigned combination pending_cells g) = width g
  ∧ height (assigned combination pending_cells g) = height g
  ∧ length (data (assigned combination pending_cells g)) = length (data g).
Proof.
  unfold assigned. generalize (zip combination pending_cells).
  intros l. revert g. induction l as [|xc l IH]; intros g; [done|].
  simpl. destruct (IH (with_candidates xc.2 {[ xc.1 ]} g)) as (-> & -> & ->).
  unfold with_candidates. simpl. by rewrite length_alter.
Qed.

Section Search.

Variable set_iter : gset Z → list Z.
Hypothesis set_iter_perm : ∀ s, set_iter s ≡ₚ elements s.

Lemma shrinks_assigned combination pending_cells g :
  NoDup pending_cells →
  Forall2 (λ x i, ∃ c, data g !! i = Some (Cell c) ∧ x ∈ c)
          combination pending_cells →
  shrinks g (assigned combination pending_cells g).
Proof.
  intros Hnodup Hall.
  destruct (assigned_dims combination pending_cells g) as (Hw & Hh & Hlen).
  split; [done|]. split; [done|].
  apply Forall2_same_length_lookup. split; [done|].
  intros j e e' He He'.
  destruct (decide (j ∈ pending_cells)) as [Hj|Hj].
  - apply list_elem_of_lookup_1 in Hj as [k Hk].
    destruct (lookup_lt_is_Some_2 combination k) as [x Hx].
    { pose proof Hall as Hlen'. apply Forall2_length in Hlen'.
      rewrite Hlen'. by eapply lookup_lt_Some. }
    destruct (Forall2_lookup_lr _ _ _ _ _ _ Hall Hx Hk) as (c & Hc & Hxc).
    rewrite (assigned_lookup set_iter set_iter_perm _ _ _ k j x c) in He'
      by done.
    simplify_eq. simpl. set_solver.
  - rewrite assigned_lookup_notin in He' by done. by simplify_eq.
Qed.

Lemma crack_combinations_candidates g c :
  c ∈ crack_combinations set_iter g
  ↔ Forall2 (λ x i, ∃ ci, data g !! i = Some (Cell ci) ∧ x ∈ ci)
            c (crack_pending g).
Proof.
  unfold crack_combinations. rewrite elem_of_product, Forall2_fmap_r.
  pose proof (cell_positions_crack_pending g) as Hcells.
  unfold cell_positions in Hcells. rewrite list.Forall_forall in Hcells.
  split; intros Hall.
  - apply Forall2_same_length_lookup. split; [by eapply Forall2_length|].
    intros k x i Hx Hi.
    pose proof (Forall2_lookup_lr _ _ _ _ _ _ Hall Hx Hi) as Hin.
    unfold compose in Hin. rewrite (set_iter_perm _), elem_of_elements in Hin.
    destruct (Hcells i) as [ci Hci]; [by eapply list_elem_of_lookup_2|].
    exists ci. split; [done|]. unfold cands_at in Hin. by rewrite Hci in Hin.
  - apply Forall2_same_length_lookup. split; [by eapply Forall2_length|].
    intros k x i Hx Hi.
    destruct (Forall2_lookup_lr _ _ _ _ _ _ Hall Hx Hi) as (ci & Hci & Hin).
    unfold compose. rewrite (set_iter_perm _), elem_of_elements.
    unfold cands_at. by rewrite Hci.
Qed.

Lemma shrinks_crack_combination g c :
  c ∈ crack_combinations set_iter g →
  shrinks g (assigned c (crack_pending g) g).
Proof.
  intros Hc. apply shrinks_assigned; [apply NoDup_crack_pending|].
  by apply crack_combinations_candidates.
Qed.

(** The search on a well-formed grid, with the grid it leaves. *)
Lemma crack_result g :
  well_formed g →
  ∃ b g', crack set_iter g = (Ok b, g')
          ∧ is_solved set_iter g' = Ok b ∧ shrinks g g'.
Proof.
  intros Hwf. rewrite (crack_run set_iter set_iter_perm) by done.
  destruct (filter _ (crack_combinations set_iter g)) as [|first rest]
    eqn:Hsol.
  - exists false. eexists. split; [done|].
    destruct (list.last (crack_combinations set_iter g)) as [c|] eqn:Hlast;
      simpl.
    + apply last_Some_elem_of in Hlast. split.
      * rewrite (is_solved_eval set_iter set_iter_perm)
          by by apply well_formed_assigned.
        f_equal. apply not_true_is_false. intros Htrue.
        assert (Hin : c ∈ filter
                  (λ c, solved_b (assigned c (crack_pending g) g) = true)
                  (crack_combinations set_iter g))
          by by apply list_elem_of_filter.
        rewrite Hsol in Hin. by apply elem_of_nil in Hin.
      * by apply shrinks_crack_combination.
    + split; [|done]. apply last_None in Hlast.
      unfold crack_combinations in Hlast.
      apply product_nil, list_elem_of_fmap in Hlast as (i & Hnil & Hi).
      symmetry in Hnil. apply (set_iter_nil set_iter set_iter_perm) in Hnil.
      apply list_elem_of_filter in Hi as [Hu Hi].
      apply elem_of_cell_entries in Hi as [c Hc].
      rewrite (is_solved_eval set_iter set_iter_perm) by done. f_equal.
      apply andb_false_iff. left. apply not_true_is_false. intros Hall.
      apply all_cells_unique_spec in Hall. specialize (Hall i c Hc).
      unfold unique_at in Hu. rewrite Hc in Hu. unfold is_unique in Hu.
      by rewrite bool_decide_eq_true_2 in Hu.
  - exists true. eexists. split; [done|].
    assert (Hin : first ∈ first :: rest) by left.
    rewrite <- Hsol in Hin. apply list_elem_of_filter in Hin as [Htrue Hin].
    split.
    + apply (is_solved_true_iff set_iter set_iter_perm);
        [by apply well_formed_assigned|done].
    + by apply shrinks_crack_combination.
Qed.

(** X20. The verdict of the search is that of the solved-check on the grid it
    leaves: on a well-formed grid [crack] returns, the value it returns
    is what [is_solved] then returns, and every cell it has set holds
    one of its former candidates. *)
Theorem crack_verdict g :
  well_formed g →
  ∃ b g', crack set_iter g = (Ok b, g')
          ∧ is_solved set_iter g' = Ok b ∧ shrinks g g'.
Proof. apply crack_result. Qed.

Variable cell_set_iter : gset nat → list nat.

Lemma shrinks_solve_loop fuel g :
  well_formed g →
  shrinks g (solve_loop set_iter cell_set_iter fuel g).2.
Proof.
  revert g. induction fuel as [|fuel IH]; intros g Hwf; [done|].
  rewrite solve_loop_S.
  pose proof (narrows_discard_from_uniques set_iter g) as H1.
  unfold post in H1.
  destruct (discard_from_uniques set_iter g) as [[[]|e] g1]; [| |done].
  - destruct H1 as [H1 _]. etrans; [exact H1|].
    apply IH. by eapply well_formed_shrinks.
  - destruct H1 as [H1 _].
    pose proof (narrows_discard_from_single_clues set_iter cell_set_iter g1)
      as H2.
    unfold post in H2.
    destruct (discard_from_single_clues set_iter cell_set_iter g1)
      as [[[]|e] g2].
    + destruct H2 as [H2 _]. etrans; [exact H1|]. etrans; [exact H2|].
      apply IH. eapply well_formed_shrinks; [exact H2|].
      by eapply well_formed_shrinks.
    + destruct H2 as [H2 _].
      destruct (crack_result g2) as (b & g3 & Hrun & _ & H3).
      { eapply well_formed_shrinks; [exact H2|].
        by eapply well_formed_shrinks. }
      rewrite Hrun. simpl. etrans; [exact H1|]. by etrans.
    + simpl. by etrans.
Qed.

(** X21. Whatever [solve] does to a well-formed grid -- return or raise -- it
    leaves the dimensions and the clues as they were and every cell with
    a subset of the candidates it had. *)
Theorem solve_only_shrinks g :
  well_formed g → shrinks g (solve set_iter cell_set_iter g).2.
Proof. apply shrinks_solve_loop. Qed.

End Search.

(** The search on a small grid: a row of two open cells with target 17. *)
Lemma crack_verdict_witness :
  ∃ b g',
    crack elements
      (mkKakuro 3 1 [Clue 0 17; Cell (range_set 1 10); Cell (range_set 1 10)])
    = (Ok b, g')
    ∧ is_solved elements g' = Ok b
    ∧ shrinks
        (mkKakuro 3 1
           [Clue 0 17; Cell (range_set 1 10); Cell (range_set 1 10)]) g'.
Proof.
  apply (crack_verdict elements elements_order_Z
           (mkKakuro 3 1
              [Clue 0 17; Cell (range_set 1 10); Cell (range_set 1 10)])).
  unfold well_formed. simpl. lia.
Defined.

Lemma solve_only_shrinks_witness :
  shrinks
    (mkKakuro 3 1 [Clue 0 17; Cell (range_set 1 10); Cell (range_set 1 10)])
    (solve elements elements
       (mkKakuro 3 1
          [Clue 0 17; Cell (range_set 1 10); Cell (range_set 1 10)])).2.
Proof.
  apply (solve_only_shrinks elements elements_order_Z elements
           (mkKakuro 3 1
              [Clue 0 17; Cell (range_set 1 10); Cell (range_set 1 10)])).
  unfold well_formed. simpl. lia.
Defined.

(** ** Solvable puzzles are solved *)

Section Completeness.

Variable set_iter : gset Z → list Z.
Hypothesis set_iter_perm : ∀ s, set_iter s ≡ₚ elements s.

(** The grid in which every cell holds its digit of [σ] passes the
    solved-check when [σ] solves the puzzle. *)
Lemma solved_b_filled g σ :
  well_formed g → solution g σ →
  (∀ i c, data g !! i = Some (Cell c) → c = {[ σ i ]}) →
  solved_b g = true.
Proof.
  intros Hwf Hsol Hcells.
  assert (Hall : all_resolved g).
  { intros i c Hc. rewrite (Hcells i c Hc). apply size_singleton. }
  unfold solved_b. apply andb_true_iff.
  split; [by apply all_cells_unique_spec|].
  apply forallb_forall. intros [[idx v] h] Hin.
  apply list_elem_of_In, elem_of_clue_entries in Hin.
  assert (Hidx : (idx < length (data g))%nat) by by eapply lookup_lt_Some.
  apply (clue_check_spec set_iter set_iter_perm); [done..|].
  destruct (Hsol idx v h Hin) as [Hv Hh].
  assert (Hrun : ∀ run target,
            cell_positions g run → run_filled σ run target →
            run_solved g run target).
  { intros run target Hrun (Hnodup & _ & Hsum). exists (σ <$> run).
    split; [|done].
    apply Forall2_fmap_r, Forall_Forall2_diag.
    eapply list.Forall_impl; [exact Hrun|]. intros i [c Hc]. unfold compose.
    by rewrite Hc, (Hcells i c Hc). }
  split; apply Hrun; try done.
  - by apply cell_positions_south_run.
  - by apply cell_positions_east_run.
Qed.

Lemma crack_solves g σ :
  well_formed g → solution g σ → allows g σ →
  ∃ g', crack set_iter g = (Ok true, g') ∧ is_solved set_iter g' = Ok true.
Proof.
  intros Hwf Hsol Hg.
  set (c := σ <$> crack_pending g).
  pose proof (cell_positions_crack_pending g) as Hcells.
  unfold cell_positions in Hcells. rewrite list.Forall_forall in Hcells.
  assert (Hc : c ∈ crack_combinations set_iter g).
  { apply crack_combinations_candidates; [done|].
    apply Forall2_fmap_l, Forall_Forall2_diag, list.Forall_forall.
    intros i Hi. destruct (Hcells i Hi) as [ci Hci].
    exists ci. split; [done|]. by eapply Hg. }
  assert (Hsolved : solved_b (assigned c (crack_pending g) g) = true).
  { apply (solved_b_filled _ σ).
    - by apply well_formed_assigned.
    - eapply solution_shrinks; [|done].
      by apply (shrinks_crack_combination set_iter set_iter_perm).
    - intros i ci Hi.
      destruct (decide (i ∈ crack_pending g)) as [Hp|Hp].
      + destruct (Hcells i Hp) as [c0 Hc0].
        apply list_elem_of_lookup_1 in Hp as [k Hk].
        rewrite (assigned_lookup set_iter set_iter_perm _ _ _ k i (σ i) c0)
          in Hi; [by simplify_eq|apply NoDup_crack_pending|done| |done].
        unfold c. by rewrite list_lookup_fmap, Hk.
      + rewrite assigned_lookup_notin in Hi by done.
        assert (Hu : unique_at g i = true).
        { destruct (unique_at g i) eqn:Hu; [done|]. exfalso. apply Hp.
          apply list_elem_of_filter. split; [done|].
          apply elem_of_cell_entries. eauto. }
        unfold unique_at in Hu. rewrite Hi in Hu.
        apply is_unique_inv in Hu as [x ->].
        specialize (Hg i _ Hi). apply elem_of_singleton in Hg.
        by rewrite Hg. }
  rewrite (crack_run set_iter set_iter_perm) by done.
  destruct (filter _ (crack_combinations set_iter g)) as [|first rest]
    eqn:Hsol'.
  - exfalso.
    assert (Hin : c ∈ filter
              (λ c, solved_b (assigned c (crack_pending g) g) = true)
              (crack_combinations set_iter g))
      by by apply list_elem_of_filter.
    rewrite Hsol' in Hin. by apply elem_of_nil in Hin.
  - eexists. split; [done|].
    assert (Hin : first ∈ first :: rest) by left.
    rewrite <- Hsol' in Hin. apply list_elem_of_filter in Hin as [Htrue Hin].
    apply (is_solved_true_iff set_iter set_iter_perm);
      [by apply well_formed_assigned|done].
Qed.

Variable cell_set_iter : gset nat → list nat.
Hypothesis cell_set_iter_perm : ∀ s, cell_set_iter s ≡ₚ elements s.

Lemma solve_loop_solves σ fuel g :
  (total_candidates g < fuel)%nat →
  well_formed g → solution g σ → allows g σ →
  ∃ g', solve_loop set_iter cell_set_iter fuel g = (Ok (Some ()), g')
        ∧ is_solved set_iter g' = Ok true.
Proof.
  revert g. induction fuel as [|fuel IH]; intros g Hfuel Hwf Hsol Hg; [lia|].
  rewrite solve_loop_S.
  destruct (safe_result g σ _
              (safe_discard_from_uniques set_iter set_iter_perm g σ Hwf Hsol)
              Hg) as (ch1 & g1 & Hrun1 & Hs1 & Hg1).
  pose proof (narrows_discard_from_uniques set_iter g) as H1.
  unfold post in H1. rewrite Hrun1 in *.
  destruct (tracks_total _ _ _ H1) as [Hle1 Hlt1].
  pose proof (well_formed_shrinks g g1 Hs1 Hwf) as Hwf1.
  pose proof (solution_shrinks g g1 σ Hs1 Hsol) as Hsol1.
  destruct ch1.
  { apply IH; try done. specialize (Hlt1 eq_refl). lia. }
  destruct (safe_result g1 σ _
              (safe_discard_from_single_clues set_iter set_iter_perm
                 cell_set_iter cell_set_iter_perm g1 σ Hwf1 Hsol1) Hg1)
    as (ch2 & g2 & Hrun2 & Hs2 & Hg2).
  pose proof (narrows_discard_from_single_clues set_iter cell_set_iter g1)
    as H2.
  unfold post in H2. rewrite Hrun2 in *.
  destruct (tracks_total _ _ _ H2) as [Hle2 Hlt2].
  pose proof (well_formed_shrinks g1 g2 Hs2 Hwf1) as Hwf2.
  pose proof (solution_shrinks g1 g2 σ Hs2 Hsol1) as Hsol2.
  destruct ch2.
  { apply IH; try done. specialize (Hlt2 eq_refl). lia. }
  destruct (crack_solves g2 σ Hwf2 Hsol2 Hg2) as (g3 & Hrun3 & Hsolved).
  rewrite Hrun3. eauto.
Qed.

(** X22. [solve] is complete: on a well-formed grid whose candidates allow a
    filling that solves the puzzle -- in every run of every clue pairwise
    distinct digits of 1..9 that sum to the target -- it returns, no
    assertion failing, and leaves a grid that passes the solved-check. *)
Theorem solve_complete g σ :
  well_formed g → solution g σ → allows g σ →
  ∃ g', solve set_iter cell_set_iter g = (Ok (Some ()), g')
        ∧ is_solved set_iter g' = Ok true.
Proof.
  intros Hwf Hsol Hg. unfold solve. apply (solve_loop_solves σ); try done.
  lia.
Qed.

End Completeness.

(** A row of two open cells with target 17, solved by 8 and 9. *)
Lemma solve_complete_witness :
  ∃ g',
    solve elements elements
      (mkKakuro 3 1 [Clue 0 17; Cell (range_set 1 10); Cell (range_set 1 10)])
    = (Ok (Some ()), g')
    ∧ is_solved elements g' = Ok true.
Proof.
  apply (solve_complete elements elements_order_Z elements elements_order_nat
           (mkKakuro 3 1
              [Clue 0 17; Cell (range_set 1 10); Cell (range_set 1 10)])
           (λ i, if decide (i = 1%nat) then 8 else 9)).
  - unfold well_formed. simpl. lia.
  - intros idx v h Hidx.
    destruct idx as [|[|[|idx]]]; simplify_eq/=. split.
    + split; [constructor|]. split; [by intros i ?%elem_of_nil|done].
    + split; [|split].
      * vm_compute. repeat constructor; rewrite ?elem_of_cons, ?elem_of_nil; lia.
      * intros i Hi. case_decide; lia.
      * reflexivity.
  - intros i c Hi. destruct i as [|[|[|i]]]; simplify_eq/=;
      apply elem_of_range_set; lia.
Defined.

(** ** A solved grid is left alone *)

Lemma foldM_fixed {A S} (body : S → A → M S) l s g :
  (∀ s a, a ∈ l → body s a g = (Ok s, g)) →
  foldM body s l g = (Ok s, g).
Proof.
  induction l as [|a l IH]; intros Hbody; [done|].
  cbn [foldM]. erewrite bind_ok; [|apply Hbody; left].
  apply IH. intros s' a' Ha'. apply Hbody. by right.
Qed.

Section SolvedGrid.

Variable set_iter : gset Z → list Z.
Hypothesis set_iter_perm : ∀ s, set_iter s ≡ₚ elements s.

Lemma resolved_run_partition g items :
  all_resolved g →
  uniques_at g items = contiguous g items ∧ pending_at g items = [].
Proof.
  intros Hall.
  pose proof (all_resolved_unique_at g _ Hall
                (cell_positions_contiguous g items)) as Hu.
  split.
  - unfold uniques_at. by apply filter_all.
  - unfold pending_at. apply filter_none.
    eapply list.Forall_impl; [exact Hu|]. intros i Hi. by rewrite Hi.
Qed.

Lemma uniques_direction_solved g items n changed :
  all_resolved g →
  has_duplicates (value_at g <$> contiguous g items) = false →
  n = sum (value_at g <$> contiguous g items) →
  uniques_direction set_iter n items changed g = (Ok changed, g).
Proof.
  intros Hall Hdup Hsum.
  destruct (decide (n = 0)) as [Hn|Hn].
  { unfold uniques_direction. by rewrite bool_decide_eq_true_2. }
  destruct (resolved_run_partition g items Hall) as [Hu Hp].
  apply (has_duplicates_false set_iter set_iter_perm) in Hdup.
  assert (Hused : used_at g items
                  = list_to_set (value_at g <$> contiguous g items)).
  { unfold used_at. by rewrite Hu. }
  rewrite (uniques_direction_run set_iter set_iter_perm);
    [|done|by rewrite Hused, Hu, size_list_to_set, length_fmap].
  assert (Hres : residual_at g n items = 0).
  { unfold residual_at. rewrite Hused.
    rewrite (sum_perm _ _ (elements_list_to_set _ Hdup)). lia. }
  rewrite Hp, Hres. unfold uniques_tail, substract_loop.
  erewrite bind_ok by reflexivity.
  by rewrite bool_decide_eq_false_2 by (intros Hne; by apply Hne).
Qed.

(** What the solved-check has found, clue by clue. *)
Lemma solved_b_clue g idx v h :
  solved_b g = true → data g !! idx = Some (Clue v h) →
  all_resolved g
  ∧ has_duplicates (value_at g <$> south_run g idx) = false
  ∧ v = sum (value_at g <$> south_run g idx)
  ∧ has_duplicates (value_at g <$> east_run g idx) = false
  ∧ h = sum (value_at g <$> east_run g idx).
Proof.
  intros [Hall Hclues]%andb_true_iff Hidx.
  split; [by apply all_cells_unique_spec|].
  rewrite forallb_forall in Hclues.
  specialize (Hclues (idx, v, h)). unfold clue_check in Hclues.
  apply andb_true_iff in Hclues as [Hdup Hsum].
  2:{ by apply list_elem_of_In, elem_of_clue_entries. }
  apply negb_true_iff, orb_false_iff in Hdup as [Hduph Hdupv].
  apply negb_true_iff, orb_false_iff in Hsum as [Hsumv Hsumh].
  apply bool_decide_eq_false in Hsumv, Hsumh.
  repeat split; try done.
  - destruct (decide (v = sum (value_at g <$> south_run g idx))); [done|].
    by destruct Hsumv.
  - destruct (decide (h = sum (value_at g <$> east_run g idx))); [done|].
    by destruct Hsumh.
Qed.

Lemma discard_from_uniques_solved g :
  well_formed g → solved_b g = true →
  discard_from_uniques set_iter g = (Ok false, g).
Proof.
  intros Hwf Hsolved. unfold discard_from_uniques.
  erewrite bind_ok by reflexivity. rewrite clues_well_formed by done.
  apply foldM_fixed. intros changed item Hitem.
  apply list_elem_of_fmap in Hitem as ([[idx v] h] & -> & Hin).
  apply elem_of_clue_entries in Hin.
  assert (Hidx : (idx < length (data g))%nat) by by eapply lookup_lt_Some.
  destruct (items_south_of_run g idx Hwf Hidx) as (south & Hsouth & Hsrun).
  destruct (items_east_of_run g idx Hwf Hidx) as (east & Heast & Herun).
  destruct (solved_b_clue g idx v h Hsolved Hin)
    as (Hall & Hdv & Hsv & Hdh & Hsh).
  erewrite bind_ok by reflexivity. cbv beta iota.
  erewrite bind_ok by by apply read_ok.
  erewrite bind_ok by by apply read_ok.
  erewrite bind_ok
    by (apply uniques_direction_solved; [done|by rewrite Hsrun..]).
  apply uniques_direction_solved; [done|by rewrite Herun..].
Qed.

Variable cell_set_iter : gset nat → list nat.
Hypothesis cell_set_iter_perm : ∀ s, cell_set_iter s ≡ₚ elements s.

Lemma single_clues_direction_solved g items n changed :
  all_resolved g →
  n = sum (value_at g <$> contiguous g items) →
  single_clues_direction set_iter cell_set_iter n (contiguous g items)
    changed g
  = (Ok changed, g).
Proof.
  intros Hall Hsum.
  destruct (decide (n = 0)) as [Hn|Hn].
  { unfold single_clues_direction. by rewrite bool_decide_eq_true_2. }
  destruct (resolved_run_partition g items Hall) as [Hu Hp].
  rewrite (single_clues_direction_run set_iter set_iter_perm
             cell_set_iter cell_set_iter_perm) by done.
  assert (Hres : residual_b g n items = 0).
  { unfold residual_b. rewrite Hu. lia. }
  rewrite Hp, Hres.
  rewrite bool_decide_eq_true_2 by (right; done).
  by rewrite bool_decide_eq_true_2.
Qed.

Lemma discard_from_single_clues_solved g :
  well_formed g → solved_b g = true →
  discard_from_single_clues set_iter cell_set_iter g = (Ok false, g).
Proof.
  intros Hwf Hsolved. unfold discard_from_single_clues.
  erewrite bind_ok by reflexivity. rewrite clues_well_formed by done.
  apply foldM_fixed. intros changed item Hitem.
  apply list_elem_of_fmap in Hitem as ([[idx v] h] & -> & Hin).
  apply elem_of_clue_entries in Hin.
  assert (Hidx : (idx < length (data g))%nat) by by eapply lookup_lt_Some.
  destruct (items_south_of_run g idx Hwf Hidx) as (south & Hsouth & Hsrun).
  destruct (items_east_of_run g idx Hwf Hidx) as (east & Heast & Herun).
  destruct (solved_b_clue g idx v h Hsolved Hin)
    as (Hall & Hdv & Hsv & Hdh & Hsh).
  erewrite bind_ok by reflexivity. cbv beta iota.
  erewrite bind_ok by by apply read_ok.
  erewrite bind_ok by by apply read_ok.
  erewrite bind_ok by reflexivity.
  erewrite bind_ok by reflexivity.
  erewrite bind_ok
    by (apply single_clues_direction_solved; [done|by rewrite Hsrun]).
  apply single_clues_direction_solved; [done|by rewrite Herun].
Qed.

Lemma crack_solved g :
  well_formed g → solved_b g = true → crack set_iter g = (Ok true, g).
Proof.
  intros Hwf Hsolved.
  assert (Hall : all_resolved g).
  { apply andb_true_iff in Hsolved as [Hall _].
    by apply all_cells_unique_spec. }
  assert (Hpending : crack_pending g = []).
  { unfold crack_pending. apply filter_none, list.Forall_forall.
    intros i Hi Hfalse.
    pose proof (all_resolved_unique_at g _ Hall
                  (cell_positions_cell_entries g)) as Hunique.
    rewrite list.Forall_forall in Hunique. rewrite Hunique in Hfalse; done. }
  rewrite (crack_run set_iter set_iter_perm) by done.
  unfold crack_combinations. rewrite Hpending. cbn [fmap list_fmap product].
  rewrite filter_cons, assigned_nil_r.
  rewrite decide_True by done. by rewrite assigned_nil_r.
Qed.

(** X23. On a well-formed grid that passes the solved-check neither pass
    changes or rejects anything, and [solve] returns with the grid as it
    was. *)
Theorem solve_solved_grid g :
  well_formed g → is_solved set_iter g = Ok true →
  discard_from_uniques set_iter g = (Ok false, g)
  ∧ discard_from_single_clues set_iter cell_set_iter g = (Ok false, g)
  ∧ solve set_iter cell_set_iter g = (Ok (Some ()), g).
Proof.
  intros Hwf Hsolved.
  apply (is_solved_true_iff set_iter set_iter_perm) in Hsolved; [|done].
  split; [by apply discard_from_uniques_solved|].
  split; [by apply discard_from_single_clues_solved|].
  unfold solve. rewrite solve_loop_S.
  rewrite discard_from_uniques_solved, discard_from_single_clues_solved
    by done.
  by rewrite crack_solved.
Qed.

End SolvedGrid.

(** The row 17 = 8 + 9, solved. *)
Lemma solve_solved_grid_witness :
  discard_from_uniques elements
    (mkKakuro 3 1 [Clue 0 17; Cell {[ 8 ]}; Cell {[ 9 ]}])
  = (Ok false, mkKakuro 3 1 [Clue 0 17; Cell {[ 8 ]}; Cell {[ 9 ]}])
  ∧ discard_from_single_clues elements elements
      (mkKakuro 3 1 [Clue 0 17; Cell {[ 8 ]}; Cell {[ 9 ]}])
    = (Ok false, mkKakuro 3 1 [Clue 0 17; Cell {[ 8 ]}; Cell {[ 9 ]}])
  ∧ solve elements elements
      (mkKakuro 3 1 [Clue 0 17; Cell {[ 8 ]}; Cell {[ 9 ]}])
    = (Ok (Some ()), mkKakuro 3 1 [Clue 0 17; Cell {[ 8 ]}; Cell {[ 9 ]}]).
Proof.
  apply (solve_solved_grid elements elements_order_Z
           elements elements_order_nat
           (mkKakuro 3 1 [Clue 0 17; Cell {[ 8 ]}; Cell {[ 9 ]}])).
  - unfold well_formed. simpl. lia.
  - vm_compute. reflexivity.
Defined.


(** ** The narrowing of a single cell *)

Lemma lookup_table_single n :
  1 ≤ n ≤ 9 → lookup_table !! (n, 1) = Some {[ n ]}.
Proof.
  intros Hn.
  assert (Hcases : n = 1 ∨ n = 2 ∨ n = 3 ∨ n = 4 ∨ n = 5 ∨ n = 6
                   ∨ n = 7 ∨ n = 8 ∨ n = 9) by lia.
  destruct Hcases as [->|[->|[->|[->|[->|[->|[->|[->| ->]]]]]]]];
    vm_compute; reflexivity.
Qed.

Lemma Kakuro_eq g g' :
  width g = width g' → height g = height g' →
  (∀ j, data g !! j = data g' !! j) → g = g'.
Proof.
  destruct g as [w h d], g' as [w' h' d']. simpl. intros -> -> Hd.
  f_equal. by apply list_eq.
Qed.

Lemma intersect_all_dims s l g :
  width (intersect_all s l g) = width g
  ∧ height (intersect_all s l g) = height g.
Proof.
  revert g. induction l as [|i l IH]; intros g; [done|].
  cbn [intersect_all foldl].
  destruct (data g !! i) as [[ci|vi hi]|]; try apply IH.
  fold (intersect_all s l (with_candidates i (ci ∩ s) g)).
  by destruct (IH (with_candidates i (ci ∩ s) g)) as [-> ->].
Qed.

Lemma intersect_all_singleton s cell c g :
  data g !! cell = Some (Cell c) →
  intersect_all s [cell] g = with_candidates cell (c ∩ s) g.
Proof. intros Hc. unfold intersect_all. cbn [foldl]. by rewrite Hc. Qed.

(** X24. Called on one cell with a target of 1..9 the narrowing leaves the
    cell with that digit if it was a candidate, and with no candidate
    otherwise. *)
Theorem constrain_single_cell n cell c g :
  data g !! cell = Some (Cell c) → 1 ≤ n ≤ 9 →
  ∃ changed,
    constrain_cells_sum n [cell] g
    = (Ok changed, with_candidates cell (c ∩ {[ n ]}) g).
Proof.
  intros Hc Hn.
  destruct (constrain_cells_sum_feasible n [cell] g) as [changed Hrun].
  { apply list.Forall_cons. split; [eauto|constructor]. }
  { change (Z.of_nat (length [cell])) with 1.
    change (triangular 1) with 1. change (triangular_prime 1) with 9. lia. }
  exists changed. rewrite Hrun. f_equal.
  unfold constrained. change (Z.of_nat (length [cell])) with 1.
  rewrite lookup_table_single by done.
  rewrite (intersect_all_singleton _ cell c g Hc).
  rewrite (intersect_all_singleton _ cell (c ∩ {[ n ]}))
    by by eapply with_candidates_lookup.
  rewrite with_candidates_overwrite. f_equal.
  apply set_eq. intros x.
  rewrite !elem_of_intersection, elem_of_range_set, elem_of_singleton.
  unfold cellset_min, cellset_max.
  rewrite !bool_decide_eq_false_2 by lia. intuition lia.
Qed.

Lemma constrain_single_cell_witness :
  ∃ changed,
    constrain_cells_sum 4 [1%nat]
      (mkKakuro 2 1 [Clue 0 4; Cell (range_set 1 10)])
    = (Ok changed,
       with_candidates 1 (range_set 1 10 ∩ {[ 4 ]})
         (mkKakuro 2 1 [Clue 0 4; Cell (range_set 1 10)])).
Proof.
  apply (constrain_single_cell 4 1 (range_set 1 10)
           (mkKakuro 2 1 [Clue 0 4; Cell (range_set 1 10)])).
  - reflexivity.
  - lia.
Defined.

(** ** The feasibility check is exact *)

(** For every number of cells up to 9 and every target between the two
    extremal sums, some set of that many digits has the target as sum. *)
Definition reachable (K n : Z) : bool :=
  existsb (λ t, bool_decide (Z.of_nat (size t) = K)
                && bool_decide (set_sum t = n))
          (subsets (seqZ 1 9)).

Lemma targets_reachable :
  forallb (λ K, forallb (reachable K)
                  (seqZ (triangular K)
                        (triangular_prime K - triangular K + 1)))
          (seqZ 0 10)
  = true.
Proof. vm_compute. reflexivity. Qed.

Lemma triangular_step K : triangular (K + 1) = triangular K + K + 1.
Proof.
  unfold triangular.
  replace ((K + 1) * (K + 1 + 1)) with (K * (K + 1) + (K + 1) * 2) by lia.
  rewrite Z.div_add by lia. lia.
Qed.

Lemma triangular_nat (k : nat) :
  2 * triangular (Z.of_nat k) = Z.of_nat k * (Z.of_nat k + 1).
Proof.
  induction k as [|k IH]; [done|].
  rewrite Nat2Z.inj_succ, <- Z.add_1_r, triangular_step. lia.
Qed.

(** X25. The assertion of the narrowing, triangular(K) <= N <= triangular'(K),
    holds exactly when some K pairwise distinct digits of 1..9 sum to N;
    for more than 9 cells it fails whatever the target. *)
Theorem feasibility_exact (K : nat) (n : Z) :
  triangular (Z.of_nat K) ≤ n ≤ triangular_prime (Z.of_nat K)
  ↔ ∃ t : gset Z, t ⊆ digits ∧ size t = K ∧ set_sum t = n.
Proof.
  split.
  - intros Hn.
    assert (HK : Z.of_nat K ≤ 9).
    { pose proof (triangular_nat K) as Ht.
      unfold triangular_prime, triangular_prime_base in Hn. nia. }
    pose proof targets_reachable as Hall. rewrite forallb_forall in Hall.
    specialize (Hall (Z.of_nat K)).
    rewrite forallb_forall in Hall.
    assert (Hreach : reachable (Z.of_nat K) n = true).
    { apply Hall.
      - apply list_elem_of_In, elem_of_seqZ. lia.
      - apply list_elem_of_In, elem_of_seqZ. lia. }
    unfold reachable in Hreach. apply existsb_exists in Hreach
      as (t & Ht & Hcheck).
    apply andb_true_iff in Hcheck as [Hsize Hsum].
    apply bool_decide_eq_true in Hsize, Hsum.
    exists t. split; [|split; [lia|done]].
    clear -Ht. apply list_elem_of_In in Ht.
    assert (Hsub : ∀ l (t : gset Z), t ∈ subsets l → t ⊆ list_to_set l).
    { clear. induction l as [|x l IH]; intros t; simpl.
      - intros ->%list_elem_of_singleton. done.
      - rewrite elem_of_app, list_elem_of_fmap.
        intros [Ht|(s & -> & Hs)].
        + apply IH in Ht. set_solver.
        + apply IH in Hs. set_solver. }
    by apply Hsub in Ht.
  - intros (t & Ht & <- & <-). by apply digit_set_facts.
Qed.

(** ** Narrowing twice *)

Lemma constrained_lookup n cells g j :
  data (constrained n cells g) !! j
  = if decide (j ∈ cells)
    then match data g !! j with
         | Some (Cell c) =>
             Some (Cell
               (match lookup_table !! (n, Z.of_nat (length cells)) with
                | Some s => c ∩ s
                | None => c
                end
                ∩ range_set (cellset_min n (Z.of_nat (length cells)))
                            (cellset_max n (Z.of_nat (length cells)) + 1)))
         | o => o
         end
    else data g !! j.
Proof.
  unfold constrained. rewrite intersect_all_lookup.
  destruct (lookup_table !! (n, Z.of_nat (length cells))) as [s|].
  - rewrite intersect_all_lookup. case_decide; [|done].
    by destruct (data g !! j) as [[c|v h]|].
  - done.
Qed.

Lemma constrained_dims n cells g :
  width (constrained n cells g) = width g
  ∧ height (constrained n cells g) = height g.
Proof.
  unfold constrained.
  destruct (intersect_all_dims
              (range_set (cellset_min n (Z.of_nat (length cells)))
                         (cellset_max n (Z.of_nat (length cells)) + 1))
              cells
              (match lookup_table !! (n, Z.of_nat (length cells)) with
               | Some summands => intersect_all summands cells g
               | None => g
               end)) as [-> ->].
  destruct (lookup_table !! (n, Z.of_nat (length cells))) as [s|]; [|done].
  apply intersect_all_dims.
Qed.

Lemma constrained_idempotent n cells g :
  constrained n cells (constrained n cells g) = constrained n cells g.
Proof.
  apply Kakuro_eq.
  - apply constrained_dims.
  - apply constrained_dims.
  - intros j. rewrite (constrained_lookup n cells (constrained n cells g)).
    case_decide as Hj; [|done].
    rewrite constrained_lookup, decide_True by done.
    destruct (data g !! j) as [[c|v h]|]; [|done..].
    do 2 f_equal.
    destruct (lookup_table !! (n, Z.of_nat (length cells))) as [s|];
      set_solver.
Qed.

(** X26. The narrowing does all it can in one call: called again with the same
    target and cells it changes nothing and returns false. *)
Theorem constrain_cells_sum_idempotent n cells g :
  cell_positions g cells →
  triangular (Z.of_nat (length cells)) ≤ n
  ≤ triangular_prime (Z.of_nat (length cells)) →
  ∃ changed g',
    constrain_cells_sum n cells g = (Ok changed, g')
    ∧ constrain_cells_sum n cells g' = (Ok false, g').
Proof.
  intros Hcells Hpre.
  destruct (constrain_cells_sum_feasible n cells g Hcells Hpre)
    as [changed Hrun].
  exists changed, (constrained n cells g). split; [done|].
  assert (Hcells' : cell_positions (constrained n cells g) cells).
  { unfold constrained. apply cell_positions_intersect_all.
    destruct (lookup_table !! _); [|done].
    by apply cell_positions_intersect_all. }
  destruct (constrain_cells_sum_feasible n cells _ Hcells' Hpre)
    as [changed' Hrun'].
  rewrite constrained_idempotent in Hrun'.
  pose proof (narrows_constrain_cells_sum n cells (constrained n cells g))
    as Hn.
  unfold post in Hn. rewrite Hrun' in Hn. destruct Hn as [_ Hflag].
  destruct changed'; [|done].
  exfalso. by apply Hflag.
Qed.

Lemma constrain_cells_sum_idempotent_witness :
  ∃ changed g',
    constrain_cells_sum 17 [1%nat; 2%nat]
      (mkKakuro 3 1 [Clue 0 17; Cell (range_set 1 10); Cell (range_set 1 10)])
    = (Ok changed, g')
    ∧ constrain_cells_sum 17 [1%nat; 2%nat] g' = (Ok false, g').
Proof.
  apply (constrain_cells_sum_idempotent 17 [1%nat; 2%nat]
           (mkKakuro 3 1
              [Clue 0 17; Cell (range_set 1 10); Cell (range_set 1 10)])).
  - repeat constructor; eexists; reflexivity.
  - vm_compute. split; discriminate.
Defined.

(** ** How solve can fail *)

Lemma post_foldM_in {A S} (body : S → A → M S) (I : S → Kakuro → Prop)
    E l s g :
  (∀ s a g, a ∈ l → I s g → post (body s a) g I E) →
  I s g → post (foldM body s l) g I E.
Proof.
  revert s g. induction l as [|a l IH]; intros s g Hbody HI; simpl.
  - by apply post_ret.
  - apply post_bind. eapply post_then; [apply Hbody; [left|done]|].
    intros s' g' HI'. apply IH; [|done].
    intros s0 a0 g0 Ha0. apply Hbody. by right.
Qed.

Lemma substract_loop_ok s pending changed g :
  cell_positions g pending →
  ∃ changed' g',
    substract_loop s pending changed g = (Ok changed', g') ∧ shrinks g g'.
Proof.
  unfold substract_loop. revert changed g.
  induction pending as [|p pending IH]; intros changed g Hcells.
  - by exists changed, g.
  - apply list.Forall_cons in Hcells as [[c Hc] Hcells]. cbn [foldM].
    erewrite bind_ok; [|erewrite bind_ok; [|by apply substract_cell]; done].
    destruct (IH (bool_decide (size c ≠ size (c ∖ s)) || changed)
                (with_candidates p (c ∖ s) g)) as (ch & g' & Hrun & Hs).
    { by apply cell_positions_with_candidates. }
    exists ch, g'. split; [done|]. etrans; [|exact Hs].
    eapply shrinks_with_candidates; [done|set_solver].
Qed.

Section Failures.

Variable set_iter : gset Z → list Z.
Hypothesis set_iter_perm : ∀ s, set_iter s ≡ₚ elements s.

Lemma uniques_direction_asserts n items changed g :
  post (uniques_direction set_iter n items changed) g
       (λ _ g', shrinks g g') (λ e _, e = AssertionError).
Proof.
  unfold post.
  destruct (decide (n = 0)) as [Hn|Hn].
  { unfold uniques_direction. by rewrite bool_decide_eq_true_2. }
  destruct (decide (size (used_at g items) = length (uniques_at g items)))
    as [Hsize|Hsize].
  2:{ by rewrite (uniques_direction_duplicates set_iter set_iter_perm). }
  rewrite (uniques_direction_run set_iter set_iter_perm) by done.
  unfold uniques_tail.
  destruct (substract_loop_ok (used_at g items) (pending_at g items)
              changed g (cell_positions_pending_at g items))
    as (ch & g1 & Hrun & Hs).
  erewrite bind_ok by exact Hrun.
  case_bool_decide; [|done].
  destruct (decide (triangular (Z.of_nat (length (pending_at g items)))
                    ≤ residual_at g n items
                    ≤ triangular_prime
                        (Z.of_nat (length (pending_at g items)))))
    as [Hpre|Hpre].
  - destruct (constrain_cells_sum_feasible (residual_at g n items)
                (pending_at g items) g1) as [ch' Hrun']; [|done|].
    { eapply cell_positions_shrinks; [exact Hs|].
      apply cell_positions_pending_at. }
    erewrite bind_ok by exact Hrun'. cbn [mret M_ret].
    etrans; [exact Hs|].
    pose proof (narrows_constrain_cells_sum (residual_at g n items)
                  (pending_at g items) g1) as Hn'.
    unfold post in Hn'. rewrite Hrun' in Hn'. apply Hn'.
  - erewrite bind_raise; [done|]. by apply constrain_cells_sum_violation.
Qed.

Lemma discard_from_uniques_asserts g :
  well_formed g →
  post (discard_from_uniques set_iter) g
       (λ _ g', shrinks g g') (λ e _, e = AssertionError).
Proof.
  intros Hwf. unfold discard_from_uniques.
  eapply post_read_ok; [done|]. rewrite clues_well_formed by done.
  apply (post_foldM_in _ (λ _ g', shrinks g g')); [|done].
  intros changed item g' Hitem Hs.
  apply list_elem_of_fmap in Hitem as ([[idx v] h] & -> & Hin).
  apply elem_of_clue_entries in Hin.
  assert (Hidx : (idx < length (data g))%nat) by by eapply lookup_lt_Some.
  destruct (items_south_of_ok g idx Hwf Hidx) as [south Hsouth].
  destruct (items_east_of_ok g idx Hwf Hidx) as [east Heast].
  eapply post_read_ok; [done|]. cbv beta iota.
  eapply post_read_ok; [by rewrite (shrinks_items_south_of g g')|].
  eapply post_read_ok; [by rewrite (shrinks_items_east_of g g')|].
  apply post_bind. eapply post_then; [apply uniques_direction_asserts|].
  intros changed' g1 Hs1. cbv beta.
  eapply post_then; [apply uniques_direction_asserts|].
  intros changed'' g2 Hs2. cbv beta.
  etrans; [exact Hs|]. etrans; [exact Hs1|exact Hs2].
Qed.

Variable cell_set_iter : gset nat → list nat.
Hypothesis cell_set_iter_perm : ∀ s, cell_set_iter s ≡ₚ elements s.

Lemma discard_from_single_clues_asserts g :
  well_formed g →
  post (discard_from_single_clues set_iter cell_set_iter) g
       (λ _ g', shrinks g g') (λ e _, e = AssertionError).
Proof.
  intros Hwf.
  assert (Hfold : post (foldM (single_clues_body set_iter cell_set_iter)
                          false (clues g)) g
                       (λ _ g', shrinks g g') (λ e _, e = AssertionError));
    [|exact Hfold].
  rewrite clues_well_formed by done.
  eapply post_then.
  - apply (post_foldM_in _ (λ _ g', keeps_resolved g g'));
      [|apply keeps_resolved_refl].
    intros changed item g' Hitem Hk.
    apply list_elem_of_fmap in Hitem as ([[idx v] h] & -> & Hin).
    apply elem_of_clue_entries in Hin.
    apply (single_clues_body_keeps set_iter set_iter_perm
             cell_set_iter cell_set_iter_perm); [done| |done].
    by eapply lookup_lt_Some.
  - intros changed g' Hk. apply Hk.
Qed.

Lemma solve_loop_asserts fuel g :
  well_formed g →
  match (solve_loop set_iter cell_set_iter fuel g).1 with
  | Ok _ => True
  | Raise e => e = AssertionError
  end.
Proof.
  revert g. induction fuel as [|fuel IH]; intros g Hwf; [done|].
  rewrite solve_loop_S.
  pose proof (discard_from_uniques_asserts g Hwf) as H1. unfold post in H1.
  destruct (discard_from_uniques set_iter g) as [[[]|e] g1]; [| |done].
  - apply IH. by eapply well_formed_shrinks.
  - pose proof (well_formed_shrinks g g1 H1 Hwf) as Hwf1.
    pose proof (discard_from_single_clues_asserts g1 Hwf1) as H2.
    unfold post in H2.
    destruct (discard_from_single_clues set_iter cell_set_iter g1)
      as [[[]|e] g2]; [| |done].
    + apply IH. by eapply well_formed_shrinks.
    + pose proof (well_formed_shrinks g1 g2 H2 Hwf1) as Hwf2.
      destruct (crack_result set_iter set_iter_perm g2 Hwf2)
        as (b & g3 & Hrun & _).
      by rewrite Hrun.
Qed.

(** X27. On a well-formed grid [solve] has two outcomes only: it returns, or
    one of the assertions of the passes and of the narrowing fails; no
    other exception (StopIteration, AttributeError, ValueError,
    ZeroDivisionError) leaves it. *)
Theorem solve_returns_or_asserts g :
  well_formed g →
  (∃ g', solve set_iter cell_set_iter g = (Ok (Some ()), g'))
  ∨ (∃ g', solve set_iter cell_set_iter g = (Raise AssertionError, g')).
Proof.
  intros Hwf.
  pose proof (solve_loop_asserts (S (total_candidates g)) g Hwf) as Hout.
  destruct (solve_loop_enough set_iter cell_set_iter
              (S (total_candidates g)) (S (total_candidates g)) g)
    as [_ Hnone]; [lia..|].
  unfold solve.
  destruct (solve_loop set_iter cell_set_iter (S (total_candidates g)) g)
    as [[[[]|]|e] g'] eqn:Hrun; simpl in *.
  - left. eauto.
  - done.
  - right. subst e. eauto.
Qed.

End Failures.

Lemma solve_returns_or_asserts_witness :
  (∃ g',
     solve elements elements
       (mkKakuro 3 1 [Clue 0 1; Cell (range_set 1 10); Cell (range_set 1 10)])
     = (Ok (Some ()), g'))
  ∨ (∃ g',
       solve elements elements
         (mkKakuro 3 1
            [Clue 0 1; Cell (range_set 1 10); Cell (range_set 1 10)])
       = (Raise AssertionError, g')).
Proof.
  apply (solve_returns_or_asserts elements elements_order_Z
           elements elements_order_nat
           (mkKakuro 3 1
              [Clue 0 1; Cell (range_set 1 10); Cell (range_set 1 10)])).
  unfold well_formed. simpl. lia.
Defined.

(** ** The equivalences at concrete inputs *)

Lemma valid_combination_spec_witness :
  NoDup [1; 2; 3] ∧ (∀ x, x ∈ [1; 2; 3] → 1 ≤ x ≤ 9).
Proof.
  apply (proj1 (proj1 (valid_combination_spec [1; 2; 3]))).
  vm_compute. reflexivity.
Defined.

Lemma unsupported_spec_witness :
  5 ∈ ({[ 5 ]} : gset Z)
  ∧ ¬ ∃ p, Forall2 (λ y pool, y ∈ pool) p [[5]]
           ∧ NoDup (5 :: p) ∧ (∀ y, y ∈ 5 :: p → 1 ≤ y ≤ 9)
           ∧ 10 = sum p + 5.
Proof.
  apply (proj1 (unsupported_spec 10 {[ 5 ]} [[5]] 5)).
  apply (bool_decide_unpack _). vm_compute. reflexivity.
Defined.

Lemma feasibility_exact_witness :
  ∃ t : gset Z, t ⊆ digits ∧ size t = 2%nat ∧ set_sum t = 10.
Proof.
  apply (proj1 (feasibility_exact 2 10)).
  vm_compute. split; discriminate.
Defined.
